(** * Code Explainer: a Rocq model of [src/index.ts]

    The analyser of [index.ts] is a chain of string functions driven by
    regular expressions.  This development embeds it shallowly:

    - a JavaScript string is the list of its UTF-16 code units ([str]);
    - the string methods the source calls ([indexOf], [substring],
      [includes], [trim], [split], [padEnd], ...) are list functions;
    - a [RegExp] object is a record holding its pattern, its flags and its
      mutable [lastIndex]; [exec] passes the object on explicitly;
    - the backtracking matcher follows the continuation semantics of the
      ECMAScript specification on the constructs the source uses;
    - a call that can loop or throw returns an [outcome].

    The module [Runtime] embeds the analyser a second time, as it runs on
    an engine whose backtrack stack has a limited capacity and on a store
    of [RegExp] objects; the two embeddings are proved to agree wherever
    the engine does not run out of stack. *)

From Stdlib Require Import String Ascii NArith ZArith Bool Arith Lia List.
Import ListNotations.

Set Implicit Arguments.

(** ** Strings *)

Module JsString.

Definition char := N.
Definition str := list char.

(** Source-level literals are written [lit "..."]; every literal of the
    source is ASCII except the box-drawing glyphs of the diagram. *)
Definition lit (s : string) : str :=
  map N_of_ascii (list_ascii_of_string s).

Definition str_eqb (a b : str) : bool :=
  if list_eq_dec N.eq_dec a b then true else false.

(** Clamping of a numeric argument into [0, len], as [indexOf] and
    [substring] do with their positions. *)
Definition clamp (len : nat) (z : Z) : nat := Nat.min (Z.to_nat z) len.

(** [s.substring(a, b)] *)
Definition substring (s : str) (a b : Z) : str :=
  let a' := clamp (length s) a in
  let b' := clamp (length s) b in
  let lo := Nat.min a' b' in
  let hi := Nat.max a' b' in
  firstn (hi - lo) (skipn lo s).

(** [s.substring(a)] *)
Definition substring_from (s : str) (a : Z) : str :=
  skipn (clamp (length s) a) s.

Fixpoint prefixb (p s : str) : bool :=
  match p, s with
  | [], _ => true
  | _ :: _, [] => false
  | c :: p', d :: s' => N.eqb c d && prefixb p' s'
  end.

(** First position [>= i] (with [rest] the text from [i] on) where [pat]
    starts. *)
Fixpoint find_from (pat rest : str) (i : nat) : option nat :=
  if prefixb pat rest then Some i
  else match rest with
       | [] => None
       | _ :: r => find_from pat r (S i)
       end.

(** [s.indexOf(pat, from)]: the position as a number, [-1] when absent. *)
Definition indexOf (s pat : str) (from : Z) : Z :=
  let k := clamp (length s) from in
  match find_from pat (skipn k s) k with
  | Some i => Z.of_nat i
  | None => (-1)%Z
  end.

(** [s.includes(pat)] *)
Definition includes (s pat : str) : bool :=
  negb (indexOf s pat 0 =? -1)%Z.

(** [s.startsWith(pat)] *)
Definition startsWith (s pat : str) : bool := prefixb pat s.

(** White space and line terminators of ECMAScript: the characters of
    [\s], which are also the ones [trim] removes. *)
Definition isSpace (c : char) : bool :=
  ((9 <=? c) && (c <=? 13) || (c =? 32) || (c =? 160) || (c =? 5760)
   || (8192 <=? c) && (c <=? 8202) || (c =? 8232) || (c =? 8233)
   || (c =? 8239) || (c =? 8287) || (c =? 12288) || (c =? 65279))%N.

(** Line terminators: the characters [.] refuses. *)
Definition isLineTerminator (c : char) : bool :=
  ((c =? 10) || (c =? 13) || (c =? 8232) || (c =? 8233))%N.

(** The characters of [\w]. *)
Definition isWord (c : char) : bool :=
  ((48 <=? c) && (c <=? 57) || (65 <=? c) && (c <=? 90)
   || (97 <=? c) && (c <=? 122) || (c =? 95))%N.

Fixpoint trimStart (s : str) : str :=
  match s with
  | c :: s' => if isSpace c then trimStart s' else s
  | [] => []
  end.

Definition trimEnd (s : str) : str := rev (trimStart (rev s)).

(** [s.trim()] *)
Definition trim (s : str) : str := trimEnd (trimStart s).

(** [s.split('\n')], for a separator of one code unit. *)
Fixpoint split_on (sep : char) (s : str) : list str :=
  match s with
  | [] => [[]]
  | c :: s' =>
      if N.eqb c sep then [] :: split_on sep s'
      else match split_on sep s' with
           | l :: ls => (c :: l) :: ls
           | [] => [[c]]
           end
  end.

(** [parts.join(sep)] *)
Fixpoint join (sep : str) (parts : list str) : str :=
  match parts with
  | [] => []
  | [p] => p
  | p :: ps => p ++ sep ++ join sep ps
  end.

(** [s.padEnd(n)]: spaces are added up to [n] code units. *)
Definition padEnd (s : str) (n : nat) : str :=
  s ++ repeat 32%N (n - length s).

(** Case mapping.  On ASCII letters it is the usual shift.  Outside ASCII
    only two code units have a lower-case form that contains an ASCII
    letter: U+212A (KELVIN SIGN, to [k]) and U+0130 (to [i] followed by
    U+0307); the other non-ASCII mappings stay outside ASCII and are left
    as they are, which no comparison of the source can observe. *)
Definition lower_unit (c : char) : str :=
  if ((65 <=? c) && (c <=? 90))%N then [(c + 32)%N]
  else if (c =? 8490)%N then [107%N]
  else if (c =? 304)%N then [105%N; 775%N]
  else [c].

(** [s.toLowerCase()] *)
Definition toLowerCase (s : str) : str := flat_map lower_unit s.

(** [s.toUpperCase()] on the code units the source applies it to (one
    unit taken from an identifier or a space). *)
Definition upper_unit (c : char) : char :=
  if ((97 <=? c) && (c <=? 122))%N then (c - 32)%N else c.

Definition toUpperCase (s : str) : str := map upper_unit s.

End JsString.
Import JsString.

(** ** Block extraction *)

Definition LBRACE : char := 123%N.
Definition RBRACE : char := 125%N.

(** The [while] loop of [extractBlock].  [rest] is the text from
    [currentIndex] on, so that [currentIndex < code.length] reads
    [rest <> []]; the result is the final [currentIndex]. *)
Fixpoint scanBraces (rest : str) (braceCount : Z) (currentIndex : nat) : nat :=
  match rest with
  | [] => currentIndex
  | c :: rest' =>
      if (0 <? braceCount)%Z then
        let braceCount' :=
          if N.eqb c LBRACE then (braceCount + 1)%Z
          else if N.eqb c RBRACE then (braceCount - 1)%Z
          else braceCount in
        scanBraces rest' braceCount' (S currentIndex)
      else currentIndex
  end.

Definition extractBlock (code : str) (startIndex : Z) : str :=
  let openingBraceIndex := indexOf code [LBRACE] startIndex in
  if (openingBraceIndex =? -1)%Z then []
  else
    let first := Z.to_nat openingBraceIndex + 1 in
    let currentIndex := scanBraces (skipn first code) 1 first in
    substring code startIndex (Z.of_nat currentIndex).

(** ** Outcomes of a call

    A call of the source returns a value, throws, or does not return.  The
    loops [while ((m = re.exec(code)) !== null)] are run with fuel; running
    out of it is [Diverge]. *)

Inductive outcome (A : Type) : Type :=
| Ret (a : A)
| Throw (msg : str)
| Diverge.

Arguments Ret {A} a.
Arguments Throw {A} msg.
Arguments Diverge {A}.

Definition bind {A B : Type} (c : outcome A) (f : A -> outcome B) : outcome B :=
  match c with
  | Ret a => f a
  | Throw e => Throw e
  | Diverge => Diverge
  end.

Notation "x <- c ;; k" := (bind c (fun x => k))
  (at level 61, c at next level, right associativity).

Fixpoint mapM {A B : Type} (f : A -> outcome B) (l : list A) : outcome (list B) :=
  match l with
  | [] => Ret []
  | a :: l' => b <- f a ;; bs <- mapM f l' ;; Ret (b :: bs)
  end.

(** ** Regular expressions *)

Module Regex.

(** Members of a character class. *)
Inductive citem : Type :=
| CChar (c : char)
| CRange (lo hi : char)
| CSpace
| CWord.

(** The pattern constructs that occur in [index.ts]. *)
Inductive regex : Type :=
| Eps
| Chr (c : char)
| Cls (negated : bool) (items : list citem)
| Dot
| Bol
| Seq (r1 r2 : regex)
| Alt (r1 r2 : regex)
| Star (greedy : bool) (r : regex)
| Opt (r : regex)
| Group (n : nat) (r : regex).

(** [r+] *)
Definition Plus (r : regex) : regex := Seq r (Star true r).

(** A run of literal characters. *)
Definition Lit (s : string) : regex :=
  fold_right (fun c r => Seq (Chr c) r) Eps (lit s).

(** Concatenation of a list of patterns. *)
Definition Cat (rs : list regex) : regex := fold_right Seq Eps rs.

Definition space : regex := Cls false [CSpace].     (* \s *)
Definition word : regex := Cls false [CWord].       (* \w *)
Definition oneOf (s : string) : regex := Cls false (map CChar (lit s)).
Definition noneOf (s : string) : regex := Cls true (map CChar (lit s)).
Definition anyChar : regex := Cls true [].          (* [^] *)

(** Canonicalisation under the [i] flag.  Every pattern of the source is
    made of ASCII characters; a code unit outside ASCII never canonicalises
    to an ASCII one, so comparing the ASCII upper-case forms is exact. *)
Definition canon (ic : bool) (c : char) : char :=
  if ic then upper_unit c else c.

Definition char_eq (ic : bool) (c d : char) : bool :=
  N.eqb (canon ic c) (canon ic d).

Definition in_range (lo hi d : char) : bool := ((lo <=? d) && (d <=? hi))%N.

Definition in_item (ic : bool) (d : char) (it : citem) : bool :=
  match it with
  | CChar c => char_eq ic c d
  | CRange lo hi =>
      in_range lo hi d
      || (ic && (in_range lo hi (upper_unit d)
                 || (in_range 65%N 90%N d && in_range lo hi (d + 32)%N)))
  | CSpace => isSpace d
  | CWord => isWord d
  end.

Definition in_class (ic : bool) (items : list citem) (d : char) : bool :=
  existsb (in_item ic d) items.

(** Captures: group number and the span it matched, latest first. *)
Definition captures := list (nat * (nat * nat)).

Fixpoint cap_lookup (caps : captures) (n : nat) : option (nat * nat) :=
  match caps with
  | [] => None
  | (m, span) :: caps' => if Nat.eqb m n then Some span else cap_lookup caps' n
  end.

Definition mstate := (nat * captures)%type.
Definition cont := nat -> captures -> option mstate.

Definition orelse (a b : option mstate) : option mstate :=
  match a with
  | Some x => Some x
  | None => b
  end.

(** One character against a predicate. *)
Definition step (s : str) (p : char -> bool) (i : nat) (caps : captures)
    (k : cont) : option mstate :=
  match nth_error s i with
  | Some d => if p d then k (S i) caps else None
  | None => None
  end.

(** The rounds of a quantifier [r*] or [r*?], with [once] the matcher of
    [r].  A greedy quantifier tries one more round first, a lazy one tries
    the continuation first; a round that consumes nothing is refused.  No
    more rounds than characters left can succeed, which bounds [fuel]. *)
Fixpoint rounds (once : nat -> captures -> cont -> option mstate)
    (greedy : bool) (k : cont) (fuel : nat) (i : nat) (caps : captures)
    {struct fuel} : option mstate :=
  match fuel with
  | 0 => k i caps
  | S fuel' =>
      let more :=
        once i caps
          (fun j caps' =>
             if Nat.ltb i j then rounds once greedy k fuel' j caps' else None) in
      if greedy then orelse more (k i caps) else orelse (k i caps) more
  end.

(** The backtracking matcher: [rmatch ic s r i caps k] matches [r] in [s]
    at position [i] and hands the end position and the captures to the
    continuation [k].  Alternatives are tried left to right.  (The source
    has no capture group under a repeated quantifier, so the reset of
    captures between rounds has nothing to do.) *)
Fixpoint rmatch (ic : bool) (s : str) (r : regex) (i : nat)
    (caps : captures) (k : cont) {struct r} : option mstate :=
  match r with
  | Eps => k i caps
  | Chr c => step s (char_eq ic c) i caps k
  | Cls neg items => step s (fun d => xorb neg (in_class ic items d)) i caps k
  | Dot => step s (fun d => negb (isLineTerminator d)) i caps k
  | Bol => if Nat.eqb i 0 then k i caps else None
  | Seq r1 r2 =>
      rmatch ic s r1 i caps (fun j caps' => rmatch ic s r2 j caps' k)
  | Alt r1 r2 =>
      orelse (rmatch ic s r1 i caps k) (rmatch ic s r2 i caps k)
  | Star greedy r1 =>
      rounds (fun i' caps' k' => rmatch ic s r1 i' caps' k') greedy k
        (S (length s - i)) i caps
  | Opt r1 =>
      orelse
        (rmatch ic s r1 i caps (fun j caps' => if Nat.ltb i j then k j caps' else None))
        (k i caps)
  | Group n r1 =>
      rmatch ic s r1 i caps (fun j caps' => k j ((n, (i, j)) :: caps'))
  end.

Definition accept : cont := fun j caps => Some (j, caps).

(** The first position from [i] on, [fuel] positions further at most,
    where the pattern matches. *)
Fixpoint search (ic : bool) (s : str) (r : regex) (fuel i : nat)
    : option (nat * mstate) :=
  match rmatch ic s r i [] accept with
  | Some st => Some (i, st)
  | None =>
      match fuel with
      | 0 => None
      | S fuel' => search ic s r fuel' (S i)
      end
  end.

(** A [RegExp] object. *)
Record RegExp : Type := mkRegExp {
  source : regex;
  ignoreCase : bool;
  global : bool;
  lastIndex : nat
}.

Definition setLastIndex (re : RegExp) (n : nat) : RegExp :=
  mkRegExp (source re) (ignoreCase re) (global re) n.

(** A match array: [index], the end of [match[0]], the captures and the
    text they point into. *)
Record MatchResult : Type := mkMatch {
  input : str;
  index : nat;
  matchEnd : nat;
  caps : captures
}.

Definition slice (s : str) (a b : nat) : str := firstn (b - a) (skipn a s).

(** [m[0]] *)
Definition matched (m : MatchResult) : str :=
  slice (input m) (index m) (matchEnd m).

(** [m[n]] for a group: [None] is [undefined]. *)
Definition group (m : MatchResult) (n : nat) : option str :=
  match cap_lookup (caps m) n with
  | Some (a, b) => Some (slice (input m) a b)
  | None => None
  end.

(** [re.exec(s)]: the match, if any, and the object with its new
    [lastIndex]. *)
Definition exec (re : RegExp) (s : str) : option MatchResult * RegExp :=
  let li := if global re then lastIndex re else 0 in
  let fail := if global re then setLastIndex re 0 else re in
  if Nat.ltb (length s) li then (None, fail)
  else
    match search (ignoreCase re) s (source re) (length s - li) li with
    | None => (None, fail)
    | Some (i, (e, cs)) =>
        (Some (mkMatch s i e cs), if global re then setLastIndex re e else re)
    end.

(** [re.test(s)] for the patterns without the [g] flag. *)
Definition test (re : RegExp) (s : str) : bool :=
  match fst (exec re s) with
  | Some _ => true
  | None => false
  end.

(** [s.match(re)] for a pattern without the [g] flag. *)
Definition smatch (s : str) (re : RegExp) : option MatchResult :=
  fst (exec re s).

(** [while ((m = re.exec(s)) !== null) { ... }]: the matches in the order
    the loop meets them, and the object as the loop leaves it. *)
Fixpoint execLoop (fuel : nat) (re : RegExp) (s : str)
    : outcome (list MatchResult * RegExp) :=
  match fuel with
  | 0 => Diverge
  | S fuel' =>
      match exec re s with
      | (None, re') => Ret ([], re')
      | (Some m, re') =>
          r <- execLoop fuel' re' s ;;
          Ret (m :: fst r, snd r)
      end
  end.

Definition execAll (re : RegExp) (s : str) : outcome (list MatchResult) :=
  r <- execLoop (length s + 2) re s ;; Ret (fst r).

(** The matches [s.replace(re, ...)] collects for a pattern with the [g]
    flag: after an empty match [lastIndex] moves on by one. *)
Fixpoint replaceLoop (fuel : nat) (re : RegExp) (s : str)
    : outcome (list MatchResult) :=
  match fuel with
  | 0 => Diverge
  | S fuel' =>
      match exec re s with
      | (None, _) => Ret []
      | (Some m, re') =>
          let re'' :=
            if Nat.eqb (matchEnd m) (index m)
            then setLastIndex re' (S (lastIndex re')) else re' in
          ms <- replaceLoop fuel' re'' s ;;
          Ret (m :: ms)
      end
  end.

(** The text [replace] builds from the matches and their replacements. *)
Fixpoint assemble (s : str) (pos : nat) (ms : list MatchResult)
    (f : MatchResult -> str) : str :=
  match ms with
  | [] => skipn pos s
  | m :: ms' =>
      if Nat.leb pos (index m)
      then slice s pos (index m) ++ f m ++ assemble s (matchEnd m) ms' f
      else assemble s pos ms' f
  end.

(** [s.replace(re, f)] *)
Definition replace (s : str) (re : RegExp) (f : MatchResult -> str)
    : outcome str :=
  if global re then
    ms <- replaceLoop (length s + 2) (setLastIndex re 0) s ;;
    Ret (assemble s 0 ms f)
  else
    match fst (exec re s) with
    | None => Ret s
    | Some m => Ret (assemble s 0 [m] f)
    end.

(** The texts a pattern denotes, without the order of the search:
    [denotes ic s r i j] when [r] can match [s] from position [i] to
    position [j]. *)
Inductive denotes (ic : bool) (s : str) : regex -> nat -> nat -> Prop :=
| D_Eps i : denotes ic s Eps i i
| D_Chr c i d :
    nth_error s i = Some d -> char_eq ic c d = true ->
    denotes ic s (Chr c) i (S i)
| D_Cls neg items i d :
    nth_error s i = Some d -> xorb neg (in_class ic items d) = true ->
    denotes ic s (Cls neg items) i (S i)
| D_Dot i d :
    nth_error s i = Some d -> isLineTerminator d = false ->
    denotes ic s Dot i (S i)
| D_Bol : denotes ic s Bol 0 0
| D_Seq r1 r2 i j k :
    denotes ic s r1 i j -> denotes ic s r2 j k -> denotes ic s (Seq r1 r2) i k
| D_AltL r1 r2 i j : denotes ic s r1 i j -> denotes ic s (Alt r1 r2) i j
| D_AltR r1 r2 i j : denotes ic s r2 i j -> denotes ic s (Alt r1 r2) i j
| D_StarNil greedy r i : denotes ic s (Star greedy r) i i
| D_StarCons greedy r i j k :
    denotes ic s r i j -> i < j -> denotes ic s (Star greedy r) j k ->
    denotes ic s (Star greedy r) i k
| D_OptNone r i : denotes ic s (Opt r) i i
| D_OptSome r i j : denotes ic s r i j -> denotes ic s (Opt r) i j
| D_Group n r i j : denotes ic s r i j -> denotes ic s (Group n r) i j.

(** Patterns every match of which consumes at least one character. *)
Fixpoint consumes (r : regex) : bool :=
  match r with
  | Chr _ | Cls _ _ | Dot => true
  | Seq r1 r2 => consumes r1 || consumes r2
  | Alt r1 r2 => consumes r1 && consumes r2
  | Group _ r1 => consumes r1
  | Eps | Bol | Star _ _ | Opt _ => false
  end.

(** Patterns every match of which sets group [n]. *)
Fixpoint binds (n : nat) (r : regex) : bool :=
  match r with
  | Seq r1 r2 => binds n r1 || binds n r2
  | Alt r1 r2 => binds n r1 && binds n r2
  | Group m r1 => Nat.eqb m n || binds n r1
  | _ => false
  end.

(** [caps'] keeps every group [caps] has set. *)
Definition extends (caps caps' : captures) : Prop :=
  forall n, cap_lookup caps n <> None -> cap_lookup caps' n <> None.

(** What the continuation of a successful match is called with. *)
Record reaches (s : str) (r : regex) (i : nat) (caps : captures)
    (j : nat) (caps' : captures) : Prop := mkReaches {
  reach_le : i <= j;
  reach_lt : consumes r = true -> i < j;
  reach_in : i <= length s -> j <= length s;
  reach_ext : extends caps caps';
  reach_binds : forall n, binds n r = true -> cap_lookup caps' n <> None
}.

End Regex.
Import Regex.

(** ** Values that are a string, [undefined] or [null]

    [match[n]] is a string or [undefined]; [ClassInfo.parent] is a string
    or [null]. *)

Inductive jsval : Type :=
| Undefined
| Null
| JStr (s : str).

(** Truthiness: the empty string, [undefined] and [null] are falsy. *)
Definition truthy (v : jsval) : bool :=
  match v with
  | JStr (_ :: _) => true
  | _ => false
  end.

(** [a || b] *)
Definition jsor (a b : jsval) : jsval := if truthy a then a else b.

(** [a === b] *)
Definition strict_eq (a b : jsval) : bool :=
  match a, b with
  | Undefined, Undefined => true
  | Null, Null => true
  | JStr x, JStr y => str_eqb x y
  | _, _ => false
  end.

(** Conversion to a string inside a template literal. *)
Definition toStr (v : jsval) : str :=
  match v with
  | Undefined => lit "undefined"
  | Null => lit "null"
  | JStr s => s
  end.

(** What [$n] stands for in a replacement text: the capture, or nothing
    when the group did not take part. *)
Definition capture (m : MatchResult) (n : nat) : str :=
  match group m n with
  | Some s => s
  | None => []
  end.

(** [m[n]] as a value. *)
Definition grp (m : MatchResult) (n : nat) : jsval :=
  match group m n with
  | Some s => JStr s
  | None => Undefined
  end.

(** [v.padEnd(n)]: a [TypeError] unless [v] is a string. *)
Definition padEndV (v : jsval) (n : nat) : outcome str :=
  match v with
  | JStr s => Ret (padEnd s n)
  | _ => Throw (lit "TypeError: Cannot read properties of undefined (reading 'padEnd')")
  end.

Definition nl : str := [10%N].
Definition QUOTE : char := 39%N.
Definition DQUOTE : char := 34%N.

(** A pattern literal with the [g] flag: a fresh object, [lastIndex] 0. *)
Definition reG (r : regex) : RegExp := mkRegExp r false true 0.

(** A pattern literal with the [i] flag. *)
Definition reI (r : regex) : RegExp := mkRegExp r true false 0.

(** A pattern literal without flags. *)
Definition re0 (r : regex) : RegExp := mkRegExp r false false 0.

(** ** Pattern selection of [generateArchitectureDiagram] *)

Record PatternSet : Type := mkPatterns {
  classRegex : RegExp;
  functionRegex : RegExp;
  methodRegex : RegExp;
  importRegex : RegExp
}.

(** [\s+extends\s+(\w+)] *)
Definition extendsClause : regex :=
  Cat [Plus space; Lit "extends"; Plus space; Group 2 (Plus word)].

(** [(\w+)\s*\([^)]*\)\s*{] with the name in group [n]. *)
Definition callSignature (n : nat) : regex :=
  Cat [Group n (Plus word); Star true space; Lit "("; Star true (noneOf ")");
       Lit ")"; Star true space; Lit "{"].

(** [\w+(?:\.\w+)*] *)
Definition dottedName : regex :=
  Seq (Plus word) (Star true (Seq (Lit ".") (Plus word))).

Definition jsPatterns : PatternSet :=
  mkPatterns
    (reG (Cat [Lit "class"; Plus space; Group 1 (Plus word); Opt extendsClause]))
    (reG (Cat [Lit "function"; Plus space; Group 1 (Plus word)]))
    (reG (callSignature 1))
    (reG (Cat [Lit "import"; Plus space;
               Alt (Cat [Lit "{"; Star true (noneOf "}"); Lit "}"])
                   (Star true (noneOf "{;"));
               Opt (Seq (Plus space) (Lit "from"));
               Plus space;
               Cls false [CChar QUOTE; CChar DQUOTE];
               Group 1 (Plus (Cls true [CChar QUOTE; CChar DQUOTE]));
               Cls false [CChar QUOTE; CChar DQUOTE]])).

Definition pythonPatterns : PatternSet :=
  mkPatterns
    (reG (Cat [Lit "class"; Plus space; Group 1 (Plus word);
               Opt (Cat [Lit "("; Group 2 (Plus (noneOf ")")); Lit ")"]);
               Lit ":"]))
    (reG (Cat [Lit "def"; Plus space; Group 1 (Plus word)]))
    (reG (Cat [Lit "def"; Plus space; Group 1 (Plus word); Star true space;
               Lit "(self"; Opt (Lit ","); Star true (noneOf ")"); Lit "):"]))
    (reG (Alt (Cat [Lit "from"; Plus space; Group 1 dottedName; Plus space;
                    Lit "import"])
              (Cat [Lit "import"; Plus space; Group 2 dottedName]))).

(** [(?:public|private|protected|static)?\s+\w+\s+(\w+)\s*\([^)]*\)\s*{] *)
Definition javaMember : regex :=
  Cat [Opt (Alt (Lit "public") (Alt (Lit "private")
              (Alt (Lit "protected") (Lit "static"))));
       Plus space; Plus word; Plus space; callSignature 1].

Definition javaPatterns : PatternSet :=
  mkPatterns
    (reG (Cat [Lit "class"; Plus space; Group 1 (Plus word); Opt extendsClause;
               Opt (Cat [Plus space; Lit "implements"; Plus space;
                         Group 3 (Plus (noneOf "{"))])]))
    (reG javaMember)
    (reG javaMember)
    (reG (Cat [Lit "import"; Plus space; Group 1 (Plus (noneOf ";")); Lit ";"])).

Definition genericPatterns : PatternSet :=
  mkPatterns
    (reG (Cat [Lit "class"; Plus space; Group 1 (Plus word)]))
    (reG (Alt (Cat [Lit "function"; Plus space; Group 1 (Plus word)])
           (Alt (Cat [Lit "def"; Plus space; Group 2 (Plus word)])
                (callSignature 3))))
    (reG (Alt (callSignature 1) (Cat [Lit "def"; Plus space; Group 2 (Plus word)])))
    (reG (Alt (Lit "import") (Alt (Lit "require")
           (Alt (Lit "include") (Lit "using"))))).

(** Membership of a label in the [case] labels of a [switch]. *)
Definition isOneOf (l : str) (labels : list string) : bool :=
  existsb (fun x => str_eqb l (lit x)) labels.

(** The [switch] on [programming_language.toLowerCase()]. *)
Definition selectPatterns (programming_language : str) : PatternSet :=
  let l := toLowerCase programming_language in
  if isOneOf l ["javascript"; "typescript"; "js"; "ts"]%string then jsPatterns
  else if isOneOf l ["python"]%string then pythonPatterns
  else if isOneOf l ["java"; "c#"; "csharp"]%string then javaPatterns
  else genericPatterns.

(** ** The architecture diagram *)

Record ClassInfo : Type := mkClass {
  cname : jsval;
  parent : jsval;
  cindex : nat
}.

Record FunctionInfo : Type := mkFunction {
  fname : jsval;
  findex : nat
}.

Record Relationship : Type := mkRel {
  rfrom : jsval;
  rto : jsval;
  rtype : str
}.

(** Body of the class loop: [{name: match[1], parent: match[2] || null,
    index: match.index}]. *)
Definition classOfMatch (m : MatchResult) : ClassInfo :=
  mkClass (grp m 1) (jsor (grp m 2) Null) (index m).

(** The inner [for (const cls of classes)] of the function loop, which
    stops at the first class whose block surrounds the match. *)
Definition isInsideClass (code : str) (classes : list ClassInfo)
    (matchIndex : nat) : bool :=
  existsb
    (fun cls =>
       let classCode := extractBlock code (Z.of_nat (cindex cls)) in
       Nat.ltb (cindex cls) matchIndex
       && Nat.ltb matchIndex (cindex cls + length classCode))
    classes.

Definition functionOfMatch (m : MatchResult) : FunctionInfo :=
  mkFunction (jsor (jsor (grp m 1) (grp m 2)) (grp m 3)) (index m).

(** The function loop over the matches of [functionRegex]. *)
Definition keptMatches (code : str) (classes : list ClassInfo)
    (ms : list MatchResult) : list MatchResult :=
  filter (fun m => negb (isInsideClass code classes (index m))) ms.

Definition topLevelFunctions (code : str) (classes : list ClassInfo)
    (ms : list MatchResult) : list FunctionInfo :=
  map functionOfMatch (keptMatches code classes ms).

Definition importOfMatch (m : MatchResult) : jsval :=
  jsor (jsor (grp m 1) (grp m 2)) (JStr (lit "external dependency")).

Definition inheritsOf (classes : list ClassInfo) : list Relationship :=
  flat_map
    (fun cls =>
       if truthy (parent cls)
       then [mkRel (cname cls) (parent cls) (lit "inherits")]
       else [])
    classes.

Definition callsOf (code : str) (functions : list FunctionInfo)
    : list Relationship :=
  flat_map
    (fun func =>
       let functionCode := extractBlock code (Z.of_nat (findex func)) in
       flat_map
         (fun otherFunc =>
            if negb (strict_eq (fname func) (fname otherFunc))
               && includes functionCode (toStr (fname otherFunc) ++ lit "(")
            then [mkRel (fname func) (fname otherFunc) (lit "calls")]
            else [])
         functions)
    functions.

Definition header : str :=
  lit "+----------------------+" ++ nl ++
  lit "|    Code Structure    |" ++ nl ++
  lit "+----------------------+" ++ nl.

Definition renderImports (imports : list jsval) : str :=
  if Nat.ltb 0 (length imports) then
    nl ++ lit "    Dependencies:" ++ nl
    ++ concat (map (fun i => lit "    [" ++ toStr i ++ lit "]" ++ nl)
                   (firstn 3 imports))
    ++ (if Nat.ltb 3 (length imports)
        then lit "    [...more dependencies...]" ++ nl else [])
    ++ nl ++ lit "        |" ++ nl ++ lit "        v" ++ nl
  else [].

(** The three lines drawn around a class name, after [indent]. *)
Definition box (indent : str) (name : jsval) : outcome str :=
  padded <- padEndV name 14 ;;
  Ret (indent ++ lit "+------------------+" ++ nl
       ++ indent ++ lit "|  " ++ padded ++ lit "  |" ++ nl
       ++ indent ++ lit "+------------------+" ++ nl).

Definition indent4 : str := lit "    ".
Definition indent17 : str := lit "                 ".

(** [isLast ? '└' : '├'] followed by [──extends──┐]. *)
Definition extendsLine (isLast : bool) : str :=
  indent4 ++ [if isLast then 9492%N else 9500%N]
  ++ [9472%N; 9472%N] ++ lit "extends" ++ [9472%N; 9472%N; 9488%N] ++ nl.

(** The loop over [childClasses], which knows the last child. *)
Fixpoint renderChildren (children : list ClassInfo) : outcome str :=
  match children with
  | [] => Ret []
  | c :: rest =>
      b <- box indent17 (cname c) ;;
      more <- renderChildren rest ;;
      Ret (extendsLine (match rest with [] => true | _ => false end) ++ b ++ more)
  end.

Definition parentClasses (classes : list ClassInfo) : list ClassInfo :=
  filter (fun c => negb (truthy (parent c))) classes.

Definition childClasses (classes : list ClassInfo) (cls : ClassInfo)
    : list ClassInfo :=
  filter (fun c => strict_eq (parent c) (cname cls)) classes.

Definition standaloneClasses (classes : list ClassInfo) : list ClassInfo :=
  filter
    (fun c =>
       negb (truthy (parent c))
       && negb (existsb (fun other => strict_eq (parent other) (cname c)) classes))
    classes.

(** What the first pass draws for one class without a parent. *)
Definition renderParent (classes : list ClassInfo) (cls : ClassInfo)
    : outcome str :=
  b <- box indent4 (cname cls) ;;
  kids <- renderChildren (childClasses classes cls) ;;
  Ret (b ++ kids ++ nl).

(** First pass: the classes without a parent, each with its children. *)
Definition renderParentPass (classes : list ClassInfo) : outcome str :=
  parts <- mapM (renderParent classes) (parentClasses classes) ;;
  Ret (concat parts).

(** Second pass: the classes without a parent and without children. *)
Definition renderStandalonePass (classes : list ClassInfo) : outcome str :=
  parts <- mapM (fun cls => box indent4 (cname cls)) (standaloneClasses classes) ;;
  Ret (concat parts).

Definition renderClasses (classes : list ClassInfo) : outcome str :=
  if Nat.ltb 0 (length classes) then
    p1 <- renderParentPass classes ;;
    p2 <- renderStandalonePass classes ;;
    Ret (nl ++ lit "    Classes:" ++ nl ++ p1 ++ p2)
  else Ret [].

(** [processedFunctions]: a [Set] of names, kept as a list. *)
Definition has (set : list jsval) (v : jsval) : bool :=
  existsb (strict_eq v) set.

Definition add (set : list jsval) (v : jsval) : list jsval :=
  if has set v then set else set ++ [v].

(** The loop over the [calls] relationships: the text and the set. *)
Fixpoint renderCalls (rels : list Relationship) (processed : list jsval)
    : str * list jsval :=
  match rels with
  | [] => ([], processed)
  | rel :: rest =>
      if negb (has processed (rfrom rel)) then
        let line :=
          lit "    [" ++ toStr (rfrom rel) ++ lit "] "
          ++ [9472%N; 9472%N] ++ lit "calls" ++ [9472%N; 9472%N]
          ++ lit "> [" ++ toStr (rto rel) ++ lit "]" ++ nl in
        let r := renderCalls rest (add (add processed (rfrom rel)) (rto rel)) in
        (line ++ fst r, snd r)
      else renderCalls rest processed
  end.

(** The loop over the functions no relationship has drawn. *)
Fixpoint renderRemaining (functions : list FunctionInfo)
    (processed : list jsval) : str :=
  match functions with
  | [] => []
  | func :: rest =>
      if negb (has processed (fname func)) then
        lit "    [" ++ toStr (fname func) ++ lit "]" ++ nl
        ++ renderRemaining rest (add processed (fname func))
      else renderRemaining rest processed
  end.

Definition renderFunctions (functions : list FunctionInfo)
    (relationships : list Relationship) : str :=
  if Nat.ltb 0 (length functions) then
    let calls := filter (fun r => str_eqb (rtype r) (lit "calls")) relationships in
    let r := renderCalls calls [] in
    nl ++ lit "    Functions:" ++ nl ++ fst r ++ renderRemaining functions (snd r)
  else [].

Definition fallbackBox : str :=
  nl ++ lit "    +------------------+" ++ nl
  ++ lit "    |  Implementation  |" ++ nl
  ++ lit "    +------------------+" ++ nl.

Definition renderFallback (classes : list ClassInfo)
    (functions : list FunctionInfo) : str :=
  if Nat.eqb (length classes) 0 && Nat.eqb (length functions) 0
  then fallbackBox else [].

(** The three extraction loops. *)
Definition extractClasses (code : str) (ps : PatternSet)
    : outcome (list ClassInfo) :=
  ms <- execAll (setLastIndex (classRegex ps) 0) code ;;
  Ret (map classOfMatch ms).

Definition extractFunctions (code : str) (ps : PatternSet)
    (classes : list ClassInfo) : outcome (list FunctionInfo) :=
  ms <- execAll (setLastIndex (functionRegex ps) 0) code ;;
  Ret (topLevelFunctions code classes ms).

Definition extractImports (code : str) (ps : PatternSet)
    : outcome (list jsval) :=
  ms <- execAll (setLastIndex (importRegex ps) 0) code ;;
  Ret (map importOfMatch ms).

Definition renderDiagram (code : str) (classes : list ClassInfo)
    (functions : list FunctionInfo) (imports : list jsval) : outcome str :=
  let relationships := inheritsOf classes ++ callsOf code functions in
  classesPart <- renderClasses classes ;;
  Ret (header ++ renderImports imports ++ classesPart
       ++ renderFunctions functions relationships
       ++ renderFallback classes functions).

Definition generateArchitectureDiagram (code programming_language : str)
    : outcome str :=
  let ps := selectPatterns programming_language in
  classes <- extractClasses code ps ;;
  functions <- extractFunctions code ps classes ;;
  imports <- extractImports code ps ;;
  renderDiagram code classes functions imports.

(** ** The functionality summary *)

(** A probe [/text/i]. *)
Definition probe (s : string) : RegExp := reI (Lit s).

(** A probe [/name\s*\(/i]. *)
Definition probeCall (s : string) : RegExp :=
  reI (Cat [Lit s; Star true space; Lit "("]).

(** The table [patterns], in the order its keys are inserted. *)
Definition basePatterns : list (string * list RegExp) :=
  [ ("network", [probeCall "fetch"; probe "http"; probe "request"; probe "api";
                 probe "url"; probe "endpoint"]);
    ("ui", [probe "render"; probe "component"; probe "view"; probe "display";
            probe "ui"; probe "interface"; probe "dom"]);
    ("dataProcessing", [probeCall "map"; probeCall "filter"; probeCall "reduce";
                        probe "transform"; probe "convert"; probe "parse"]);
    ("authentication", [probe "auth"; probe "login"; probe "password";
                        probe "credential"; probe "token"; probe "permission"]);
    ("database", [probe "database"; probe "db."; probe "query"; probe "sql";
                  probe "mongo"; probe "store"; probe "save"; probe "repository"]);
    ("testing", [probe "test"; probe "assert"; probe "expect"; probe "mock";
                 probe "spec"]);
    ("algorithm", [probe "algorithm"; probe "sort"; probe "search";
                   probe "calculate"; probe "compute"]);
    ("fileSystem", [probe "file"; probe "read"; probe "write"; probe "path";
                    probe "directory"; probe "folder"]) ]%string.

(** [patterns[key].push(...)] *)
Definition push (key : string) (more : list RegExp)
    (table : list (string * list RegExp)) : list (string * list RegExp) :=
  map (fun e => if String.eqb (fst e) key then (fst e, snd e ++ more) else e) table.

(** The probes a language adds to [ui], [network] and [database]. *)
Definition languageProbes (programming_language : str)
    : list RegExp * list RegExp * list RegExp :=
  let l := toLowerCase programming_language in
  if isOneOf l ["javascript"; "typescript"; "js"; "ts"]%string then
    ([probe "react"; probe "angular"; probe "vue"; probe "component";
      probe "jsx"; probe "tsx"],
     [probe "axios"; probe "fetch"; probe "xhr"],
     [probe "mongoose"; probe "sequelize"; probe "typeorm"])
  else if isOneOf l ["python"]%string then
    ([probe "flask"; probe "django"; probe "template"],
     [probe "requests"; probe "urllib"],
     [probe "sqlalchemy"; probe "django.db"; probe "cursor"])
  else if isOneOf l ["java"]%string then
    ([probe "swing"; probe "javafx"; probe "awt"],
     [probe "httpclient"; probe "urlconnection"],
     [probe "jdbc"; probe "repository"; probe "entity"])
  else if isOneOf l ["c#"; "csharp"]%string then
    ([probe "wpf"; probe "xaml"; probe "winforms"],
     [probe "httpclient"; probe "webclient"],
     [reI (Cat [Lit "entity"; Star true space; Lit "framework"]);
      probe "dbcontext"])
  else ([], [], []).

Definition purposePatterns (programming_language : str)
    : list (string * list RegExp) :=
  let '(ui, network, database) := languageProbes programming_language in
  push "database" database (push "network" network (push "ui" ui basePatterns)).

(** Number of the probes of a category that match somewhere in the text. *)
Definition probeCount (code : str) (probes : list RegExp) : nat :=
  length (filter (fun p => test p code) probes).

(** [matchCounts], in the order of the table. *)
Definition countMatches (code : str) (table : list (string * list RegExp))
    : list (string * nat) :=
  map (fun e => (fst e, probeCount code (snd e))) table.

(** [matches]: a flag starts [false] and is set with each increment of the
    count of its category. *)
Definition flagMatches (code : str) (table : list (string * list RegExp))
    : list (string * bool) :=
  map (fun e => (fst e, Nat.ltb 0 (probeCount code (snd e)))) table.

Fixpoint lookup {A : Type} (key : string) (table : list (string * A)) : option A :=
  match table with
  | [] => None
  | (k, v) :: rest => if String.eqb k key then Some v else lookup key rest
  end.

(** [matches.key] in a condition: a missing key reads [undefined]. *)
Definition flag (matches : list (string * bool)) (key : string) : bool :=
  match lookup key matches with
  | Some b => b
  | None => false
  end.

(** [entries.sort((a, b) => b[1] - a[1])]: a stable sort, larger counts
    first. *)
Fixpoint insertDesc (e : string * nat) (l : list (string * nat))
    : list (string * nat) :=
  match l with
  | [] => [e]
  | x :: l' => if Nat.leb (snd x) (snd e) then e :: l else x :: insertDesc e l'
  end.

Definition sortDesc (l : list (string * nat)) : list (string * nat) :=
  fold_right insertDesc [] l.

Definition sortedCategories (matchCounts : list (string * nat)) : list string :=
  map fst (filter (fun e => Nat.ltb 0 (snd e)) (sortDesc matchCounts)).

(** The [switch] on the primary purpose. *)
Definition primarySentence (primaryPurpose : string)
    (matches : list (string * bool)) : str :=
  if String.eqb primaryPurpose "ui" then
    lit "implement a user interface " ++
    (if flag matches "network" then lit "that communicates with external services. "
     else if flag matches "database" then lit "that interacts with a database. "
     else lit "for displaying and interacting with data. ")
  else if String.eqb primaryPurpose "network" then
    lit "handle network communication, " ++
    (if flag matches "api" then lit "likely serving as an API or service layer. "
     else lit "facilitating data exchange with external systems. ")
  else if String.eqb primaryPurpose "dataProcessing" then
    lit "process and transform data, " ++
    (if flag matches "algorithm"
     then lit "implementing specific algorithms for data manipulation. "
     else lit "implementing business logic or data transformation. ")
  else if String.eqb primaryPurpose "database" then
    lit "interact with a database, " ++
    (if flag matches "dataProcessing"
     then lit "performing data operations and transformations. "
     else lit "managing data persistence and retrieval. ")
  else if String.eqb primaryPurpose "authentication" then
    lit "handle authentication and authorization, " ++
    (if flag matches "ui" then lit "providing secure user access to the interface. "
     else if flag matches "network"
     then lit "securing API endpoints or network resources. "
     else lit "managing user credentials and permissions. ")
  else if String.eqb primaryPurpose "testing" then
    lit "implement tests for " ++
    (if flag matches "ui" then lit "user interface components. "
     else if flag matches "network" then lit "network communication. "
     else if flag matches "database" then lit "database operations. "
     else lit "application functionality. ")
  else if String.eqb primaryPurpose "algorithm" then
    lit "implement specific algorithms " ++
    (if flag matches "dataProcessing"
     then lit "for data processing and transformation. "
     else lit "to solve computational problems. ")
  else if String.eqb primaryPurpose "fileSystem" then
    lit "handle file system operations, " ++
    (if flag matches "dataProcessing" then lit "processing file data. "
     else lit "managing file reading, writing, or organization. ")
  else lit "provide utility functions or core logic for the application. ".

(** The [switch] on the secondary purpose. *)
Definition secondaryName (secondaryPurpose : string) : str :=
  if String.eqb secondaryPurpose "ui" then lit "user interface presentation"
  else if String.eqb secondaryPurpose "network" then lit "network communication"
  else if String.eqb secondaryPurpose "dataProcessing"
  then lit "data processing and transformation"
  else if String.eqb secondaryPurpose "database" then lit "database interaction"
  else if String.eqb secondaryPurpose "authentication"
  then lit "authentication and security"
  else if String.eqb secondaryPurpose "testing" then lit "testing and validation"
  else if String.eqb secondaryPurpose "algorithm" then lit "algorithmic computation"
  else if String.eqb secondaryPurpose "fileSystem" then lit "file system operations"
  else [].

Definition alsoIncludes : str := lit "It also includes functionality for ".

(** [if (secondaryPurpose && matchCounts[secondaryPurpose] > 1) ...] *)
Definition secondaryClause (secondaryPurpose : option string)
    (matchCounts : list (string * nat)) : str :=
  match secondaryPurpose with
  | Some s =>
      if negb (String.eqb s "")
         && match lookup s matchCounts with
            | Some n => Nat.ltb 1 n
            | None => false
            end
      then alsoIncludes ++ secondaryName s ++ lit "."
      else []
  | None => []
  end.

Definition genericSentence : str :=
  lit "This code appears to "
  ++ lit "provide general utility functions or core logic for the application.".

(** The description built from the counts and the flags. *)
Definition summarize (matchCounts : list (string * nat))
    (matches : list (string * bool)) : str :=
  let sorted := sortedCategories matchCounts in
  let primaryPurpose := nth_error sorted 0 in
  let secondaryPurpose := nth_error sorted 1 in
  match primaryPurpose with
  | None => genericSentence
  | Some p =>
      if String.eqb p "" then genericSentence
      else lit "This code appears to " ++ primarySentence p matches
           ++ secondaryClause secondaryPurpose matchCounts
  end.

Definition extractCoreFunctionality (code programming_language : str) : str :=
  let table := purposePatterns programming_language in
  summarize (countMatches code table) (flagMatches code table).

(** ** Component descriptions *)

(** The loop over the lines of a component that looks for a run of [//]
    comments; the result is [commentLines] as the loop leaves it. *)
Fixpoint commentRun (lines : list str) (commentLines : list str)
    (inCommentBlock : bool) : list str :=
  match lines with
  | [] => commentLines
  | line :: rest =>
      let trimmedLine := trim line in
      if startsWith trimmedLine (lit "//") then
        commentRun rest (commentLines ++ [trim (substring_from trimmedLine 2)]) true
      else if inCommentBlock && Nat.eqb (length trimmedLine) 0 then
        commentRun rest commentLines inCommentBlock
      else if Nat.ltb 0 (length commentLines) then commentLines
      else commentRun rest commentLines false
  end.

Definition tripleQuote : str := [QUOTE; QUOTE; QUOTE].
Definition tripleDQuote : str := [DQUOTE; DQUOTE; DQUOTE].

Definition tripleDelim : regex :=
  Alt (Cat [Chr QUOTE; Chr QUOTE; Chr QUOTE])
      (Cat [Chr DQUOTE; Chr DQUOTE; Chr DQUOTE]).

(** A triple quote, the shortest text up to the next one (group 1), and
    that triple quote. *)
Definition docstringRegex : RegExp :=
  re0 (Cat [tripleDelim; Group 1 (Star false anyChar); tripleDelim]).

(** The opener of a documentation block, the shortest text up to the next
    closer (group 1), and that closer. *)
Definition jsdocRegex : RegExp :=
  re0 (Cat [Lit "/**"; Group 1 (Star false anyChar); Lit "*/"]).

(** The clean-up of a documentation comment. *)
Definition cleanComment (raw : str) : outcome str :=
  a <- replace raw (reG (Cat [Star true space; Lit "*"; Star true space]))
         (fun _ => lit " ") ;;
  b <- replace a (reG (Plus space)) (fun _ => lit " ") ;;
  c <- replace b (reG (Cat [Lit "@"; Plus word; Plus space;
                            Plus (Cls true [CChar 10%N])]))
         (fun _ => []) ;;
  Ret (trim c).

(** Conversion of an identifier in camelCase or PascalCase to words. *)
Definition humanize (componentName : str) : outcome str :=
  a <- replace componentName (reG (Group 1 (Cls false [CRange 65%N 90%N])))
         (fun m => lit " " ++ capture m 1) ;;
  b <- replace a (re0 (Seq Bol Dot)) (fun m => toUpperCase (matched m)) ;;
  Ret (trim b).

(** The second table of probes. *)
Definition descriptionPatterns : list (string * list RegExp) :=
  [ ("ui", [probe "render"; probe "component"; probe "view"; probe "display";
            probe "dom"; probe "element"; probe "ui"]);
    ("data", [probe "data"; probe "state"; probe "store"; probe "model";
              probe "entity"; probe "repository"]);
    ("network", [probe "fetch"; probe "http"; probe "request"; probe "api";
                 probe "url"; probe "endpoint"]);
    ("utility", [probe "util"; probe "helper"; probe "format"; probe "convert";
                 probe "transform"]);
    ("event", [probe "event"; probe "listener"; probe "handler"; probe "callback";
               probe "click"; probe "change"]);
    ("auth", [probe "auth"; probe "login"; probe "permission"; probe "role";
              probe "access"; probe "token"]);
    ("file", [probe "file"; probe "read"; probe "write"; probe "save";
              probe "load"; probe "path"]);
    ("math", [probe "calc"; probe "compute"; probe "sum"; probe "average";
              probe "math"; probe "formula"]) ]%string.

(** [componentName ? componentName + ' - ' : ''] *)
Definition namePrefix (componentName : jsval) : str :=
  if truthy componentName then toStr componentName ++ lit " - " else [].

Definition classSentence (primaryPurpose : option string) (componentCode : str)
    : str :=
  let p := match primaryPurpose with Some p => p | None => ""%string end in
  if String.eqb p "ui"
  then lit "A UI component that handles rendering and user interaction"
  else if String.eqb p "data" then lit "Manages data and state for the application"
  else if String.eqb p "network" then lit "Provides services or API interactions"
  else if String.eqb p "auth" then lit "Handles authentication and authorization"
  else if String.eqb p "file" then lit "Manages file operations and storage"
  else if includes componentCode (lit "extends")
          || includes componentCode (lit "implements")
  then lit "A base class that defines core functionality"
  else lit "Encapsulates related functionality and data".

Definition functionSentence (primaryPurpose : option string)
    (hasParameters hasReturn : bool) : str :=
  let p := match primaryPurpose with Some p => p | None => ""%string end in
  if String.eqb p "ui" then
    (if hasReturn then lit "Generates" else lit "Renders") ++ lit " UI elements"
    ++ (if hasParameters then lit " based on input parameters" else [])
  else if String.eqb p "data" then
    (if hasReturn then lit "Processes and transforms" else lit "Manages")
    ++ lit " data" ++ (if hasParameters then lit " from input parameters" else [])
  else if String.eqb p "network" then
    lit "Handles network communication"
    ++ (if hasParameters then lit " with specified endpoints" else [])
  else if String.eqb p "utility" then
    lit "Utility function that "
    ++ (if hasReturn then lit "processes input and returns a result"
        else lit "performs operations")
  else if String.eqb p "event"
  then lit "Event handler that responds to user interactions"
  else if String.eqb p "auth"
  then lit "Manages authentication or authorization processes"
  else if String.eqb p "file" then lit "Handles file system operations"
  else if String.eqb p "math" then
    lit "Performs mathematical calculations"
    ++ (if hasParameters then lit " on input values" else [])
  else if hasReturn && hasParameters
  then lit "Processes input parameters and returns a result"
  else if hasReturn then lit "Computes and returns a value"
  else if hasParameters then lit "Performs operations based on input parameters"
  else lit "Performs a specific operation or task".

(** The part of [generateComponentDescription] after the search for a
    comment: the description derived from the code itself. *)
Definition heuristicDescription (componentCode type : str) : outcome str :=
  let found :=
    if str_eqb type (lit "class") then
      match smatch componentCode
              (re0 (Cat [Lit "class"; Plus space; Group 1 (Plus word)])) with
      | Some m => grp m 1
      | None => JStr []
      end
    else
      match smatch componentCode
              (re0 (Alt (Cat [Lit "function"; Plus space; Group 1 (Plus word)])
                        (Cat [Lit "def"; Plus space; Group 2 (Plus word)]))) with
      | Some m => jsor (grp m 1) (grp m 2)
      | None => JStr []
      end in
  componentName <-
    (if truthy found then s <- humanize (toStr found) ;; Ret (JStr s)
     else Ret found) ;;
  let matchCounts := countMatches componentCode descriptionPatterns in
  let primaryPurpose := nth_error (sortedCategories matchCounts) 0 in
  if str_eqb type (lit "class") then
    Ret (namePrefix componentName ++ classSentence primaryPurpose componentCode)
  else
    let hasParameters :=
      test (re0 (Cat [Lit "("; Plus (noneOf ")"); Lit ")"])) componentCode in
    let hasReturn := test (re0 (Lit "return")) componentCode in
    Ret (namePrefix componentName
         ++ functionSentence primaryPurpose hasParameters hasReturn).

(** The comment a pattern finds, cleaned; [None] when there is none or
    nothing is left of it. *)
Definition commentOf (componentCode : str) (commentRegex : RegExp)
    : outcome (option str) :=
  match smatch componentCode commentRegex with
  | Some commentMatch =>
      match grp commentMatch 1 with
      | JStr raw =>
          comment <- cleanComment raw ;;
          Ret (if Nat.ltb 0 (length comment) then Some comment else None)
      | _ => Throw (lit "TypeError: Cannot read properties of undefined (reading 'replace')")
      end
  | None => Ret None
  end.

Definition generateComponentDescription (componentCode type : str)
    : outcome str :=
  if includes componentCode tripleDQuote || includes componentCode tripleQuote then
    c <- commentOf componentCode docstringRegex ;;
    match c with
    | Some comment => Ret comment
    | None => heuristicDescription componentCode type
    end
  else if includes componentCode (lit "/**") then
    c <- commentOf componentCode jsdocRegex ;;
    match c with
    | Some comment => Ret comment
    | None => heuristicDescription componentCode type
    end
  else if includes componentCode (lit "//") then
    let commentLines := commentRun (split_on 10%N componentCode) [] false in
    if Nat.ltb 0 (length commentLines) then Ret (join (lit " ") commentLines)
    else heuristicDescription componentCode type
  else heuristicDescription componentCode type.

(** ** Components and the report *)

Record Component : Type := mkComponent {
  name : jsval;
  description : str
}.

(** Body shared by the three loops of [extractComponents]. *)
Definition componentOfMatch (code type : str) (m : MatchResult)
    : outcome Component :=
  let componentCode := extractBlock code (Z.of_nat (index m)) in
  description <- generateComponentDescription componentCode type ;;
  Ret (mkComponent (grp m 1) description).

Definition simpleClassRegex : RegExp :=
  reG (Cat [Lit "class"; Plus space; Group 1 (Plus word)]).

Definition simpleFunctionRegex : RegExp :=
  reG (Cat [Lit "function"; Plus space; Group 1 (Plus word)]).

(** The pattern for arrow functions bound by [const]: the name, [=], a
    parenthesised parameter list or a run without [=], then [=>]. *)
Definition arrowFunctionRegex : RegExp :=
  reG (Cat [Lit "const"; Plus space; Group 1 (Plus word); Star true space;
            Lit "="; Star true space;
            Group 2 (Alt (Cat [Lit "("; Star true (noneOf ")"); Lit ")"])
                         (Star true (noneOf "=")));
            Star true space; Lit "=>"]).

Definition extractComponents (code programming_language : str)
    : outcome (list Component * list Component) :=
  classMatches <- execAll simpleClassRegex code ;;
  mainClasses <- mapM (componentOfMatch code (lit "class")) classMatches ;;
  functionMatches <- execAll simpleFunctionRegex code ;;
  named <- mapM (componentOfMatch code (lit "function")) functionMatches ;;
  arrowMatches <- execAll arrowFunctionRegex code ;;
  arrows <- mapM (componentOfMatch code (lit "function")) arrowMatches ;;
  Ret (mainClasses, named ++ arrows).

(** [cs.map(c => `- ${c.name}: ${c.description}`).join('\n')] *)
Definition bullets (cs : list Component) : str :=
  join nl (map (fun c => lit "- " ++ toStr (name c) ++ lit ": " ++ description c) cs).

Definition BACKTICK : char := 96%N.
Definition fence : str := [BACKTICK; BACKTICK; BACKTICK].

(** The template of the report; every line of it starts with two spaces. *)
Definition report (programming_language architectureDiagram coreFunctionality : str)
    (mainClasses mainFunctions : list Component) : str :=
  nl ++ lit "  # Code Analysis for " ++ programming_language ++ lit " Code" ++ nl
  ++ lit "  " ++ nl
  ++ lit "  ## Architecture Diagram" ++ nl
  ++ lit "  " ++ fence ++ nl
  ++ lit "  " ++ architectureDiagram ++ nl
  ++ lit "  " ++ fence ++ nl
  ++ lit "  " ++ nl
  ++ lit "  ## Core Functionality" ++ nl
  ++ lit "  " ++ coreFunctionality ++ nl
  ++ lit "  " ++ nl
  ++ lit "  ## Main Classes:" ++ nl
  ++ lit "  " ++ bullets mainClasses ++ nl
  ++ lit "  " ++ nl
  ++ lit "  ## Main Functions:" ++ nl
  ++ lit "  " ++ bullets mainFunctions ++ nl
  ++ lit "  " ++ nl
  ++ lit "  Would you like me to explain all the functions and classes in detail? Or are you more interested in a specific part?" ++ nl
  ++ lit "  ".

Definition explainCode (code programming_language : str) : outcome str :=
  architectureDiagram <- generateArchitectureDiagram code programming_language ;;
  let coreFunctionality := extractCoreFunctionality code programming_language in
  components <- extractComponents code programming_language ;;
  Ret (report programming_language architectureDiagram coreFunctionality
         (fst components) (snd components)).

(** ** Block extraction as the specification words it

    The block starts at the first opening brace at or after the offset;
    nothing is returned without one.  The depth of a stretch of text is
    the number of its opening braces minus the number of its closing
    ones; the block ends at the first position after the opening brace
    where the depth counted from that brace is back to zero, or at the
    end of the text. *)

(** Least [j] in [from, from + n) with [p j]. *)
Fixpoint least (p : nat -> bool) (from n : nat) : option nat :=
  match n with
  | 0 => None
  | S n' => if p from then Some from else least p (S from) n'
  end.

Definition isBraceAt (text : str) (i : nat) : bool :=
  match nth_error text i with
  | Some c => N.eqb c LBRACE
  | None => false
  end.

Definition firstBrace (text : str) (startOffset : Z) : option nat :=
  let st := clamp (length text) startOffset in
  least (isBraceAt text) st (length text - st).

Definition depth (l : str) : Z :=
  (Z.of_nat (count_occ N.eq_dec l LBRACE)
   - Z.of_nat (count_occ N.eq_dec l RBRACE))%Z.

(** Depth after the characters at positions [o .. j]. *)
Definition depthAt (text : str) (o j : nat) : Z := depth (slice text o (S j)).

Definition closingBrace (text : str) (o : nat) : option nat :=
  least (fun j => (depthAt text o j =? 0)%Z) (S o) (length text - S o).

Definition blockSpec (text : str) (startOffset : Z) : str :=
  match firstBrace text startOffset with
  | None => []
  | Some o =>
      match closingBrace text o with
      | Some j => substring text startOffset (Z.of_nat (S j))
      | None => substring text startOffset (Z.of_nat (length text))
      end
  end.

(** ** What the matcher and its matches are known to satisfy *)

(** A matcher that calls its continuation only further on in the text. *)
Definition forward (s : str) (r : regex)
    (once : nat -> captures -> cont -> option mstate) : Prop :=
  forall i caps k res,
    once i caps k = Some res ->
    exists j caps', k j caps' = Some res /\ reaches s r i caps j caps'.

(** A matcher whose matches are among the texts of the pattern. *)
Definition sound (ic : bool) (s : str) (r : regex)
    (once : nat -> captures -> cont -> option mstate) : Prop :=
  forall i caps k res,
    once i caps k = Some res ->
    exists j caps', k j caps' = Some res /\ denotes ic s r i j.

(** A matcher that consults its continuation only at positions of the
    text from its own position on. *)
Definition local (s : str)
    (once : nat -> captures -> cont -> option mstate) : Prop :=
  forall i caps (k1 k2 : cont),
    i <= length s ->
    (forall j caps', i <= j <= length s -> k1 j caps' = k2 j caps') ->
    once i caps k1 = once i caps k2.

Definition startOf (re : RegExp) : nat :=
  if global re then lastIndex re else 0.

(** The match lies in the text, is one of the texts the pattern denotes,
    is not empty when the pattern consumes, and has every group the
    pattern always sets. *)
Record wellMatched (ic : bool) (r : regex) (s : str) (m : MatchResult)
    : Prop := mkWell {
  well_input : input m = s;
  well_denotes : denotes ic s r (index m) (matchEnd m);
  well_span : index m <= matchEnd m <= length s;
  well_progress : consumes r = true -> index m < matchEnd m;
  well_groups : forall n, binds n r = true -> exists x, grp m n = JStr x
}.

(** The four pattern sets: every loop pattern has the [g] flag and cannot
    match the empty string, and the class pattern always sets group 1. *)
Record loopPatterns (ps : PatternSet) : Prop := mkLoop {
  loop_class_g : global (classRegex ps) = true;
  loop_class_c : consumes (source (classRegex ps)) = true;
  loop_class_1 : binds 1 (source (classRegex ps)) = true;
  loop_function_g : global (functionRegex ps) = true;
  loop_function_c : consumes (source (functionRegex ps)) = true;
  loop_import_g : global (importRegex ps) = true;
  loop_import_c : consumes (source (importRegex ps)) = true
}.

(** A class whose name is a string. *)
Definition named (c : ClassInfo) : Prop := exists x, cname c = JStr x.

(** [h] occurs in [s]. *)
Definition occurs (h s : str) : Prop := exists pre post, s = pre ++ h ++ post.

(** ** Shapes of the text at a match *)

(** The word [w] stands in [s] at position [i]. *)
Definition wordAt (s : str) (i : nat) (w : str) : Prop :=
  forall n c, nth_error w n = Some c -> nth_error s (i + n) = Some c.

(** Every position of [s] in [i, j) holds a character with [p]. *)
Definition allIn (s : str) (p : char -> bool) (i j : nat) : Prop :=
  forall n, i <= n < j -> exists d, nth_error s n = Some d /\ p d = true.

(** What stands at a match of a class pattern: the keyword, white space,
    the first character of a name. *)
Definition classShape (s : str) (i : nat) : Prop :=
  wordAt s i (lit "class")
  /\ exists k, 1 <= k
       /\ allIn s isSpace (i + 5) (i + 5 + k)
       /\ allIn s isWord (i + 5 + k) (i + 5 + k + 1).

(** What stands at a match of a call signature: a name, white space, an
    opening parenthesis. *)
Definition callShape (s : str) (i : nat) : Prop :=
  exists n m, 1 <= n
    /\ allIn s isWord i (i + n)
    /\ allIn s isSpace (i + n) (i + n + m)
    /\ nth_error s (i + n + m) = Some 40%N.

(** ** The interval of a class block, closed or open on the left *)

Definition blockEnd (code : str) (cls : ClassInfo) : nat :=
  cindex cls + length (extractBlock code (Z.of_nat (cindex cls))).

(** The interval as the specification writes it. *)
Definition inHalfOpenBlock (code : str) (cls : ClassInfo) (offset : nat) : Prop :=
  cindex cls <= offset < blockEnd code cls.

(** The interval the loop tests. *)
Definition strictlyInsideBlock (code : str) (cls : ClassInfo) (offset : nat)
    : Prop :=
  cindex cls < offset < blockEnd code cls.

(** ** Ranking, standalone classes, consecutive calls *)

(** The keys of the purpose table. *)
Definition purposeNames : list string :=
  ["network"; "ui"; "dataProcessing"; "authentication"; "database"; "testing";
   "algorithm"; "fileSystem"]%string.


(** [e] leads [l]: no entry of [l] has a larger score, and the entries
    before [e] have a smaller one; [rest] is [l] without [e]. *)
Definition leads (e : string * nat) (l rest : list (string * nat)) : Prop :=
  exists pre post,
    l = pre ++ e :: post /\ rest = pre ++ post
    /\ (forall x, In x pre -> snd x < snd e)
    /\ (forall x, In x post -> snd x <= snd e).

(** The category ranked second, by score and then by the order of the
    table: it leads the table once the leading category is taken out, and
    its score is not 0. *)
Definition secondRanked (matchCounts : list (string * nat)) (s : string)
    (n : nat) : Prop :=
  exists first rest others,
    leads first matchCounts rest /\ leads (s, n) rest others /\ 0 < n.

(** A class without a parent that no class names as its parent. *)
Definition standalone (classes : list ClassInfo) (c : ClassInfo) : Prop :=
  In c classes
  /\ truthy (parent c) = false
  /\ forall other, In other classes -> strict_eq (parent other) (cname c) = false.

(** ** Sample inputs *)

Definition sumComment : str := lit "/** Computes the sum */".

(** A documented function: the comment stands right before it. *)
Definition documentedAdd : str :=
  sumComment ++ nl ++ lit "function add(a, b) { return a + b; }".

(** The same function with the comment inside its block. *)
Definition innerDocumentedAdd : str :=
  lit "function add(a, b) { " ++ sumComment ++ lit " return a + b; }".

Definition pythonDef : str :=
  lit "def area(r):" ++ nl ++ lit "    return 3 * r * r".

Definition emptyClass : str := lit "class A {}".

Definition soloClass : str := lit "class Solo {}".

(** The box of [Solo] as both passes draw it. *)
Definition soloBox : str :=
  lit "    +------------------+" ++ nl
  ++ lit "    |  Solo            |" ++ nl
  ++ lit "    +------------------+" ++ nl.

Definition inheritanceSample : str :=
  lit "class Base {} class Child extends Base {}".

Definition callSample : str := lit "function a(){ b(); } function b(){}".

Definition networkSample : str := lit "fetch(url); // http endpoint".

(** A text with [ui] ranked first and [network] second. *)
Definition uiNetworkSample : str := lit "render component view fetch(url)".

(** A text with [ui] ranked first and [network] second with one probe. *)
Definition uiFetchSample : str := lit "render component fetch()".

(** A class with a function in its block, and a function after it. *)
Definition methodSample : str :=
  lit "class A { function f() {} } function g() {}".

Definition methodSampleClasses : list ClassInfo :=
  [mkClass (JStr (lit "A")) Null 0].

Definition methodSampleMatches : list MatchResult :=
  [mkMatch methodSample 10 20 [(1, (19, 20))];
   mkMatch methodSample 28 38 [(1, (37, 38))]].

(** ** Captured spans *)

(** Patterns in which every group [n] wraps a pattern that consumes. *)
Fixpoint fills (n : nat) (r : regex) : bool :=
  match r with
  | Group m r1 => (if Nat.eqb m n then consumes r1 else true) && fills n r1
  | Seq r1 r2 | Alt r1 r2 => fills n r1 && fills n r2
  | Star _ r1 | Opt r1 => fills n r1
  | _ => true
  end.

(** Patterns every match of which sets one of the groups [ns]. *)
Fixpoint bindsSome (ns : list nat) (r : regex) : bool :=
  match r with
  | Seq r1 r2 => bindsSome ns r1 || bindsSome ns r2
  | Alt r1 r2 => bindsSome ns r1 && bindsSome ns r2
  | Group m r1 => existsb (Nat.eqb m) ns || bindsSome ns r1
  | _ => false
  end.

(** The span of group [n], when set, is a non-empty stretch of [s]. *)
Definition okSpan (s : str) (caps : captures) (n : nat) : Prop :=
  forall a b, cap_lookup caps n = Some (a, b) -> a < b /\ b <= length s.

(** What the continuation of a match from [i] with [caps] receives. *)
Record delivers (s : str) (r : regex) (i : nat) (caps : captures)
    (j : nat) (caps' : captures) : Prop := mkDelivers {
  del_le : i <= j <= length s;
  del_lt : consumes r = true -> i < j;
  del_ext : extends caps caps';
  del_span : forall n, fills n r = true -> okSpan s caps n -> okSpan s caps' n;
  del_some : forall ns, bindsSome ns r = true ->
             exists n, In n ns /\ cap_lookup caps' n <> None
}.

Definition delivering (s : str) (r : regex)
    (once : nat -> captures -> cont -> option mstate) : Prop :=
  forall i caps k res,
    i <= length s ->
    once i caps k = Some res ->
    exists j caps', k j caps' = Some res /\ delivers s r i caps j caps'.

(** The patterns of the loops fill and set the groups the names are
    read from. *)
Record namingPatterns (ps : PatternSet) : Prop := mkNaming {
  naming_class_fill : fills 1 (source (classRegex ps)) = true;
  naming_class_set : bindsSome [1] (source (classRegex ps)) = true;
  naming_function_fill :
    forall n, In n [1; 2; 3] -> fills n (source (functionRegex ps)) = true;
  naming_function_set : bindsSome [1; 2; 3] (source (functionRegex ps)) = true
}.

(** ** More sample inputs *)

(** A Python class with a method: text without a brace. *)
Definition pythonClass : str :=
  lit "class A:" ++ nl ++ lit "    def m(self):" ++ nl ++ lit "        pass".

(** A class whose parent is not in the text. *)
Definition orphanChild : list ClassInfo :=
  [mkClass (JStr (lit "Child")) (JStr (lit "Base")) 0].

(** [name] between brackets, as the Functions section shows it. *)
Definition bracketed (v : jsval) : str := lit "[" ++ toStr v ++ lit "]".

(** A Python class with a docstring and a method. *)
Definition pythonDocClass : str :=
  lit "class Adder:" ++ nl
  ++ lit "    " ++ tripleDQuote ++ lit "Adds numbers." ++ tripleDQuote ++ nl
  ++ lit "    def add(self, a, b):" ++ nl
  ++ lit "        return a + b".

(** A block whose only comment line is bare. *)
Definition bareCommentBlock : str :=
  lit "{" ++ nl ++ lit "//" ++ nl ++ lit "}".

(** The three conditions under which the lines of the component are
    searched for a run of line comments. *)
Definition lineCommentPath (componentCode : str) : Prop :=
  includes componentCode tripleDQuote || includes componentCode tripleQuote = false
  /\ includes componentCode (lit "/**") = false
  /\ includes componentCode (lit "//") = true.

(** ** The handler of the worker *)

Definition TAB : char := 9%N.
Definition BACKSLASH : char := 92%N.

Record Env : Type := mkEnv { SHARED_SECRET : str }.

(** The body of a request as the handler declares it, an object with a
    string [method] and an array of strings [params].  A body of another
    shape is outside this model. *)
Record Body : Type := mkBody {
  bodyMethod : str;
  params : list str
}.

(** What [await request.json()] gives: the parsed body, or an error that
    is thrown and of which the handler reads [message]. *)
Inductive Parsed : Type :=
| Json (parsed : Body)
| Rejected (message : jsval).

(** A request: its method, [headers.get('Authorization')], with [None]
    for [null], and the result of reading its body as JSON. *)
Record Request : Type := mkRequest {
  method : str;
  authorization : option str;
  json : Parsed
}.

(** A response: the body, the status, which is 200 when the handler
    passes none, and the headers the handler passes. *)
Record Response : Type := mkResponse {
  body : str;
  status : nat;
  headers : list (str * str)
}.

(** The page for requests that are not POST requests: the template
    literal of the handler, with its tabs. *)
Definition usagePage : str :=
  nl
  ++ [TAB; TAB] ++ lit "<!DOCTYPE html>" ++ nl
  ++ [TAB; TAB] ++ lit "<html>" ++ nl
  ++ [TAB; TAB] ++ lit "  <head>" ++ nl
  ++ [TAB; TAB; TAB] ++ lit "<title>Code Explainer MCP</title>" ++ nl
  ++ [TAB; TAB; TAB] ++ lit "<style>" ++ nl
  ++ [TAB; TAB; TAB] ++ lit "  body { font-family: Arial, sans-serif; max-width: 800px; margin: 0 auto; padding: 20px; }" ++ nl
  ++ [TAB; TAB; TAB] ++ lit "  h1 { color: #333; }" ++ nl
  ++ [TAB; TAB; TAB] ++ lit "  pre { background: #f5f5f5; padding: 10px; border-radius: 5px; }" ++ nl
  ++ [TAB; TAB; TAB] ++ lit "</style>" ++ nl
  ++ [TAB; TAB] ++ lit "  </head>" ++ nl
  ++ [TAB; TAB] ++ lit "  <body>" ++ nl
  ++ [TAB; TAB; TAB] ++ lit "<h1>Code Explainer MCP</h1>" ++ nl
  ++ [TAB; TAB; TAB] ++ lit "<p>This is a Cloudflare Worker that analyzes and explains code.</p>" ++ nl
  ++ [TAB; TAB; TAB] ++ lit "<p>To use it, send a POST request with the following JSON body:</p>" ++ nl
  ++ [TAB; TAB; TAB] ++ lit "<pre>" ++ nl
  ++ lit "  {" ++ nl
  ++ [TAB] ++ [DQUOTE] ++ lit "method" ++ [DQUOTE] ++ lit ": " ++ [DQUOTE] ++ lit "explainCode" ++ [DQUOTE] ++ lit "," ++ nl
  ++ [TAB] ++ [DQUOTE] ++ lit "params" ++ [DQUOTE] ++ lit ": [" ++ [DQUOTE] ++ lit "your code here" ++ [DQUOTE] ++ lit ", " ++ [DQUOTE] ++ lit "programming language" ++ [DQUOTE] ++ lit "]" ++ nl
  ++ lit "  }" ++ nl
  ++ [TAB; TAB; TAB] ++ lit "</pre>" ++ nl
  ++ [TAB; TAB; TAB] ++ lit "<p>Make sure to include the Authorization header with your shared secret.</p>" ++ nl
  ++ [TAB; TAB] ++ lit "  </body>" ++ nl
  ++ [TAB; TAB] ++ lit "</html>" ++ nl
  ++ [TAB] ++ lit "  ".

(** [JSON.stringify] of a string: the escapes of JSON, with lone
    surrogates written as escapes. *)
Definition hexDigit (n : N) : char :=
  if N.ltb n 10 then (48 + n)%N else (87 + n)%N.

Definition unicodeEscape (c : char) : str :=
  [BACKSLASH; 117%N]
  ++ map hexDigit [((c / 4096) mod 16)%N; ((c / 256) mod 16)%N;
                   ((c / 16) mod 16)%N; (c mod 16)%N].

Definition isLeadSurrogate (c : char) : bool :=
  N.leb 55296 c && N.leb c 56319.

Definition isTrailSurrogate (c : char) : bool :=
  N.leb 56320 c && N.leb c 57343.

Definition escapeUnit (c : char) : str :=
  if N.eqb c 8 then [BACKSLASH; 98%N]
  else if N.eqb c 9 then [BACKSLASH; 116%N]
  else if N.eqb c 10 then [BACKSLASH; 110%N]
  else if N.eqb c 12 then [BACKSLASH; 102%N]
  else if N.eqb c 13 then [BACKSLASH; 114%N]
  else if N.eqb c DQUOTE then [BACKSLASH; DQUOTE]
  else if N.eqb c BACKSLASH then [BACKSLASH; BACKSLASH]
  else if N.ltb c 32 then unicodeEscape c
  else [c].

Fixpoint quoteUnits (s : str) : str :=
  match s with
  | [] => []
  | c :: rest =>
      if isLeadSurrogate c then
        match rest with
        | d :: rest' =>
            if isTrailSurrogate d then c :: d :: quoteUnits rest'
            else unicodeEscape c ++ quoteUnits rest
        | [] => unicodeEscape c
        end
      else if isTrailSurrogate c then unicodeEscape c ++ quoteUnits rest
      else escapeUnit c ++ quoteUnits rest
  end.

(** [JSON.stringify({ result })] *)
Definition stringifyResult (result : str) : str :=
  lit "{" ++ [DQUOTE] ++ lit "result" ++ [DQUOTE] ++ lit ":"
  ++ [DQUOTE] ++ quoteUnits result ++ [DQUOTE] ++ lit "}".

Definition expectedAuth (env : Env) : str := lit "Bearer " ++ SHARED_SECRET env.

(** [!authHeader || authHeader !== expectedAuth] *)
Definition refused (authHeader : option str) (expected : str) : bool :=
  match authHeader with
  | None => true
  | Some h => Nat.eqb (length h) 0 || negb (str_eqb h expected)
  end.

Definition unauthorized : Response := mkResponse (lit "Unauthorized") 401 [].

Definition invalidCall : Response :=
  mkResponse (lit "Invalid method or parameters") 400 [].

(** The [catch] clause; [message] is [error?.message]. *)
Definition errorResponse (message : jsval) : Response :=
  mkResponse
    (lit "Error processing request: "
     ++ toStr (jsor message (JStr (lit "Unknown error"))))
    500 [].

Definition resultResponse (result : str) : Response :=
  mkResponse (stringifyResult result) 200
    [(lit "Content-Type", lit "application/json")].

Definition usageResponse : Response :=
  mkResponse usagePage 200 [(lit "Content-Type", lit "text/html")].

(** The handler.  An error thrown inside [try] is caught; the payload
    of [Throw] is read as its message.  [Array.isArray(body.params)]
    holds of every body of the declared type. *)
Definition fetch (request : Request) (env : Env) : outcome Response :=
  if str_eqb (method request) (lit "POST") then
    let authHeader := authorization request in
    let expected := expectedAuth env in
    if refused authHeader expected then Ret unauthorized
    else
      match json request with
      | Json parsed =>
          if str_eqb (bodyMethod parsed) (lit "explainCode")
             && Nat.leb 2 (length (params parsed))
          then
            let code := nth 0 (params parsed) [] in
            let language := nth 1 (params parsed) [] in
            match explainCode code language with
            | Ret result => Ret (resultResponse result)
            | Throw msg => Ret (errorResponse (JStr msg))
            | Diverge => Diverge
            end
          else Ret invalidCall
      | Rejected message => Ret (errorResponse message)
      end
  else Ret usageResponse.

(** A proper call and a call whose body cannot be read. *)
Definition properCall : Request :=
  mkRequest (lit "POST") (Some (lit "Bearer s3cret"))
    (Json (mkBody (lit "explainCode") [lit "class A {}"; lit "js"])).

Definition unreadableCall : Request :=
  mkRequest (lit "POST") (Some (lit "Bearer s3cret"))
    (Rejected (JStr (lit "Unexpected end of JSON input"))).

Definition sampleEnv : Env := mkEnv (lit "s3cret").

(** * The analyser on an engine with a bounded backtrack stack

    The definitions above follow the ECMAScript semantics, where a match
    is found or not found.  An engine keeps the alternatives it may still
    have to try on a backtrack stack of limited size, and the call that
    fills it throws a [RangeError].  The module [Runtime] is the analyser
    once more, as it runs on such an engine and on a store of [RegExp]
    objects:

    - [capacity] is the number of alternatives the stack can hold; its
      value belongs to the engine;
    - a pattern literal with the [g] flag is an object of the store,
      created when the literal is evaluated; [exec] reads and writes its
      [lastIndex].  An object without the [g] flag has no state that
      [exec], [test], [match] or [replace] read or write, and stays a
      value;
    - a computation takes the store and returns it with its outcome. *)

Module Runtime.

(** [error.message] of the [RangeError]. *)
Definition rangeError : str := lit "Maximum call stack size exceeded".

(** ** The matcher *)

Inductive verdict : Type :=
| Found (st : mstate)
| NoMatch
| Exhausted.

(** A continuation also receives the number of pending alternatives. *)
Definition bcont := nat -> captures -> nat -> verdict.

(** A choice: the second alternative is put on the stack, which holds
    [pending] alternatives already, and the first one is tried; the second
    one is taken off and tried when the first one fails. *)
Definition choose (capacity pending : nat) (first : nat -> verdict)
    (second : verdict) : verdict :=
  if Nat.ltb pending capacity then
    match first (S pending) with
    | Found st => Found st
    | NoMatch => second
    | Exhausted => Exhausted
    end
  else Exhausted.

Definition step (s : str) (p : char -> bool) (i : nat) (caps : captures)
    (pending : nat) (k : bcont) : verdict :=
  match nth_error s i with
  | Some d => if p d then k (S i) caps pending else NoMatch
  | None => NoMatch
  end.

Fixpoint rounds (capacity : nat)
    (once : nat -> captures -> nat -> bcont -> verdict)
    (greedy : bool) (k : bcont) (fuel : nat) (i : nat) (caps : captures)
    (pending : nat) {struct fuel} : verdict :=
  match fuel with
  | 0 => k i caps pending
  | S fuel' =>
      let more := fun d =>
        once i caps d
          (fun j caps' d' =>
             if Nat.ltb i j
             then rounds capacity once greedy k fuel' j caps' d'
             else NoMatch) in
      if greedy then choose capacity pending more (k i caps pending)
      else choose capacity pending (k i caps) (more pending)
  end.

Fixpoint rmatch (capacity : nat) (ic : bool) (s : str) (r : regex) (i : nat)
    (caps : captures) (pending : nat) (k : bcont) {struct r} : verdict :=
  match r with
  | Eps => k i caps pending
  | Chr c => step s (char_eq ic c) i caps pending k
  | Cls neg items =>
      step s (fun d => xorb neg (in_class ic items d)) i caps pending k
  | Dot => step s (fun d => negb (isLineTerminator d)) i caps pending k
  | Bol => if Nat.eqb i 0 then k i caps pending else NoMatch
  | Seq r1 r2 =>
      rmatch capacity ic s r1 i caps pending
        (fun j caps' d => rmatch capacity ic s r2 j caps' d k)
  | Alt r1 r2 =>
      choose capacity pending
        (fun d => rmatch capacity ic s r1 i caps d k)
        (rmatch capacity ic s r2 i caps pending k)
  | Star greedy r1 =>
      rounds capacity
        (fun i' caps' d k' => rmatch capacity ic s r1 i' caps' d k')
        greedy k (S (length s - i)) i caps pending
  | Opt r1 =>
      choose capacity pending
        (fun d =>
           rmatch capacity ic s r1 i caps d
             (fun j caps' d' => if Nat.ltb i j then k j caps' d' else NoMatch))
        (k i caps pending)
  | Group n r1 =>
      rmatch capacity ic s r1 i caps pending
        (fun j caps' d => k j ((n, (i, j)) :: caps') d)
  end.

Definition accept : bcont := fun j caps _ => Found (j, caps).

(** Every attempt at a new position starts with an empty stack. *)
Fixpoint search (capacity : nat) (ic : bool) (s : str) (r : regex)
    (fuel i : nat) : outcome (option (nat * mstate)) :=
  match rmatch capacity ic s r i [] 0 accept with
  | Found st => Ret (Some (i, st))
  | Exhausted => Throw rangeError
  | NoMatch =>
      match fuel with
      | 0 => Ret None
      | S fuel' => search capacity ic s r fuel' (S i)
      end
  end.

(** [re.exec(s)] *)
Definition exec (capacity : nat) (re : RegExp) (s : str)
    : outcome (option MatchResult * RegExp) :=
  let li := if global re then lastIndex re else 0 in
  let fail := if global re then setLastIndex re 0 else re in
  if Nat.ltb (length s) li then Ret (None, fail)
  else
    found <- search capacity (ignoreCase re) s (source re) (length s - li) li ;;
    match found with
    | None => Ret (None, fail)
    | Some (i, (e, cs)) =>
        Ret (Some (mkMatch s i e cs),
             if global re then setLastIndex re e else re)
    end.

(** [re.test(s)] and [s.match(re)] for a pattern without the [g] flag. *)
Definition test (capacity : nat) (re : RegExp) (s : str) : outcome bool :=
  r <- exec capacity re s ;;
  Ret (match fst r with Some _ => true | None => false end).

Definition smatch (capacity : nat) (s : str) (re : RegExp)
    : outcome (option MatchResult) :=
  r <- exec capacity re s ;; Ret (fst r).

Fixpoint replaceLoop (capacity : nat) (fuel : nat) (re : RegExp) (s : str)
    : outcome (list MatchResult) :=
  match fuel with
  | 0 => Diverge
  | S fuel' =>
      r <- exec capacity re s ;;
      match r with
      | (None, _) => Ret []
      | (Some m, re') =>
          let re'' :=
            if Nat.eqb (matchEnd m) (index m)
            then setLastIndex re' (S (lastIndex re')) else re' in
          ms <- replaceLoop capacity fuel' re'' s ;;
          Ret (m :: ms)
      end
  end.

(** [s.replace(re, f)]; it leaves [lastIndex] at 0. *)
Definition replace (capacity : nat) (s : str) (re : RegExp)
    (f : MatchResult -> str) : outcome str :=
  if global re then
    ms <- replaceLoop capacity (length s + 2) (setLastIndex re 0) s ;;
    Ret (assemble s 0 ms f)
  else
    r <- exec capacity re s ;;
    match fst r with
    | None => Ret s
    | Some m => Ret (assemble s 0 [m] f)
    end.

(** ** The store *)

Definition store := list RegExp.

Definition run (A : Type) : Type := store -> outcome A * store.

Definition ret {A : Type} (a : A) : run A := fun h => (Ret a, h).

Definition rbind {A B : Type} (m : run A) (k : A -> run B) : run B :=
  fun h =>
    match m h with
    | (Ret a, h') => k a h'
    | (Throw e, h') => (Throw e, h')
    | (Diverge, h') => (Diverge, h')
    end.

Notation "x <~ c ;; k" := (rbind c (fun x => k))
  (at level 61, c at next level, right associativity).

(** A computation that does not touch the store. *)
Definition eval {A : Type} (o : outcome A) : run A := fun h => (o, h).

(** [try { m } catch (error) { handler(error.message) }] *)
Definition catch {A : Type} (m : run A) (handler : str -> run A) : run A :=
  fun h =>
    match m h with
    | (Throw e, h') => handler e h'
    | r => r
    end.

(** The evaluation of a pattern literal with the [g] flag: a new object,
    known by its place in the store. *)
Definition new (re : RegExp) : run nat :=
  fun h => (Ret (length h), h ++ [re]).

Fixpoint update (a : nat) (re : RegExp) (h : store) : store :=
  match h with
  | [] => []
  | x :: h' =>
      match a with
      | 0 => re :: h'
      | S a' => x :: update a' re h'
      end
  end.

(** What a name that holds no object gives when it is used. *)
Definition noObject : str :=
  lit "Cannot read properties of undefined (reading 'exec')".

(** [obj.lastIndex = n] *)
Definition setLastIndexAt (a n : nat) : run unit :=
  fun h =>
    match nth_error h a with
    | Some re => (Ret tt, update a (setLastIndex re n) h)
    | None => (Throw noObject, h)
    end.

(** [obj.exec(s)] *)
Definition execAt (capacity : nat) (a : nat) (s : str)
    : run (option MatchResult) :=
  fun h =>
    match nth_error h a with
    | Some re =>
        match exec capacity re s with
        | Ret (m, re') => (Ret m, update a re' h)
        | Throw e => (Throw e, h)
        | Diverge => (Diverge, h)
        end
    | None => (Throw noObject, h)
    end.

(** [while ((m = obj.exec(s)) !== null) { body }], with what the body
    gives for each match. *)
Fixpoint whileExec {B : Type} (capacity : nat) (fuel : nat) (a : nat)
    (s : str) (body : MatchResult -> run B) : run (list B) :=
  match fuel with
  | 0 => eval Diverge
  | S fuel' =>
      found <~ execAt capacity a s ;;
      match found with
      | None => ret []
      | Some m =>
          b <~ body m ;;
          bs <~ whileExec capacity fuel' a s body ;;
          ret (b :: bs)
      end
  end.

(** A loop whose body keeps the match. *)
Definition matchesAt (capacity : nat) (a : nat) (s : str)
    : run (list MatchResult) :=
  whileExec capacity (length s + 2) a s (fun m => ret m).

(** [s.replace(re, f)] with a literal that has the [g] flag. *)
Definition replaceNew (capacity : nat) (s : str) (re : RegExp)
    (f : MatchResult -> str) : run str :=
  obj <~ new re ;; eval (replace capacity s re f).

(** ** The architecture diagram *)

Definition generateArchitectureDiagram (capacity : nat)
    (code programming_language : str) : run str :=
  let ps := selectPatterns programming_language in
  classRegex <~ new (classRegex ps) ;;
  functionRegex <~ new (functionRegex ps) ;;
  methodRegex <~ new (methodRegex ps) ;;
  importRegex <~ new (importRegex ps) ;;
  reset1 <~ setLastIndexAt classRegex 0 ;;
  reset2 <~ setLastIndexAt functionRegex 0 ;;
  reset3 <~ setLastIndexAt importRegex 0 ;;
  classMatches <~ matchesAt capacity classRegex code ;;
  let classes := map classOfMatch classMatches in
  functionMatches <~ matchesAt capacity functionRegex code ;;
  let functions := topLevelFunctions code classes functionMatches in
  importMatches <~ matchesAt capacity importRegex code ;;
  eval (renderDiagram code classes functions (map importOfMatch importMatches)).

(** ** The functionality summary *)

Definition probeCount (capacity : nat) (code : str) (probes : list RegExp)
    : outcome nat :=
  hits <- mapM (fun p => test capacity p code) probes ;;
  Ret (length (filter (fun hit : bool => hit) hits)).

Definition countMatches (capacity : nat) (code : str)
    (table : list (string * list RegExp)) : outcome (list (string * nat)) :=
  mapM (fun e => n <- probeCount capacity code (snd e) ;; Ret (fst e, n)) table.

(** [matches]: the flag of a category is set with the first increment of
    its count. *)
Definition flagsOf (matchCounts : list (string * nat)) : list (string * bool) :=
  map (fun e => (fst e, Nat.ltb 0 (snd e))) matchCounts.

Definition extractCoreFunctionality (capacity : nat)
    (code programming_language : str) : outcome str :=
  matchCounts <- countMatches capacity code (purposePatterns programming_language) ;;
  Ret (summarize matchCounts (flagsOf matchCounts)).

(** ** Component descriptions *)

Definition cleanComment (capacity : nat) (raw : str) : run str :=
  a <~ replaceNew capacity raw
         (reG (Cat [Star true space; Lit "*"; Star true space]))
         (fun _ => lit " ") ;;
  b <~ replaceNew capacity a (reG (Plus space)) (fun _ => lit " ") ;;
  c <~ replaceNew capacity b
         (reG (Cat [Lit "@"; Plus word; Plus space;
                    Plus (Cls true [CChar 10%N])]))
         (fun _ => []) ;;
  ret (trim c).

Definition humanize (capacity : nat) (componentName : str) : run str :=
  a <~ replaceNew capacity componentName
         (reG (Group 1 (Cls false [CRange 65%N 90%N])))
         (fun m => lit " " ++ capture m 1) ;;
  b <~ eval (replace capacity a (re0 (Seq Bol Dot))
               (fun m => toUpperCase (matched m))) ;;
  ret (trim b).

Definition heuristicDescription (capacity : nat) (componentCode type : str)
    : run str :=
  found <~ eval
    (if str_eqb type (lit "class") then
       m <- smatch capacity componentCode
              (re0 (Cat [Lit "class"; Plus space; Group 1 (Plus word)])) ;;
       Ret (match m with
            | Some m => grp m 1
            | None => JStr []
            end)
     else
       m <- smatch capacity componentCode
              (re0 (Alt (Cat [Lit "function"; Plus space; Group 1 (Plus word)])
                        (Cat [Lit "def"; Plus space; Group 2 (Plus word)]))) ;;
       Ret (match m with
            | Some m => jsor (grp m 1) (grp m 2)
            | None => JStr []
            end)) ;;
  componentName <~
    (if truthy found then s <~ humanize capacity (toStr found) ;; ret (JStr s)
     else ret found) ;;
  matchCounts <~ eval (countMatches capacity componentCode descriptionPatterns) ;;
  let primaryPurpose := nth_error (sortedCategories matchCounts) 0 in
  if str_eqb type (lit "class") then
    ret (namePrefix componentName ++ classSentence primaryPurpose componentCode)
  else
    hasParameters <~
      eval (test capacity (re0 (Cat [Lit "("; Plus (noneOf ")"); Lit ")"]))
              componentCode) ;;
    hasReturn <~ eval (test capacity (re0 (Lit "return")) componentCode) ;;
    ret (namePrefix componentName
         ++ functionSentence primaryPurpose hasParameters hasReturn).

Definition commentOf (capacity : nat) (componentCode : str)
    (commentRegex : RegExp) : run (option str) :=
  commentMatch <~ eval (smatch capacity componentCode commentRegex) ;;
  match commentMatch with
  | Some commentMatch =>
      match grp commentMatch 1 with
      | JStr raw =>
          comment <~ cleanComment capacity raw ;;
          ret (if Nat.ltb 0 (length comment) then Some comment else None)
      | _ => eval (Throw (lit "TypeError: Cannot read properties of undefined (reading 'replace')"))
      end
  | None => ret None
  end.

Definition generateComponentDescription (capacity : nat)
    (componentCode type : str) : run str :=
  if includes componentCode tripleDQuote || includes componentCode tripleQuote then
    c <~ commentOf capacity componentCode docstringRegex ;;
    match c with
    | Some comment => ret comment
    | None => heuristicDescription capacity componentCode type
    end
  else if includes componentCode (lit "/**") then
    c <~ commentOf capacity componentCode jsdocRegex ;;
    match c with
    | Some comment => ret comment
    | None => heuristicDescription capacity componentCode type
    end
  else if includes componentCode (lit "//") then
    let commentLines := commentRun (split_on 10%N componentCode) [] false in
    if Nat.ltb 0 (length commentLines) then ret (join (lit " ") commentLines)
    else heuristicDescription capacity componentCode type
  else heuristicDescription capacity componentCode type.

(** ** Components and the report *)

Definition componentOfMatch (capacity : nat) (code type : str)
    (m : MatchResult) : run Component :=
  let componentCode := extractBlock code (Z.of_nat (index m)) in
  description <~ generateComponentDescription capacity componentCode type ;;
  ret (mkComponent (grp m 1) description).

Definition extractComponents (capacity : nat)
    (code programming_language : str)
    : run (list Component * list Component) :=
  classRegex <~ new simpleClassRegex ;;
  mainClasses <~ whileExec capacity (length code + 2) classRegex code
                   (componentOfMatch capacity code (lit "class")) ;;
  functionRegex <~ new simpleFunctionRegex ;;
  named <~ whileExec capacity (length code + 2) functionRegex code
             (componentOfMatch capacity code (lit "function")) ;;
  arrowRegex <~ new arrowFunctionRegex ;;
  arrows <~ whileExec capacity (length code + 2) arrowRegex code
              (componentOfMatch capacity code (lit "function")) ;;
  ret (mainClasses, named ++ arrows).

Definition explainCode (capacity : nat) (code programming_language : str)
    : run str :=
  architectureDiagram <~
    generateArchitectureDiagram capacity code programming_language ;;
  coreFunctionality <~
    eval (extractCoreFunctionality capacity code programming_language) ;;
  components <~ extractComponents capacity code programming_language ;;
  ret (report programming_language architectureDiagram coreFunctionality
         (fst components) (snd components)).

(** ** The handler *)

Definition fetch (capacity : nat) (request : Request) (env : Env)
    : run Response :=
  if str_eqb (method request) (lit "POST") then
    let authHeader := authorization request in
    let expected := expectedAuth env in
    if refused authHeader expected then ret unauthorized
    else
      match json request with
      | Json parsed =>
          catch
            (if str_eqb (bodyMethod parsed) (lit "explainCode")
                && Nat.leb 2 (length (params parsed))
             then
               let code := nth 0 (params parsed) [] in
               let language := nth 1 (params parsed) [] in
               result <~ explainCode capacity code language ;;
               ret (resultResponse result)
             else ret invalidCall)
            (fun message => ret (errorResponse (JStr message)))
      | Rejected message => ret (errorResponse message)
      end
  else ret usageResponse.

End Runtime.

(** ** The two models side by side *)

(** The outcome [real] of a computation on the bounded engine against the
    outcome [ideal] of the same computation under the ECMAScript
    semantics: where [ideal] is a value, [real] is that value or the
    [RangeError]; where it is none, [real] is none either. *)
Definition agrees {A : Type} (real ideal : outcome A) : Prop :=
  match real, ideal with
  | Ret x, Ret y => x = y
  | Throw e, Ret _ => e = Runtime.rangeError
  | Diverge, Ret _ => False
  | Ret _, _ => False
  | _, _ => True
  end.

(** A verdict of the bounded matcher against the result of the matcher
    of the ECMAScript semantics: the same, unless the stack was full. *)
Definition verdictOf (o : option mstate) : Runtime.verdict :=
  match o with
  | Some st => Runtime.Found st
  | None => Runtime.NoMatch
  end.

Definition tracks (v : Runtime.verdict) (o : option mstate) : Prop :=
  v = Runtime.Exhausted \/ v = verdictOf o.

(** A computation whose outcome is the same on every store, and which
    leaves the objects of the store it started on as they were. *)
Definition closed {A : Type} (m : Runtime.run A) (ideal : outcome A) : Prop :=
  exists real,
    agrees real ideal /\ forall h, exists objs, m h = (real, h ++ objs).

(** A bound on the alternatives that are pending while [r] is matched
    in a text of [len] characters: one for a choice, and for a quantifier
    one for each round, of which there are no more than characters. *)
Fixpoint weight (len : nat) (r : regex) : nat :=
  match r with
  | Eps | Chr _ | Cls _ _ | Dot | Bol => 0
  | Seq r1 r2 => weight len r1 + weight len r2
  | Alt r1 r2 => S (weight len r1 + weight len r2)
  | Star _ r1 => S len * S (weight len r1)
  | Opt r1 => S (weight len r1)
  | Group _ r1 => weight len r1
  end.

(** A computation that returns [x] on every engine with a stack that is
    large enough. *)
Definition settles {A : Type} (m : nat -> Runtime.run A) (x : A) : Prop :=
  exists enough,
    forall capacity, enough <= capacity ->
      forall h, exists objs, m capacity h = (Ret x, h ++ objs).

Definition settlesO {A : Type} (o : nat -> outcome A) (x : A) : Prop :=
  exists enough, forall capacity, enough <= capacity -> o capacity = Ret x.

(** Where the semantics gives a value, so does every engine that is
    large enough. *)
Definition eventually {A : Type} (m : nat -> Runtime.run A)
    (ideal : outcome A) : Prop :=
  forall x, ideal = Ret x -> settles m x.

Definition eventuallyO {A : Type} (o : nat -> outcome A)
    (ideal : outcome A) : Prop :=
  forall x, ideal = Ret x -> settlesO o x.

(** [import a.a. ... a.], with [n] times [a.]. *)
Definition importLine (n : nat) : str :=
  lit "import " ++ concat (repeat (lit "a.") n).





(** Two calls of [explainCode] one after the other, with the same
    arguments: the second call starts on the store the first one left. *)
Definition explainAgain (capacity : nat) (code programming_language : str)
    (h : Runtime.store) : outcome str * outcome str :=
  let first := Runtime.explainCode capacity code programming_language h in
  let second :=
    Runtime.explainCode capacity code programming_language (snd first) in
  (fst first, fst second).

(** * Properties *)

Unset Implicit Arguments.

(** ** Strings *)

Lemma str_eqb_eq (a b : str) : str_eqb a b = true <-> a = b.
Proof.
  unfold str_eqb. destruct (list_eq_dec N.eq_dec a b); split; congruence.
Qed.

Lemma str_eqb_refl (a : str) : str_eqb a a = true.
Proof. apply str_eqb_eq. reflexivity. Qed.

(** ** Block extraction *)

Lemma skipn_cons_nth (A : Type) (l : list A) (i : nat) (c : A) (rest : list A) :
  skipn i l = c :: rest ->
  nth_error l i = Some c /\ skipn (S i) l = rest /\ i < length l.
Proof.
  revert i. induction l as [|a l IH]; intros i H.
  - destruct i; discriminate.
  - destruct i as [|i]; simpl in *.
    + inversion H; subst. repeat split; lia.
    + apply IH in H. destruct H as (H1 & H2 & H3).
      repeat split; try assumption. lia.
Qed.

Lemma skipn_nil_length (A : Type) (l : list A) (i : nat) :
  skipn i l = [] -> length l <= i.
Proof.
  revert i. induction l as [|a l IH]; intros i H; simpl in *.
  - lia.
  - destruct i; [discriminate|]. apply IH in H. lia.
Qed.

(** [indexOf] with a brace finds the first brace the specification means. *)
Lemma find_from_brace (text rest : str) (i : nat) :
  skipn i text = rest ->
  find_from [LBRACE] rest i = least (isBraceAt text) i (length text - i).
Proof.
  revert i. induction rest as [|c rest IH]; intros i H.
  - apply skipn_nil_length in H.
    replace (length text - i) with 0 by lia. reflexivity.
  - apply skipn_cons_nth in H. destruct H as (Hn & Hs & Hl).
    replace (length text - i) with (S (length text - S i)) by lia.
    cbn [find_from prefixb least]. unfold isBraceAt at 1. rewrite Hn.
    rewrite N.eqb_sym, andb_true_r.
    destruct (N.eqb c LBRACE); [reflexivity|].
    apply IH. assumption.
Qed.

Lemma indexOf_brace (text : str) (startOffset : Z) :
  indexOf text [LBRACE] startOffset =
  match firstBrace text startOffset with
  | Some o => Z.of_nat o
  | None => (-1)%Z
  end.
Proof.
  unfold indexOf, firstBrace.
  rewrite (find_from_brace text _ (clamp (length text) startOffset) eq_refl).
  reflexivity.
Qed.

Lemma least_bounds (p : nat -> bool) (from n j : nat) :
  least p from n = Some j -> from <= j < from + n /\ p j = true.
Proof.
  revert from. induction n as [|n IH]; intros from H; simpl in H.
  - discriminate.
  - destruct (p from) eqn:E.
    + inversion H; subst. split; [lia | assumption].
    + apply IH in H. split; [lia | tauto].
Qed.

Lemma least_none (p : nat -> bool) (from n : nat) :
  (forall j, from <= j -> p j = false) -> least p from n = None.
Proof.
  revert from. induction n as [|n IH]; intros from H; simpl.
  - reflexivity.
  - rewrite (H from) by lia. apply IH. intros j Hj. apply H. lia.
Qed.

Lemma depth_snoc (l : str) (c : char) :
  depth (l ++ [c]) =
  (depth l + (if N.eqb c LBRACE then 1
              else if N.eqb c RBRACE then -1 else 0))%Z.
Proof.
  unfold depth. rewrite !count_occ_app. unfold str, char in *.
  generalize (count_occ N.eq_dec l LBRACE) (count_occ N.eq_dec l RBRACE).
  intros x y. cbn [count_occ].
  destruct (N.eqb_spec c LBRACE) as [->|Hl].
  - destruct (N.eq_dec LBRACE LBRACE); [|contradiction].
    destruct (N.eq_dec LBRACE RBRACE); [discriminate|]. lia.
  - destruct (N.eq_dec c LBRACE); [contradiction|].
    destruct (N.eqb_spec c RBRACE) as [->|Hr].
    + destruct (N.eq_dec RBRACE RBRACE); [|contradiction]. lia.
    + destruct (N.eq_dec c RBRACE); [contradiction|]. lia.
Qed.

Lemma firstn_snoc (A : Type) (l : list A) (n : nat) (c : A) :
  nth_error l n = Some c -> firstn (S n) l = firstn n l ++ [c].
Proof.
  revert n. induction l as [|a l IH]; intros n H.
  - destruct n; discriminate.
  - destruct n as [|n]; simpl in H.
    + inversion H. reflexivity.
    + cbn [firstn app]. f_equal. apply IH. assumption.
Qed.

Lemma nth_error_skipn_shift (A : Type) (l : list A) (o i : nat) :
  o <= i -> nth_error (skipn o l) (i - o) = nth_error l i.
Proof.
  revert o i. induction l as [|a l IH]; intros o i H.
  - rewrite skipn_nil. destruct (i - o), i; reflexivity.
  - destruct o as [|o].
    + rewrite Nat.sub_0_r. reflexivity.
    + destruct i as [|i]; [lia|]. cbn [skipn nth_error Nat.sub].
      apply IH. lia.
Qed.

Lemma slice_snoc (text : str) (o i : nat) (c : char) :
  o <= i -> nth_error text i = Some c ->
  slice text o (S i) = slice text o i ++ [c].
Proof.
  unfold slice. intros Ho Hn.
  replace (S i - o) with (S (i - o)) by lia.
  apply firstn_snoc. rewrite nth_error_skipn_shift; assumption.
Qed.

(** The counting loop stops where the depth of the specification is back
    to zero, or at the end of the text. *)
Lemma scanBraces_least (text : str) (o : nat) (rest : str) :
  forall (i : nat) (braceCount : Z),
    o <= i -> i <= length text -> skipn i text = rest ->
    braceCount = depth (slice text o i) -> (0 < braceCount)%Z ->
    scanBraces rest braceCount i =
    match least (fun j => (depthAt text o j =? 0)%Z) i (length text - i) with
    | Some j => S j
    | None => length text
    end.
Proof.
  induction rest as [|c rest IH]; intros i bc Ho Hi Hs Hbc Hpos.
  - apply skipn_nil_length in Hs.
    replace (length text - i) with 0 by lia. cbn [least scanBraces]. lia.
  - apply skipn_cons_nth in Hs. destruct Hs as (Hn & Hs & Hl).
    replace (length text - i) with (S (length text - S i)) by lia.
    cbn [least scanBraces].
    assert (Hd : depthAt text o i =
                 (bc + (if N.eqb c LBRACE then 1
                        else if N.eqb c RBRACE then -1 else 0))%Z).
    { unfold depthAt. rewrite (slice_snoc text o i c Ho Hn), depth_snoc.
      rewrite Hbc. reflexivity. }
    destruct (Z.ltb_spec 0 bc) as [_|Hneg]; [|lia].
    set (bc' := if N.eqb c LBRACE then (bc + 1)%Z
                else if N.eqb c RBRACE then (bc - 1)%Z else bc).
    assert (Hbc' : depthAt text o i = bc').
    { rewrite Hd. unfold bc'.
      destruct (N.eqb c LBRACE); [lia|]. destruct (N.eqb c RBRACE); lia. }
    rewrite Hbc'.
    destruct (Z.eqb_spec bc' 0) as [Hz|Hnz].
    + rewrite Hz. destruct rest; reflexivity.
    + apply IH; try assumption; try lia.
      * unfold depthAt in Hbc'. symmetry. exact Hbc'.
      * unfold bc' in *.
        destruct (N.eqb c LBRACE); [lia|]. destruct (N.eqb c RBRACE); lia.
Qed.

Lemma firstBrace_spec (text : str) (startOffset : Z) (o : nat) :
  firstBrace text startOffset = Some o ->
  clamp (length text) startOffset <= o < length text
  /\ nth_error text o = Some LBRACE.
Proof.
  unfold firstBrace. intros H. apply least_bounds in H.
  destruct H as [Hb Hp]. split; [lia|].
  unfold isBraceAt in Hp. destruct (nth_error text o) as [c|]; [|discriminate].
  apply N.eqb_eq in Hp. congruence.
Qed.

Lemma extractBlock_blockSpec (text : str) (startOffset : Z) :
  extractBlock text startOffset = blockSpec text startOffset.
Proof.
  unfold extractBlock, blockSpec. rewrite indexOf_brace.
  destruct (firstBrace text startOffset) as [o|] eqn:Ho.
  - destruct (Z.eqb_spec (Z.of_nat o) (-1)) as [Hc|_]; [lia|].
    apply firstBrace_spec in Ho. destruct Ho as [Hb Hn].
    rewrite Nat2Z.id. replace (o + 1) with (S o) by lia.
    rewrite (scanBraces_least text o (skipn (S o) text) (S o) 1%Z);
      try lia; try reflexivity.
    + unfold closingBrace.
      destruct (least _ (S o) (length text - S o)); reflexivity.
    + rewrite (slice_snoc text o o LBRACE (le_n o) Hn).
      unfold slice. rewrite Nat.sub_diag. reflexivity.
  - reflexivity.
Qed.

(** Absence of an opening brace, read on the text. *)
Lemma firstBrace_none (text : str) (startIndex : Z) :
  (forall i : nat, (startIndex <= Z.of_nat i)%Z -> nth_error text i <> Some LBRACE) ->
  firstBrace text startIndex = None.
Proof.
  intros H. unfold firstBrace. apply least_none. intros j Hj.
  unfold isBraceAt. destruct (nth_error text j) as [c|] eqn:E; [|reflexivity].
  destruct (N.eqb_spec c LBRACE) as [->|]; [|reflexivity].
  exfalso. apply (H j); [|assumption].
  assert (Hlen : j < length text) by (apply nth_error_Some; congruence).
  unfold clamp in Hj. lia.
Qed.

(** C3, as the code has it: without an opening brace at or after
    [startIndex], [extractBlock] returns the empty string (and returns:
    it is a total function). *)
Theorem extractBlock_no_brace_empty (code : str) (startIndex : Z) :
  (forall i : nat, (startIndex <= Z.of_nat i)%Z -> nth_error code i <> Some LBRACE) ->
  extractBlock code startIndex = [].
Proof.
  intros H. rewrite extractBlock_blockSpec. unfold blockSpec.
  rewrite (firstBrace_none code startIndex H). reflexivity.
Qed.

Lemma no_brace_anywhere (l : str) :
  forallb (fun c => negb (N.eqb c LBRACE)) l = true ->
  forall i, nth_error l i <> Some LBRACE.
Proof.
  intros H i Hn. apply nth_error_In in Hn.
  rewrite forallb_forall in H. apply H in Hn.
  rewrite N.eqb_refl in Hn. discriminate.
Qed.

Lemma extractBlock_no_brace_empty_witness :
  (forall i : nat, (0 <= Z.of_nat i)%Z ->
     nth_error (lit "function f()") i <> Some LBRACE)
  /\ extractBlock (lit "function f()") 0 = [].
Proof.
  assert (H : forall i : nat, (0 <= Z.of_nat i)%Z ->
     nth_error (lit "function f()") i <> Some LBRACE).
  { intros i _. apply no_brace_anywhere. reflexivity. }
  split; [exact H | exact (extractBlock_no_brace_empty _ 0%Z H)].
Defined.

(** C3, as the specification states it, fails: for the truncated
    declaration [function f()] nothing is returned, not the remainder. *)
Lemma extractBlock_remainder_counterexample :
  ~ (forall (code : str) (startIndex : Z),
       (forall i : nat, (startIndex <= Z.of_nat i)%Z ->
          nth_error code i <> Some LBRACE) ->
       extractBlock code startIndex = substring_from code startIndex).
Proof.
  intros H. specialize (H (lit "function f()") 0%Z).
  assert (Hno : forall i : nat, (0 <= Z.of_nat i)%Z ->
     nth_error (lit "function f()") i <> Some LBRACE).
  { intros i _. apply no_brace_anywhere. reflexivity. }
  specialize (H Hno). vm_compute in H. discriminate.
Qed.

Lemma least_is_least (p : nat -> bool) (from n j : nat) :
  least p from n = Some j -> forall j', from <= j' < j -> p j' = false.
Proof.
  revert from. induction n as [|n IH]; intros from H j' Hj'; simpl in H.
  - discriminate.
  - destruct (p from) eqn:E.
    + inversion H; subst. lia.
    + destruct (Nat.eq_dec j' from) as [->|Hne]; [assumption|].
      apply (IH (S from) H). lia.
Qed.

Lemma least_none_all (p : nat -> bool) (from n : nat) :
  least p from n = None -> forall j, from <= j < from + n -> p j = false.
Proof.
  revert from. induction n as [|n IH]; intros from H j Hj; simpl in H.
  - lia.
  - destruct (p from) eqn:E; [discriminate|].
    destruct (Nat.eq_dec j from) as [->|Hne]; [assumption|].
    apply (IH (S from) H). lia.
Qed.

Lemma depthAt_open (text : str) (o : nat) :
  nth_error text o = Some LBRACE -> depthAt text o o = 1%Z.
Proof.
  intros Ho. unfold depthAt.
  rewrite (slice_snoc text o o LBRACE (le_n o) Ho).
  unfold slice. rewrite Nat.sub_diag. reflexivity.
Qed.

Lemma depthAt_step (text : str) (o k : nat) (c : char) :
  o <= k -> nth_error text (S k) = Some c ->
  depthAt text o (S k) =
  (depthAt text o k + (if N.eqb c LBRACE then 1
                       else if N.eqb c RBRACE then -1 else 0))%Z.
Proof.
  intros Hk Hc. unfold depthAt.
  rewrite (slice_snoc text o (S k) c ltac:(lia) Hc), depth_snoc. reflexivity.
Qed.

(** Before the block closes, the depth stays positive. *)
Lemma depth_positive_before (text : str) (o j : nat) :
  nth_error text o = Some LBRACE -> j <= length text ->
  (forall k, S o <= k < j -> depthAt text o k <> 0%Z) ->
  forall k, o <= k < j -> (0 < depthAt text o k)%Z.
Proof.
  intros Ho Hj Hnz. induction k as [|k IH]; intros Hk.
  - assert (o = 0) by lia. subst o. rewrite depthAt_open by assumption. lia.
  - destruct (Nat.eq_dec o (S k)) as [<-|Hne].
    + rewrite depthAt_open by assumption. lia.
    + destruct (nth_error text (S k)) as [c|] eqn:Hc;
        [|apply nth_error_None in Hc; lia].
      assert (Hprev : (0 < depthAt text o k)%Z) by (apply IH; lia).
      assert (Hcur : depthAt text o (S k) <> 0%Z) by (apply Hnz; lia).
      rewrite (depthAt_step text o k c ltac:(lia) Hc) in *.
      destruct (N.eqb c LBRACE); [lia|]. destruct (N.eqb c RBRACE); lia.
Qed.

(** The position [closingBrace] finds holds a closing brace. *)
Lemma closingBrace_is_brace (text : str) (o j : nat) :
  nth_error text o = Some LBRACE ->
  closingBrace text o = Some j -> nth_error text j = Some RBRACE.
Proof.
  intros Ho H. unfold closingBrace in H.
  pose proof (least_is_least _ _ _ _ H) as Hmin.
  apply least_bounds in H. destruct H as [Hb Hz].
  apply Z.eqb_eq in Hz.
  destruct j as [|j]; [lia|].
  destruct (nth_error text (S j)) as [c|] eqn:Hc;
    [|apply nth_error_None in Hc; lia].
  assert (Hprev : (0 < depthAt text o j)%Z).
  { apply (depth_positive_before text o (S j) Ho); [lia| |lia].
    intros k Hk. apply Z.eqb_neq. apply Hmin. lia. }
  rewrite (depthAt_step text o j c ltac:(lia) Hc) in Hz.
  destruct (N.eqb_spec c LBRACE); [lia|].
  destruct (N.eqb_spec c RBRACE) as [E|]; [congruence | lia].
Qed.

(** C4: [extractBlock] is the block of the specification: empty without
    an opening brace at or after the offset; otherwise the text from the
    offset through the first position after the first such brace where
    the depth (opening minus closing braces, counted from that brace) is
    back to zero, or through the end of the text when it never is.  Being
    a total function, it returns on every input. *)
Theorem extractBlock_refines_blockSpec (text : str) (startOffset : Z) :
  extractBlock text startOffset = blockSpec text startOffset.
Proof. apply extractBlock_blockSpec. Qed.

(** ** The matcher *)

Lemma step_inv (s : str) (p : char -> bool) (i : nat) (caps : captures)
    (k : cont) (res : mstate) :
  step s p i caps k = Some res ->
  exists d, nth_error s i = Some d /\ p d = true /\ k (S i) caps = Some res.
Proof.
  unfold step. intros H.
  destruct (nth_error s i) as [d|]; [|discriminate].
  destruct (p d) eqn:E; [|discriminate].
  exists d. auto.
Qed.

Lemma orelse_inv (a b : option mstate) (res : mstate) :
  orelse a b = Some res -> a = Some res \/ b = Some res.
Proof. destruct a; simpl; auto. Qed.

Lemma extends_refl (caps : captures) : extends caps caps.
Proof. intros n H. exact H. Qed.

Lemma extends_trans (a b c : captures) :
  extends a b -> extends b c -> extends a c.
Proof. intros H1 H2 n H. apply H2, H1, H. Qed.

Lemma extends_cons (caps : captures) (n : nat) (span : nat * nat) :
  extends caps ((n, span) :: caps).
Proof.
  intros m H. simpl. destruct (Nat.eqb n m); [discriminate | exact H].
Qed.

Lemma reaches_step (s : str) (r : regex) (i : nat) (caps : captures) (d : char) :
  nth_error s i = Some d -> (forall n, binds n r = false) ->
  reaches s r i caps (S i) caps.
Proof.
  intros Hd Hb.
  assert (i < length s) by (apply nth_error_Some; congruence).
  constructor; try lia.
  - apply extends_refl.
  - intros n Hn. rewrite Hb in Hn. discriminate.
Qed.

Lemma reaches_here (s : str) (r : regex) (i : nat) (caps : captures) :
  consumes r = false -> (forall n, binds n r = false) ->
  reaches s r i caps i caps.
Proof.
  intros Hc Hb. constructor; try lia.
  - rewrite Hc. discriminate.
  - apply extends_refl.
  - intros n Hn. rewrite Hb in Hn. discriminate.
Qed.

Lemma rounds_forward (s : str) (r : regex) (greedy : bool)
    (once : nat -> captures -> cont -> option mstate) (k : cont) :
  forward s r once ->
  forall fuel i caps res,
    rounds once greedy k fuel i caps = Some res ->
    exists j caps',
      k j caps' = Some res /\ reaches s (Star greedy r) i caps j caps'.
Proof.
  intros Hf. induction fuel as [|fuel IH]; intros i caps res H.
  - simpl in H. exists i, caps. split; [assumption|].
    apply reaches_here; reflexivity.
  - cbn [rounds] in H.
    assert (Hcases :
      once i caps
        (fun j caps' =>
           if Nat.ltb i j then rounds once greedy k fuel j caps' else None)
      = Some res \/ k i caps = Some res).
    { destruct greedy; apply orelse_inv in H; tauto. }
    destruct Hcases as [Hmore|Hk].
    + apply Hf in Hmore. destruct Hmore as (j & caps1 & Hj & R1).
      destruct (Nat.ltb_spec i j) as [Hlt|]; [|discriminate].
      apply IH in Hj. destruct Hj as (j2 & caps2 & Hk2 & R2).
      exists j2, caps2. split; [assumption|].
      destruct R1, R2. constructor; try (simpl; discriminate); try lia.
      eapply extends_trans; eassumption.
    + exists i, caps. split; [assumption|].
      apply reaches_here; reflexivity.
Qed.

(** The matcher only moves forward, stays inside the text, keeps the
    captures it has, and sets the groups and consumes the characters the
    pattern makes unavoidable. *)
Lemma rmatch_reaches (ic : bool) (s : str) (r : regex) :
  forward s r (fun i caps k => rmatch ic s r i caps k).
Proof.
  induction r as [ |c|neg items| | |r1 IH1 r2 IH2|r1 IH1 r2 IH2
                 |greedy r1 IH1|r1 IH1|n r1 IH1];
    intros i caps k res H; cbn [rmatch] in H.
  - exists i, caps. split; [assumption|]. apply reaches_here; reflexivity.
  - apply step_inv in H. destruct H as (d & Hd & _ & Hk).
    exists (S i), caps. split; [assumption|].
    apply (reaches_step s _ i caps d Hd). reflexivity.
  - apply step_inv in H. destruct H as (d & Hd & _ & Hk).
    exists (S i), caps. split; [assumption|].
    apply (reaches_step s _ i caps d Hd). reflexivity.
  - apply step_inv in H. destruct H as (d & Hd & _ & Hk).
    exists (S i), caps. split; [assumption|].
    apply (reaches_step s _ i caps d Hd). reflexivity.
  - destruct (Nat.eqb i 0); [|discriminate].
    exists i, caps. split; [assumption|]. apply reaches_here; reflexivity.
  - apply IH1 in H. destruct H as (j1 & caps1 & H & R1).
    apply IH2 in H. destruct H as (j2 & caps2 & H & R2).
    exists j2, caps2. split; [assumption|].
    destruct R1 as [L1 T1 I1 E1 B1], R2 as [L2 T2 I2 E2 B2].
    constructor; try lia.
    + cbn [consumes]. intros Hc. apply orb_true_iff in Hc.
      destruct Hc as [Hc|Hc]; [apply T1 in Hc | apply T2 in Hc]; lia.
    + eapply extends_trans; eassumption.
    + cbn [binds]. intros n Hn. apply orb_true_iff in Hn.
      destruct Hn as [Hn|Hn]; [apply E2, B1, Hn | apply B2, Hn].
  - apply orelse_inv in H. destruct H as [H|H].
    + apply IH1 in H. destruct H as (j & caps' & H & R).
      exists j, caps'. split; [assumption|].
      destruct R as [L T I E B]. constructor; try assumption.
      * cbn [consumes]. intros Hc. apply andb_true_iff in Hc. tauto.
      * cbn [binds]. intros n Hn. apply andb_true_iff in Hn. apply B. tauto.
    + apply IH2 in H. destruct H as (j & caps' & H & R).
      exists j, caps'. split; [assumption|].
      destruct R as [L T I E B]. constructor; try assumption.
      * cbn [consumes]. intros Hc. apply andb_true_iff in Hc. tauto.
      * cbn [binds]. intros n Hn. apply andb_true_iff in Hn. apply B. tauto.
  - apply (rounds_forward s r1 greedy _ k IH1) in H. exact H.
  - apply orelse_inv in H. destruct H as [H|H].
    + apply IH1 in H. destruct H as (j & caps' & H & R).
      destruct (Nat.ltb i j); [|discriminate].
      exists j, caps'. split; [assumption|].
      destruct R as [L T I E B]. constructor; try assumption;
        simpl; discriminate.
    + exists i, caps. split; [assumption|]. apply reaches_here; reflexivity.
  - apply IH1 in H. destruct H as (j & caps' & H & R).
    exists j, ((n, (i, j)) :: caps'). split; [assumption|].
    destruct R as [L T I E B]. constructor; try assumption.
    + eapply extends_trans; [exact E | apply extends_cons].
    + cbn [binds]. intros m Hm. apply orb_true_iff in Hm.
      destruct Hm as [Hm|Hm].
      * simpl. rewrite Hm. discriminate.
      * apply extends_cons. apply B, Hm.
Qed.

Lemma rounds_S (greedy : bool)
    (once : nat -> captures -> cont -> option mstate) (k : cont)
    (fuel i : nat) (caps : captures) :
  rounds once greedy k (S fuel) i caps =
  let more :=
    once i caps
      (fun j caps' =>
         if Nat.ltb i j then rounds once greedy k fuel j caps' else None) in
  if greedy then orelse more (k i caps) else orelse (k i caps) more.
Proof. reflexivity. Qed.

(** *** The matcher finds only what the pattern denotes *)

Lemma rounds_sound (ic : bool) (s : str) (r : regex) (greedy : bool)
    (once : nat -> captures -> cont -> option mstate) (k : cont) :
  sound ic s r once ->
  forall fuel i caps res,
    rounds once greedy k fuel i caps = Some res ->
    exists j caps', k j caps' = Some res /\ denotes ic s (Star greedy r) i j.
Proof.
  intros Hs. induction fuel as [|fuel IH]; intros i caps res H.
  - simpl in H. exists i, caps. split; [assumption | constructor].
  - rewrite rounds_S in H. cbv zeta in H.
    assert (Hcases :
      once i caps
        (fun j caps' =>
           if Nat.ltb i j then rounds once greedy k fuel j caps' else None)
      = Some res \/ k i caps = Some res).
    { destruct greedy; apply orelse_inv in H; tauto. }
    destruct Hcases as [Hmore|Hk].
    + apply Hs in Hmore. destruct Hmore as (j & caps1 & Hj & D1).
      destruct (Nat.ltb_spec i j) as [Hlt|]; [|discriminate].
      apply IH in Hj. destruct Hj as (j2 & caps2 & Hk2 & D2).
      exists j2, caps2. split; [assumption|].
      eapply D_StarCons; eassumption.
    + exists i, caps. split; [assumption | constructor].
Qed.

Lemma rmatch_denotes (ic : bool) (s : str) (r : regex) :
  sound ic s r (fun i caps k => rmatch ic s r i caps k).
Proof.
  induction r as [ |c|neg items| | |r1 IH1 r2 IH2|r1 IH1 r2 IH2
                 |greedy r1 IH1|r1 IH1|n r1 IH1];
    intros i caps k res H; cbn [rmatch] in H.
  - exists i, caps. split; [assumption | constructor].
  - apply step_inv in H. destruct H as (d & Hd & Hp & Hk).
    exists (S i), caps. split; [assumption | econstructor; eassumption].
  - apply step_inv in H. destruct H as (d & Hd & Hp & Hk).
    exists (S i), caps. split; [assumption | econstructor; eassumption].
  - apply step_inv in H. destruct H as (d & Hd & Hp & Hk).
    exists (S i), caps. split; [assumption|].
    apply negb_true_iff in Hp. econstructor; eassumption.
  - destruct (Nat.eqb_spec i 0) as [->|]; [|discriminate].
    exists 0, caps. split; [assumption | constructor].
  - apply IH1 in H. destruct H as (j1 & caps1 & H & D1).
    apply IH2 in H. destruct H as (j2 & caps2 & H & D2).
    exists j2, caps2. split; [assumption | econstructor; eassumption].
  - apply orelse_inv in H. destruct H as [H|H].
    + apply IH1 in H. destruct H as (j & caps' & H & D).
      exists j, caps'. split; [assumption | apply D_AltL; assumption].
    + apply IH2 in H. destruct H as (j & caps' & H & D).
      exists j, caps'. split; [assumption | apply D_AltR; assumption].
  - apply (rounds_sound ic s r1 greedy _ k IH1) in H. exact H.
  - apply orelse_inv in H. destruct H as [H|H].
    + apply IH1 in H. destruct H as (j & caps' & H & D).
      destruct (Nat.ltb i j); [|discriminate].
      exists j, caps'. split; [assumption | apply D_OptSome; assumption].
    + exists i, caps. split; [assumption | constructor].
  - apply IH1 in H. destruct H as (j & caps' & H & D).
    exists j, ((n, (i, j)) :: caps'). split; [assumption|].
    constructor. assumption.
Qed.

(** *** The bound on the rounds of a quantifier is never met *)

Lemma step_local (s : str) (p : char -> bool) :
  local s (fun i caps k => step s p i caps k).
Proof.
  intros i caps k1 k2 Hi H. unfold step.
  destruct (nth_error s i) as [d|] eqn:E; [|reflexivity].
  destruct (p d); [|reflexivity]. apply H.
  assert (i < length s) by (apply nth_error_Some; congruence). lia.
Qed.

Lemma rounds_local (s : str) (greedy : bool)
    (once : nat -> captures -> cont -> option mstate) :
  local s once ->
  forall fuel, local s (fun i caps k => rounds once greedy k fuel i caps).
Proof.
  intros Ho. induction fuel as [|fuel IH]; intros i caps k1 k2 Hi H.
  - cbn [rounds]. apply H. lia.
  - cbn [rounds]. rewrite (H i caps) by lia.
    rewrite (Ho i caps
               (fun j caps' =>
                  if Nat.ltb i j then rounds once greedy k1 fuel j caps' else None)
               (fun j caps' =>
                  if Nat.ltb i j then rounds once greedy k2 fuel j caps' else None)
               Hi).
    + reflexivity.
    + intros j caps' Hj. destruct (Nat.ltb i j); [|reflexivity].
      apply IH; [lia|]. intros j' caps'' Hj'. apply H. lia.
Qed.

Lemma rmatch_local (ic : bool) (s : str) (r : regex) :
  local s (fun i caps k => rmatch ic s r i caps k).
Proof.
  induction r as [ |c|neg items| | |r1 IH1 r2 IH2|r1 IH1 r2 IH2
                 |greedy r1 IH1|r1 IH1|n r1 IH1];
    intros i caps k1 k2 Hi H; cbn [rmatch].
  - apply H. lia.
  - apply step_local; assumption.
  - apply step_local; assumption.
  - apply step_local; assumption.
  - destruct (Nat.eqb i 0); [apply H; lia | reflexivity].
  - apply IH1; [assumption|]. intros j caps' Hj.
    apply IH2; [lia|]. intros j' caps'' Hj'. apply H. lia.
  - rewrite (IH1 i caps k1 k2 Hi H), (IH2 i caps k1 k2 Hi H). reflexivity.
  - apply (rounds_local s greedy _ IH1); assumption.
  - rewrite (H i caps) by lia. f_equal.
    apply IH1; [assumption|]. intros j caps' Hj.
    destruct (Nat.ltb i j); [apply H; lia | reflexivity].
  - apply IH1; [assumption|]. intros j caps' Hj. apply H. lia.
Qed.

(** More rounds than there are characters left change nothing: the
    bound [S (length s - i)] of [rmatch] never cuts a match short. *)
Lemma rounds_fuel_enough (s : str) (greedy : bool)
    (once : nat -> captures -> cont -> option mstate) (k : cont) :
  local s once ->
  forall fuel i caps,
    i <= length s -> length s - i < fuel ->
    rounds once greedy k (S fuel) i caps = rounds once greedy k fuel i caps.
Proof.
  intros Ho. induction fuel as [|fuel IH]; intros i caps Hi Hf; [lia|].
  rewrite (rounds_S greedy once k (S fuel)), (rounds_S greedy once k fuel).
  cbv zeta.
  assert (Hmore :
    once i caps
      (fun j caps' =>
         if Nat.ltb i j then rounds once greedy k (S fuel) j caps' else None)
    = once i caps
        (fun j caps' =>
           if Nat.ltb i j then rounds once greedy k fuel j caps' else None)).
  { apply Ho; [assumption|]. intros j caps' Hj.
    destruct (Nat.ltb_spec i j) as [Hlt|]; [|reflexivity].
    apply IH; lia. }
  rewrite Hmore. reflexivity.
Qed.

(** ** [exec] and the loops around it *)

Lemma search_inv (ic : bool) (s : str) (r : regex) :
  forall fuel i idx e cs,
    search ic s r fuel i = Some (idx, (e, cs)) ->
    i <= idx <= i + fuel /\ reaches s r idx [] e cs /\ denotes ic s r idx e.
Proof.
  assert (Hat : forall i e cs,
            rmatch ic s r i [] accept = Some (e, cs) ->
            reaches s r i [] e cs /\ denotes ic s r i e).
  { intros i e cs E. split.
    - apply rmatch_reaches in E. destruct E as (j & caps' & Ha & R).
      inversion Ha; subst. assumption.
    - apply rmatch_denotes in E. destruct E as (j & caps' & Ha & D).
      inversion Ha; subst. assumption. }
  induction fuel as [|fuel IH]; intros i idx e cs H; cbn [search] in H.
  - destruct (rmatch ic s r i [] accept) as [st|] eqn:E; [|discriminate].
    inversion H; subst. split; [lia | apply Hat; assumption].
  - destruct (rmatch ic s r i [] accept) as [st|] eqn:E.
    + inversion H; subst. split; [lia | apply Hat; assumption].
    + apply IH in H. destruct H as [Hb R]. split; [lia | assumption].
Qed.

Lemma exec_some (re re' : RegExp) (s : str) (m : MatchResult) :
  exec re s = (Some m, re') ->
  startOf re <= index m
  /\ wellMatched (ignoreCase re) (source re) s m
  /\ re' = (if global re then setLastIndex re (matchEnd m) else re).
Proof.
  unfold exec, startOf. intros H.
  destruct (Nat.ltb_spec (length s) (if global re then lastIndex re else 0))
    as [|Hle]; [discriminate|].
  destruct (search (ignoreCase re) s (source re)
              (length s - (if global re then lastIndex re else 0))
              (if global re then lastIndex re else 0))
    as [[idx [e cs]]|] eqn:E; [|discriminate].
  inversion H; subst; clear H. apply search_inv in E.
  destruct E as (Hb & R & D). destruct R as [L T I Ex B].
  split; [simpl; lia|]. split; [|reflexivity].
  constructor; simpl; try reflexivity; try assumption.
  - split; [assumption | apply I; lia].
  - intros n Hn. unfold grp, group. simpl.
    specialize (B n Hn). destruct (cap_lookup cs n) as [[a b]|].
    + eexists. reflexivity.
    + contradiction.
Qed.

(** The loop [while ((m = re.exec(s)) !== null)] returns for a pattern
    with the [g] flag that cannot match the empty string: [lastIndex]
    grows with every round. *)
Lemma execLoop_total (s : str) :
  forall fuel re,
    global re = true -> consumes (source re) = true ->
    length s + 1 - lastIndex re < fuel ->
    exists ms re',
      execLoop fuel re s = Ret (ms, re')
      /\ Forall (wellMatched (ignoreCase re) (source re) s) ms.
Proof.
  induction fuel as [|fuel IH]; intros re Hg Hc Hfuel; [lia|].
  cbn [execLoop]. destruct (exec re s) as [[m|] re'] eqn:E.
  - apply exec_some in E. destruct E as (Hstart & W & ->).
    unfold startOf in Hstart. rewrite Hg in *.
    pose proof (well_progress W Hc) as Hp. pose proof (well_span W) as Hs.
    destruct (IH (setLastIndex re (matchEnd m)) Hg Hc) as (ms & re1 & -> & Hall).
    { simpl. lia. }
    exists (m :: ms), re1. split; [reflexivity|].
    constructor; assumption.
  - exists [], re'. split; [reflexivity | constructor].
Qed.

Lemma execAll_total (re : RegExp) (s : str) :
  global re = true -> consumes (source re) = true ->
  exists ms,
    execAll re s = Ret ms /\ Forall (wellMatched (ignoreCase re) (source re) s) ms.
Proof.
  intros Hg Hc. unfold execAll.
  destruct (execLoop_total s (length s + 2) re Hg Hc) as (ms & re' & -> & Hall).
  { lia. }
  exists ms. split; [reflexivity | assumption].
Qed.

(** The loop inside [replace] returns for every pattern: after an empty
    match [lastIndex] is moved on. *)
Lemma replaceLoop_total (s : str) :
  forall fuel re,
    global re = true ->
    length s + 1 - lastIndex re < fuel ->
    exists ms, replaceLoop fuel re s = Ret ms.
Proof.
  induction fuel as [|fuel IH]; intros re Hg Hfuel; [lia|].
  cbn [replaceLoop]. destruct (exec re s) as [[m|] re'] eqn:E.
  - apply exec_some in E. destruct E as (Hstart & W & ->).
    unfold startOf in Hstart. rewrite Hg in *.
    pose proof (well_span W) as Hs.
    destruct (Nat.eqb_spec (matchEnd m) (index m)) as [He|Hne].
    + destruct (IH (setLastIndex (setLastIndex re (matchEnd m))
                      (S (lastIndex (setLastIndex re (matchEnd m))))) Hg)
        as (ms & ->).
      { simpl. lia. }
      eexists. reflexivity.
    + destruct (IH (setLastIndex re (matchEnd m)) Hg) as (ms & ->).
      { simpl. lia. }
      eexists. reflexivity.
  - eexists. reflexivity.
Qed.

Lemma replace_total (s : str) (re : RegExp) (f : MatchResult -> str) :
  exists out, replace s re f = Ret out.
Proof.
  unfold replace. destruct (global re) eqn:Hg.
  - destruct (replaceLoop_total s (length s + 2) (setLastIndex re 0) Hg)
      as (ms & ->).
    { simpl. lia. }
    eexists. reflexivity.
  - destruct (fst (exec re s)); eexists; reflexivity.
Qed.

(** ** Totality of the analysis *)

Lemma mapM_total (A B : Type) (f : A -> outcome B) (l : list A) :
  (forall a, In a l -> exists b, f a = Ret b) ->
  exists bs, mapM f l = Ret bs.
Proof.
  induction l as [|a l IH]; intros H.
  - exists []. reflexivity.
  - destruct (H a (or_introl eq_refl)) as (b & Hb).
    destruct IH as (bs & Hbs). { intros x Hx. apply H. right. exact Hx. }
    exists (b :: bs). cbn [mapM]. rewrite Hb. cbn [bind]. rewrite Hbs.
    reflexivity.
Qed.

Lemma selectPatterns_loop (programming_language : str) :
  loopPatterns (selectPatterns programming_language).
Proof.
  unfold selectPatterns.
  destruct (isOneOf _ _); [constructor; reflexivity|].
  destruct (isOneOf _ _); [constructor; reflexivity|].
  destruct (isOneOf _ _); constructor; reflexivity.
Qed.

Lemma extractClasses_total (code : str) (ps : PatternSet) :
  loopPatterns ps ->
  exists classes,
    extractClasses code ps = Ret classes /\ Forall named classes.
Proof.
  intros L. unfold extractClasses.
  destruct (execAll_total (setLastIndex (classRegex ps) 0) code)
    as (ms & -> & Hall);
    [apply (loop_class_g L) | apply (loop_class_c L) |].
  eexists. split; [reflexivity|].
  apply Forall_map. eapply Forall_impl; [|exact Hall].
  intros m W. unfold named, classOfMatch. simpl.
  apply (well_groups W). apply (loop_class_1 L).
Qed.

Lemma extractFunctions_total (code : str) (ps : PatternSet)
    (classes : list ClassInfo) :
  loopPatterns ps -> exists fs, extractFunctions code ps classes = Ret fs.
Proof.
  intros L. unfold extractFunctions.
  destruct (execAll_total (setLastIndex (functionRegex ps) 0) code)
    as (ms & -> & _);
    [apply (loop_function_g L) | apply (loop_function_c L) |].
  eexists. reflexivity.
Qed.

Lemma extractImports_total (code : str) (ps : PatternSet) :
  loopPatterns ps -> exists imports, extractImports code ps = Ret imports.
Proof.
  intros L. unfold extractImports.
  destruct (execAll_total (setLastIndex (importRegex ps) 0) code)
    as (ms & -> & _);
    [apply (loop_import_g L) | apply (loop_import_c L) |].
  eexists. reflexivity.
Qed.

Lemma box_named (indent : str) (c : ClassInfo) :
  named c -> exists b, box indent (cname c) = Ret b.
Proof.
  intros (x & Hx). rewrite Hx. eexists. reflexivity.
Qed.

Lemma renderChildren_total (children : list ClassInfo) :
  Forall named children -> exists out, renderChildren children = Ret out.
Proof.
  induction 1 as [|c rest Hc _ IH].
  - eexists. reflexivity.
  - destruct (box_named indent17 c Hc) as (b & Hb). destruct IH as (more & Hm).
    cbn [renderChildren]. rewrite Hb. cbn [bind]. rewrite Hm.
    eexists. reflexivity.
Qed.

Lemma Forall_filter (A : Type) (P : A -> Prop) (f : A -> bool) (l : list A) :
  Forall P l -> Forall P (filter f l).
Proof.
  intros H. apply Forall_forall. intros x Hx.
  apply filter_In in Hx. rewrite Forall_forall in H. apply H. tauto.
Qed.

Lemma renderParent_total (classes : list ClassInfo) (cls : ClassInfo) :
  Forall named classes -> named cls ->
  exists out, renderParent classes cls = Ret out.
Proof.
  intros Hall Hc. unfold renderParent.
  destruct (box_named indent4 cls Hc) as (b & ->). cbn [bind].
  destruct (renderChildren_total (childClasses classes cls)) as (kids & ->).
  { apply Forall_filter. assumption. }
  eexists. reflexivity.
Qed.

Lemma renderClasses_total (classes : list ClassInfo) :
  Forall named classes -> exists out, renderClasses classes = Ret out.
Proof.
  intros Hall. unfold renderClasses.
  destruct (Nat.ltb 0 (length classes)); [|eexists; reflexivity].
  unfold renderParentPass, renderStandalonePass.
  destruct (mapM_total _ _ (renderParent classes) (parentClasses classes))
    as (p1 & ->).
  { intros c Hc. apply renderParent_total; [assumption|].
    apply filter_In in Hc. rewrite Forall_forall in Hall. apply Hall. tauto. }
  cbn [bind].
  destruct (mapM_total _ _ (fun cls => box indent4 (cname cls))
              (standaloneClasses classes)) as (p2 & ->).
  { intros c Hc. apply box_named.
    apply filter_In in Hc. rewrite Forall_forall in Hall. apply Hall. tauto. }
  eexists. reflexivity.
Qed.

Lemma generateArchitectureDiagram_total (code programming_language : str) :
  exists diagram,
    generateArchitectureDiagram code programming_language = Ret diagram.
Proof.
  unfold generateArchitectureDiagram.
  pose proof (selectPatterns_loop programming_language) as L.
  destruct (extractClasses_total code _ L) as (classes & -> & Hnamed).
  cbn [bind].
  destruct (extractFunctions_total code _ classes L) as (fs & ->). cbn [bind].
  destruct (extractImports_total code _ L) as (imports & ->). cbn [bind].
  unfold renderDiagram.
  destruct (renderClasses_total classes Hnamed) as (part & ->).
  eexists. reflexivity.
Qed.

Lemma smatch_well (s : str) (re : RegExp) (m : MatchResult) :
  smatch s re = Some m -> wellMatched (ignoreCase re) (source re) s m.
Proof.
  unfold smatch. destruct (exec re s) as [o re'] eqn:E. simpl. intros ->.
  apply exec_some in E. tauto.
Qed.

Lemma cleanComment_total (raw : str) : exists out, cleanComment raw = Ret out.
Proof.
  unfold cleanComment.
  destruct (replace_total raw
              (reG (Cat [Star true space; Lit "*"; Star true space]))
              (fun _ => lit " ")) as (a & ->). cbn [bind].
  destruct (replace_total a (reG (Plus space)) (fun _ => lit " ")) as (b & ->).
  cbn [bind].
  destruct (replace_total b
              (reG (Cat [Lit "@"; Plus word; Plus space;
                         Plus (Cls true [CChar 10%N])]))
              (fun _ => [])) as (c & ->).
  eexists. reflexivity.
Qed.

Lemma commentOf_total (componentCode : str) (commentRegex : RegExp) :
  binds 1 (source commentRegex) = true ->
  exists c, commentOf componentCode commentRegex = Ret c.
Proof.
  intros Hb. unfold commentOf.
  destruct (smatch componentCode commentRegex) as [m|] eqn:E;
    [|eexists; reflexivity].
  apply smatch_well in E. destruct (well_groups E 1 Hb) as (raw & ->).
  destruct (cleanComment_total raw) as (comment & ->).
  eexists. reflexivity.
Qed.

Lemma humanize_total (componentName : str) :
  exists out, humanize componentName = Ret out.
Proof.
  unfold humanize.
  destruct (replace_total componentName
              (reG (Group 1 (Cls false [CRange 65%N 90%N])))
              (fun m => lit " " ++ capture m 1)) as (a & ->). cbn [bind].
  destruct (replace_total a (re0 (Seq Bol Dot))
              (fun m => toUpperCase (matched m))) as (b & ->).
  eexists. reflexivity.
Qed.

Lemma heuristicDescription_total (componentCode type : str) :
  exists d, heuristicDescription componentCode type = Ret d.
Proof.
  unfold heuristicDescription.
  match goal with
  | |- context [if truthy ?f then _ else _] => generalize f
  end.
  intros found. destruct (truthy found).
  - destruct (humanize_total (toStr found)) as (h & ->). cbn [bind].
    destruct (str_eqb type (lit "class")); eexists; reflexivity.
  - cbn [bind]. destruct (str_eqb type (lit "class")); eexists; reflexivity.
Qed.

Lemma generateComponentDescription_total (componentCode type : str) :
  exists d, generateComponentDescription componentCode type = Ret d.
Proof.
  unfold generateComponentDescription.
  destruct (includes componentCode tripleDQuote || includes componentCode tripleQuote).
  - destruct (commentOf_total componentCode docstringRegex eq_refl) as ([c|] & ->);
      cbn [bind]; [eexists; reflexivity | apply heuristicDescription_total].
  - destruct (includes componentCode (lit "/**")).
    + destruct (commentOf_total componentCode jsdocRegex eq_refl) as ([c|] & ->);
        cbn [bind]; [eexists; reflexivity | apply heuristicDescription_total].
    + destruct (includes componentCode (lit "//")).
      * destruct (Nat.ltb 0 _); [eexists; reflexivity|].
        apply heuristicDescription_total.
      * apply heuristicDescription_total.
Qed.

Lemma components_total (code type : str) (ms : list MatchResult) :
  exists cs, mapM (componentOfMatch code type) ms = Ret cs.
Proof.
  apply mapM_total. intros m _. unfold componentOfMatch.
  destruct (generateComponentDescription_total
              (extractBlock code (Z.of_nat (index m))) type) as (d & ->).
  eexists. reflexivity.
Qed.

Lemma extractComponents_total (code programming_language : str) :
  exists cs, extractComponents code programming_language = Ret cs.
Proof.
  unfold extractComponents.
  destruct (execAll_total simpleClassRegex code eq_refl eq_refl) as (m1 & -> & _).
  cbn [bind]. destruct (components_total code (lit "class") m1) as (c1 & ->).
  cbn [bind].
  destruct (execAll_total simpleFunctionRegex code eq_refl eq_refl) as (m2 & -> & _).
  cbn [bind]. destruct (components_total code (lit "function") m2) as (c2 & ->).
  cbn [bind].
  destruct (execAll_total arrowFunctionRegex code eq_refl eq_refl) as (m3 & -> & _).
  cbn [bind]. destruct (components_total code (lit "function") m3) as (c3 & ->).
  eexists. reflexivity.
Qed.

(** ** Occurrences *)

Lemma prefixb_app (h post : str) : prefixb h (h ++ post) = true.
Proof.
  induction h as [|c h IH]; [reflexivity|].
  cbn [prefixb app]. rewrite N.eqb_refl. exact IH.
Qed.

Lemma prefixb_inv (h s : str) :
  prefixb h s = true -> exists post, s = h ++ post.
Proof.
  revert s. induction h as [|c h IH]; intros s H.
  - exists s. reflexivity.
  - destruct s as [|d s]; [discriminate|]. cbn [prefixb] in H.
    apply andb_true_iff in H. destruct H as [Hc Hp].
    apply N.eqb_eq in Hc. subst d. destruct (IH s Hp) as (post & ->).
    exists post. reflexivity.
Qed.

Lemma find_from_eq (pat rest : str) (i : nat) :
  find_from pat rest i =
  if prefixb pat rest then Some i
  else match rest with
       | [] => None
       | _ :: r => find_from pat r (S i)
       end.
Proof. destruct rest; reflexivity. Qed.

Lemma find_from_occurs (h pre post : str) (i : nat) :
  exists j, find_from h (pre ++ h ++ post) i = Some j.
Proof.
  revert i. induction pre as [|c pre IH]; intros i.
  - cbn [app]. rewrite find_from_eq, prefixb_app. eauto.
  - rewrite find_from_eq. cbn [app].
    destruct (prefixb h (c :: pre ++ h ++ post)); eauto.
Qed.

Lemma find_from_inv (h rest : str) (i j : nat) :
  find_from h rest i = Some j -> occurs h rest.
Proof.
  revert i. induction rest as [|c rest IH]; intros i H; cbn [find_from] in H.
  - destruct (prefixb h []) eqn:E; [|discriminate].
    apply prefixb_inv in E. destruct E as (post & E).
    exists [], post. exact E.
  - destruct (prefixb h (c :: rest)) eqn:E.
    + apply prefixb_inv in E. destruct E as (post & E).
      exists [], post. exact E.
    + apply IH in H. destruct H as (pre & post & ->).
      exists (c :: pre), post. reflexivity.
Qed.

(** [includes] decides occurrence. *)
Lemma includes_occurs (s h : str) : includes s h = true <-> occurs h s.
Proof.
  unfold includes, indexOf.
  assert (Hk : clamp (length s) 0 = 0) by (unfold clamp; simpl; lia).
  rewrite Hk. cbn [skipn]. split.
  - destruct (find_from h s 0) as [j|] eqn:E.
    + intros _. eapply find_from_inv. exact E.
    + simpl. discriminate.
  - intros (pre & post & ->).
    destruct (find_from_occurs h pre post 0) as (j & ->).
    destruct (Z.eqb_spec (Z.of_nat j) (-1)); [lia | reflexivity].
Qed.

Lemma includes_here (t post h : str) :
  includes t h = true -> includes (t ++ post) h = true.
Proof.
  rewrite !includes_occurs. intros (a & b & ->).
  exists a, (b ++ post). rewrite <- !app_assoc. reflexivity.
Qed.

Lemma includes_skip (pre t h : str) :
  includes t h = true -> includes (pre ++ t) h = true.
Proof.
  rewrite !includes_occurs. intros (a & b & ->).
  exists (pre ++ a), b. rewrite <- !app_assoc. reflexivity.
Qed.

(** Search of a literal along a chain of concatenations. *)
Ltac find_literal :=
  repeat first
    [ apply includes_here; vm_compute; reflexivity
    | apply includes_skip ].

Lemma report_headers (lang diagram functionality : str)
    (classes functions : list Component) :
  let r := report lang diagram functionality classes functions in
  r <> []
  /\ includes r (lit "Architecture Diagram") = true
  /\ includes r (lit "Core Functionality") = true
  /\ includes r (lit "Main Classes:") = true
  /\ includes r (lit "Main Functions:") = true.
Proof.
  cbv zeta. unfold report. repeat split; try find_literal.
  discriminate.
Qed.

Lemma explainCode_returns (code programming_language : str) :
  exists diagram components,
    explainCode code programming_language
    = Ret (report programming_language diagram
             (extractCoreFunctionality code programming_language)
             (fst components) (snd components)).
Proof.
  unfold explainCode.
  destruct (generateArchitectureDiagram_total code programming_language)
    as (diagram & ->). cbn [bind].
  destruct (extractComponents_total code programming_language) as (cs & ->).
  cbn [bind]. exists diagram, cs. reflexivity.
Qed.

(** Under the ECMAScript semantics, where the matcher has no limit:
    for every code text and every language label, [explainCode] returns,
    and the report is not empty and contains the four fixed section
    headers. *)
Lemma explainCode_ideal_with_headers (code programming_language : str) :
  exists r,
    explainCode code programming_language = Ret r
    /\ r <> []
    /\ includes r (lit "Architecture Diagram") = true
    /\ includes r (lit "Core Functionality") = true
    /\ includes r (lit "Main Classes:") = true
    /\ includes r (lit "Main Functions:") = true.
Proof.
  destruct (explainCode_returns code programming_language) as (d & cs & ->).
  eexists. split; [reflexivity|]. apply report_headers.
Qed.

(** ** Functions inside a class *)

Lemma isInsideClass_iff (code : str) (classes : list ClassInfo) (offset : nat) :
  isInsideClass code classes offset = true <->
  exists cls, In cls classes /\ strictlyInsideBlock code cls offset.
Proof.
  unfold isInsideClass, strictlyInsideBlock, blockEnd. rewrite existsb_exists.
  split; intros (cls & Hin & H); exists cls; (split; [assumption|]).
  - apply andb_true_iff in H. destruct H as [H1 H2].
    apply Nat.ltb_lt in H1. apply Nat.ltb_lt in H2. lia.
  - apply andb_true_iff. split; apply Nat.ltb_lt; lia.
Qed.

(** The loop drops a match exactly when its offset lies strictly between
    the offset of some class and the end of that class's block. *)
Lemma kept_iff_not_strictly_inside (code : str)
    (classes : list ClassInfo) (ms : list MatchResult) (m : MatchResult) :
  In m (keptMatches code classes ms) <->
  In m ms
  /\ ~ exists cls, In cls classes /\ strictlyInsideBlock code cls (index m).
Proof.
  unfold keptMatches. rewrite filter_In.
  rewrite negb_true_iff, <- not_true_iff_false, isInsideClass_iff. tauto.
Qed.

(** Taken on its own, the test is open on the left: handed a match at the
    very offset of a class, it keeps it. *)
Lemma test_open_on_the_left :
  In (mkMatch emptyClass 0 5 [])
     (keptMatches emptyClass [mkClass (JStr (lit "A")) Null 0]
        [mkMatch emptyClass 0 5 []])
  /\ inHalfOpenBlock emptyClass (mkClass (JStr (lit "A")) Null 0) 0.
Proof.
  split.
  - vm_compute. left. reflexivity.
  - unfold inHalfOpenBlock, blockEnd. vm_compute. lia.
Qed.

(** ** Where class patterns and function patterns can match *)

Lemma denotes_chars (s : str) (w : str) (r : regex) (i j : nat) :
  denotes false s (fold_right (fun c r' => Seq (Chr c) r') r w) i j ->
  wordAt s i w /\ denotes false s r (i + length w) j.
Proof.
  revert i. induction w as [|c w IH]; intros i H; cbn [fold_right] in H.
  - split; [intros n c Hn; destruct n; discriminate|].
    cbn [length]. rewrite Nat.add_0_r. exact H.
  - inversion H as [ | | | | |r1 r2 i' j' k' H1 H2| | | | | | | ]; subst.
    inversion H1 as [ |c' i' d Hd Hc| | | | | | | | | | | ]; subst.
    apply N.eqb_eq in Hc. cbn [canon] in Hc. subst d.
    apply IH in H2. destruct H2 as [Hw Hr]. split.
    + intros n x Hn. destruct n as [|n]; cbn [nth_error] in Hn.
      * inversion Hn; subst. rewrite Nat.add_0_r. exact Hd.
      * replace (i + S n) with (S i + n) by lia. apply Hw. exact Hn.
    + cbn [length]. replace (i + S (length w)) with (S i + length w) by lia.
      exact Hr.
Qed.

(** A literal in front of a pattern. *)
Lemma denotes_Lit_then (s : str) (w : string) (r : regex) (i j : nat) :
  denotes false s (Seq (Lit w) r) i j ->
  wordAt s i (lit w) /\ denotes false s r (i + length (lit w)) j.
Proof.
  intros H.
  inversion H as [ | | | | |r1 r2 i' j' k' H1 H2| | | | | | | ]; subst.
  unfold Lit in H1. apply denotes_chars in H1. destruct H1 as [Hw He].
  inversion He; subst. split; assumption.
Qed.

Lemma denotes_star_class (ic : bool) (s : str) (greedy neg : bool)
    (items : list citem) (i j : nat) :
  denotes ic s (Star greedy (Cls neg items)) i j ->
  i <= j /\ allIn s (fun d => xorb neg (in_class ic items d)) i j.
Proof.
  intros H. remember (Star greedy (Cls neg items)) as r eqn:Er.
  induction H as [ | | | | | | | |g r0 i|g r0 i j k H1 _ Hlt H2 IH2| | | ];
    try discriminate.
  - split; [lia|]. intros n Hn. lia.
  - inversion Er; subst. destruct (IH2 eq_refl) as [Hle Hall].
    inversion H1 as [ | |neg' items' i' d Hd Hp| | | | | | | | | | ]; subst.
    split; [lia|]. intros n Hn.
    destruct (Nat.eq_dec n i) as [->|Hne]; [exists d; auto|].
    apply Hall. lia.
Qed.

Lemma denotes_plus_class_then (ic : bool) (s : str) (neg : bool)
    (items : list citem) (r : regex) (i j : nat) :
  denotes ic s (Seq (Plus (Cls neg items)) r) i j ->
  exists e, i < e
    /\ allIn s (fun d => xorb neg (in_class ic items d)) i e
    /\ denotes ic s r e j.
Proof.
  intros H.
  inversion H as [ | | | | |r1 r2 i' e k' H1 H2| | | | | | | ]; subst.
  unfold Plus in H1.
  inversion H1 as [ | | | | |r1 r2 i' m k' H3 H4| | | | | | | ]; subst.
  inversion H3 as [ | |neg' items' i' d Hd Hp| | | | | | | | | | ]; subst.
  apply denotes_star_class in H4. destruct H4 as [Hle Hall].
  exists e. split; [lia|]. split; [|assumption].
  intros n Hn. destruct (Nat.eq_dec n i) as [->|Hne]; [exists d; auto|].
  apply Hall. lia.
Qed.

Lemma allIn_space (ic : bool) (s : str) (i j : nat) :
  allIn s (fun d => xorb false (in_class ic [CSpace] d)) i j ->
  allIn s isSpace i j.
Proof.
  intros H n Hn. destruct (H n Hn) as (d & Hd & Hp).
  exists d. split; [assumption|]. cbn in Hp. rewrite orb_false_r in Hp.
  exact Hp.
Qed.

Lemma allIn_word (ic : bool) (s : str) (i j : nat) :
  allIn s (fun d => xorb false (in_class ic [CWord] d)) i j ->
  allIn s isWord i j.
Proof.
  intros H n Hn. destruct (H n Hn) as (d & Hd & Hp).
  exists d. split; [assumption|]. cbn in Hp. rewrite orb_false_r in Hp.
  exact Hp.
Qed.

Lemma allIn_shrink (s : str) (p : char -> bool) (i j i' j' : nat) :
  i <= i' -> j' <= j -> allIn s p i j -> allIn s p i' j'.
Proof. intros Hi Hj H n Hn. apply H. lia. Qed.

Lemma denotes_plus_class (ic : bool) (s : str) (neg : bool)
    (items : list citem) (i j : nat) :
  denotes ic s (Plus (Cls neg items)) i j ->
  i < j /\ allIn s (fun d => xorb neg (in_class ic items d)) i j.
Proof.
  intros H. unfold Plus in H.
  inversion H as [ | | | | |r1 r2 i' m k' H3 H4| | | | | | | ]; subst.
  inversion H3 as [ | |neg' items' i' d Hd Hp| | | | | | | | | | ]; subst.
  apply denotes_star_class in H4. destruct H4 as [Hle Hall].
  split; [lia|]. intros n Hn.
  destruct (Nat.eq_dec n i) as [->|Hne]; [exists d; auto|]. apply Hall. lia.
Qed.

(** Every class pattern starts [class\s+(\w+)]. *)
Lemma class_head_shape (s : str) (rest : regex) (i j : nat) :
  denotes false s
    (Seq (Lit "class") (Seq (Plus space) (Seq (Group 1 (Plus word)) rest))) i j ->
  classShape s i.
Proof.
  intros H. apply denotes_Lit_then in H. destruct H as [Hw H].
  change (length (lit "class")) with 5 in H.
  apply denotes_plus_class_then in H. destruct H as (e & He & Hsp & H).
  inversion H as [ | | | | |r1 r2 i' m k' H1 H2| | | | | | | ]; subst.
  inversion H1 as [ | | | | | | | | | | | |n r i' j' Hg]; subst.
  apply denotes_plus_class in Hg. destruct Hg as [Hlt Hwd].
  split; [assumption|]. exists (e - (i + 5)).
  replace (i + 5 + (e - (i + 5))) with e by lia.
  split; [lia|]. split.
  - apply (allIn_space false). assumption.
  - apply (allIn_word false). eapply allIn_shrink; [| |exact Hwd]; lia.
Qed.

Lemma call_signature_shape (s : str) (g : nat) (i j : nat) :
  denotes false s (callSignature g) i j -> callShape s i.
Proof.
  intros H. unfold callSignature in H. cbn [Cat fold_right] in H.
  inversion H as [ | | | | |r1 r2 i' e k' H1 H2| | | | | | | ]; subst.
  inversion H1 as [ | | | | | | | | | | | |n r i' j' Hg]; subst.
  apply denotes_plus_class in Hg. destruct Hg as [Hlt Hwd].
  inversion H2 as [ | | | | |r1 r2 i' e2 k' H3 H4| | | | | | | ]; subst.
  apply denotes_star_class in H3. destruct H3 as [Hle Hsp].
  apply denotes_Lit_then in H4. destruct H4 as [Hw _].
  exists (e - i), (e2 - e).
  replace (i + (e - i)) with e by lia. replace (e + (e2 - e)) with e2 by lia.
  split; [lia|]. split; [apply (allIn_word false); assumption|].
  split; [apply (allIn_space false); assumption|].
  specialize (Hw 0 40%N eq_refl). rewrite Nat.add_0_r in Hw. exact Hw.
Qed.

Lemma space_not_word (d : char) : isSpace d = true -> isWord d = true -> False.
Proof.
  unfold isSpace, isWord. intros Hs Hw.
  repeat rewrite ?orb_true_iff, ?andb_true_iff in Hs.
  repeat rewrite ?orb_true_iff, ?andb_true_iff in Hw.
  rewrite ?N.leb_le, ?N.eqb_eq in Hs. rewrite ?N.leb_le, ?N.eqb_eq in Hw.
  lia.
Qed.

Lemma class_starts_with_c (s : str) (i : nat) :
  classShape s i -> nth_error s i = Some 99%N.
Proof.
  intros [Hw _]. specialize (Hw 0 99%N eq_refl).
  rewrite Nat.add_0_r in Hw. exact Hw.
Qed.

(** Where a class pattern matches, a call signature does not. *)
Lemma class_not_call (s : str) (i : nat) :
  classShape s i -> callShape s i -> False.
Proof.
  intros (Hw & k & Hk & Hsp & Hwd) (n & m & Hn & Cwd & Csp & Cpar).
  assert (Hat : forall p d, nth_error s p = Some d ->
            (i + n <= p < i + n + m -> isSpace d = true)
            /\ (p = i + n + m -> d = 40%N)
            /\ (i <= p < i + n -> isWord d = true)
            /\ (i + 5 <= p < i + 5 + k -> isSpace d = true)
            /\ (p = i + 5 + k -> isWord d = true)).
  { intros p d Hd. repeat split; intros Hp.
    - destruct (Csp p Hp) as (d' & Hd' & Hs). congruence.
    - subst p. congruence.
    - destruct (Cwd p Hp) as (d' & Hd' & Hs). congruence.
    - destruct (Hsp p Hp) as (d' & Hd' & Hs). congruence.
    - destruct (Hwd p ltac:(lia)) as (d' & Hd' & Hs). congruence. }
  assert (Hletter : forall q c, q < 5 -> nth_error (lit "class") q = Some c ->
            isSpace c = false /\ c <> 40%N).
  { intros q c Hq Hc.
    do 5 (destruct q as [|q];
          [inversion Hc; subst; split; [reflexivity | discriminate]|]).
    lia. }
  destruct (Nat.lt_trichotomy n 5) as [Hlt|[Heq|Hgt]].
  - destruct (nth_error (lit "class") n) as [c|] eqn:Hc;
      [|apply nth_error_None in Hc; simpl in Hc; lia].
    pose proof (Hw n c Hc) as Hs. destruct (Hletter n c Hlt Hc) as [Hns Hnp].
    destruct (Hat (i + n) c Hs) as (A1 & A2 & _).
    destruct m as [|m].
    + apply Hnp, A2. lia.
    + rewrite A1 in Hns by lia. discriminate.
  - subst n. destruct (Nat.lt_ge_cases m k) as [Hmk|Hmk].
    + destruct (Hsp (i + 5 + m) ltac:(lia)) as (d & Hd & Hs).
      destruct (Hat (i + 5 + m) d Hd) as (_ & A2 & _).
      rewrite (A2 eq_refl) in Hs. discriminate.
    + destruct (Hwd (i + 5 + k) ltac:(lia)) as (d & Hd & Hwk).
      destruct (Hat (i + 5 + k) d Hd) as (A1 & A2 & _).
      destruct (Nat.eq_dec m k) as [->|Hne].
      * rewrite (A2 eq_refl) in Hwk. discriminate.
      * apply (space_not_word d); [apply A1; lia | assumption].
  - destruct (Cwd (i + 5) ltac:(lia)) as (d & Hd & Hwk).
    destruct (Hat (i + 5) d Hd) as (_ & _ & _ & A4 & _).
    apply (space_not_word d); [apply A4; lia | assumption].
Qed.

Lemma selectPatterns_cases (programming_language : str) :
  let ps := selectPatterns programming_language in
  ps = jsPatterns \/ ps = pythonPatterns \/ ps = javaPatterns
  \/ ps = genericPatterns.
Proof.
  cbv zeta. unfold selectPatterns.
  destruct (isOneOf _ _); [tauto|].
  destruct (isOneOf _ _); [tauto|].
  destruct (isOneOf _ _); tauto.
Qed.

Lemma class_pattern_shape (programming_language : str) (s : str) (i j : nat) :
  denotes false s (source (classRegex (selectPatterns programming_language))) i j ->
  classShape s i.
Proof.
  destruct (selectPatterns_cases programming_language) as [E|[E|[E|E]]];
    rewrite E; intros H; eapply class_head_shape; exact H.
Qed.

Lemma first_of_word (s : str) (w : string) (i j : nat) (c : char) :
  nth_error (lit w) 0 = Some c ->
  denotes false s (Lit w) i j -> nth_error s i = Some c.
Proof.
  intros Hc H. unfold Lit in H. apply denotes_chars in H.
  destruct H as [Hw _]. specialize (Hw 0 c Hc).
  rewrite Nat.add_0_r in Hw. exact Hw.
Qed.

Lemma first_of_word_then (s : str) (w : string) (r : regex) (i j : nat)
    (c : char) :
  nth_error (lit w) 0 = Some c ->
  denotes false s (Seq (Lit w) r) i j -> nth_error s i = Some c.
Proof.
  intros Hc H. apply denotes_Lit_then in H.
  destruct H as [Hw _]. specialize (Hw 0 c Hc).
  rewrite Nat.add_0_r in Hw. exact Hw.
Qed.

(** What stands at a match of a function pattern: a character other than
    [c], or a call signature. *)
Lemma function_pattern_shape (programming_language : str) (s : str) (i j : nat) :
  denotes false s
    (source (functionRegex (selectPatterns programming_language))) i j ->
  (exists d, nth_error s i = Some d /\ d <> 99%N) \/ callShape s i.
Proof.
  destruct (selectPatterns_cases programming_language) as [E|[E|[E|E]]];
    rewrite E; intros H.
  - left. exists 102%N. split; [|discriminate].
    eapply (first_of_word_then s "function"); [reflexivity | exact H].
  - left. exists 100%N. split; [|discriminate].
    eapply (first_of_word_then s "def"); [reflexivity | exact H].
  - left. cbn [javaPatterns functionRegex source reG] in H.
    unfold javaMember in H. cbn [Cat fold_right] in H.
    inversion H as [ | | | | |r1 r2 i' e k' H1 H2| | | | | | | ]; subst.
    inversion H1 as [ | | | | | | | | | |r i'|r i' j' Ho| ]; subst.
    + apply denotes_plus_class_then in H2. destruct H2 as (e' & He & Hsp & _).
      destruct (Hsp e ltac:(lia)) as (d & Hd & Hp).
      exists d. split; [assumption|]. intros ->. discriminate.
    + inversion Ho as [ | | | | | |r1 r2 i' j' Ha|r1 r2 i' j' Ha| | | | | ]; subst.
      { exists 112%N. split; [|discriminate].
        eapply (first_of_word s "public"); [reflexivity | exact Ha]. }
      inversion Ha as [ | | | | | |r1 r2 i' j' Hb|r1 r2 i' j' Hb| | | | | ]; subst.
      { exists 112%N. split; [|discriminate].
        eapply (first_of_word s "private"); [reflexivity | exact Hb]. }
      inversion Hb as [ | | | | | |r1 r2 i' j' Hc|r1 r2 i' j' Hc| | | | | ]; subst.
      { exists 112%N. split; [|discriminate].
        eapply (first_of_word s "protected"); [reflexivity | exact Hc]. }
      exists 115%N. split; [|discriminate].
      eapply (first_of_word s "static"); [reflexivity | exact Hc].
  - cbn [genericPatterns functionRegex source reG] in H.
    inversion H as [ | | | | | |r1 r2 i' j' Ha|r1 r2 i' j' Ha| | | | | ]; subst.
    { left. exists 102%N. split; [|discriminate].
      eapply (first_of_word_then s "function"); [reflexivity | exact Ha]. }
    inversion Ha as [ | | | | | |r1 r2 i' j' Hb|r1 r2 i' j' Hb| | | | | ]; subst.
    { left. exists 100%N. split; [|discriminate].
      eapply (first_of_word_then s "def"); [reflexivity | exact Hb]. }
    right. eapply call_signature_shape. exact Hb.
Qed.

Lemma loop_patterns_case_sensitive (programming_language : str) :
  ignoreCase (classRegex (selectPatterns programming_language)) = false
  /\ ignoreCase (functionRegex (selectPatterns programming_language)) = false.
Proof.
  destruct (selectPatterns_cases programming_language) as [E|[E|[E|E]]];
    rewrite E; split; reflexivity.
Qed.

(** With the patterns of the source, no function match starts where a
    class match starts: the two intervals of a class block, closed or
    open on the left, hold the same function matches on every run. *)
Lemma function_match_off_class_offset (code programming_language : str)
    (classes : list ClassInfo) (ms : list MatchResult) :
  let ps := selectPatterns programming_language in
  extractClasses code ps = Ret classes ->
  execAll (setLastIndex (functionRegex ps) 0) code = Ret ms ->
  forall cls m, In cls classes -> In m ms -> index m <> cindex cls.
Proof.
  cbv zeta. intros Hc Hf cls m Hcls Hm Heq.
  pose proof (selectPatterns_loop programming_language) as L.
  destruct (loop_patterns_case_sensitive programming_language) as [Ic If].
  unfold extractClasses in Hc.
  destruct (execAll_total (setLastIndex (classRegex (selectPatterns programming_language)) 0)
              code (loop_class_g L) (loop_class_c L)) as (cms & Ec & Wc).
  rewrite Ec in Hc. cbn [bind] in Hc. inversion Hc; subst classes. clear Hc.
  destruct (execAll_total (setLastIndex (functionRegex (selectPatterns programming_language)) 0)
              code (loop_function_g L) (loop_function_c L)) as (fms & Ef & Wf).
  rewrite Ef in Hf. inversion Hf; subst fms. clear Hf.
  apply in_map_iff in Hcls. destruct Hcls as (cm & <- & Hcm).
  rewrite Forall_forall in Wc, Wf.
  pose proof (well_denotes (Wc cm Hcm)) as Dc.
  pose proof (well_denotes (Wf m Hm)) as Df.
  cbn [setLastIndex source ignoreCase] in Dc, Df. rewrite Ic in Dc. rewrite If in Df.
  cbn [classOfMatch cindex] in Heq. rewrite Heq in Df.
  apply class_pattern_shape in Dc. apply function_pattern_shape in Df.
  destruct Df as [(d & Hd & Hne)|Hcall].
  - apply class_starts_with_c in Dc. congruence.
  - exact (class_not_call code (index cm) Dc Hcall).
Qed.

Lemma intervals_agree_on_runs (code programming_language : str)
    (classes : list ClassInfo) (ms : list MatchResult) :
  let ps := selectPatterns programming_language in
  extractClasses code ps = Ret classes ->
  execAll (setLastIndex (functionRegex ps) 0) code = Ret ms ->
  forall m, In m ms ->
    (exists cls, In cls classes /\ inHalfOpenBlock code cls (index m)) <->
    (exists cls, In cls classes /\ strictlyInsideBlock code cls (index m)).
Proof.
  cbv zeta. intros Hc Hf m Hm.
  pose proof (function_match_off_class_offset code programming_language
                classes ms Hc Hf) as Hoff.
  unfold inHalfOpenBlock, strictlyInsideBlock.
  split; intros (cls & Hin & H); exists cls; (split; [assumption|]).
  - specialize (Hoff cls m Hin Hm). lia.
  - lia.
Qed.

(** C5: on every run, a function match is left out of the list of
    top-level functions exactly when its offset lies in the half-open
    interval from the offset of some class found before to the end of
    that class's block.  (The loop tests the left end strictly; no
    function match starts at the offset of a class, so the left end is
    never met.) *)
Theorem function_excluded_iff_in_class_block (code programming_language : str)
    (classes : list ClassInfo) (ms : list MatchResult) :
  extractClasses code (selectPatterns programming_language) = Ret classes ->
  execAll (setLastIndex (functionRegex (selectPatterns programming_language)) 0)
    code = Ret ms ->
  extractFunctions code (selectPatterns programming_language) classes
  = Ret (map functionOfMatch (keptMatches code classes ms))
  /\ forall m, In m ms ->
       (~ In m (keptMatches code classes ms) <->
        exists cls, In cls classes /\ inHalfOpenBlock code cls (index m)).
Proof.
  intros Hc Hf. split.
  - unfold extractFunctions. rewrite Hf. reflexivity.
  - intros m Hm.
    rewrite (intervals_agree_on_runs code programming_language classes ms
               Hc Hf m Hm).
    rewrite <- isInsideClass_iff. unfold keptMatches. rewrite filter_In.
    destruct (isInsideClass code classes (index m)); simpl.
    + split; [reflexivity|]. intros _ [_ H]. discriminate.
    + split; [|discriminate]. intros H. exfalso. apply H. auto.
Qed.

Lemma function_excluded_iff_in_class_block_witness :
  extractClasses methodSample (selectPatterns (lit "javascript"))
  = Ret methodSampleClasses
  /\ execAll (setLastIndex (functionRegex (selectPatterns (lit "javascript"))) 0)
       methodSample = Ret methodSampleMatches
  /\ extractFunctions methodSample (selectPatterns (lit "javascript"))
       methodSampleClasses
     = Ret (map functionOfMatch
              (keptMatches methodSample methodSampleClasses methodSampleMatches))
  /\ forall m, In m methodSampleMatches ->
       (~ In m (keptMatches methodSample methodSampleClasses methodSampleMatches)
        <-> exists cls, In cls methodSampleClasses
                        /\ inHalfOpenBlock methodSample cls (index m)).
Proof.
  assert (H1 : extractClasses methodSample (selectPatterns (lit "javascript"))
               = Ret methodSampleClasses) by (vm_compute; reflexivity).
  assert (H2 : execAll (setLastIndex
                          (functionRegex (selectPatterns (lit "javascript"))) 0)
                 methodSample = Ret methodSampleMatches)
    by (vm_compute; reflexivity).
  split; [exact H1|]. split; [exact H2|].
  exact (function_excluded_iff_in_class_block methodSample (lit "javascript")
           methodSampleClasses methodSampleMatches H1 H2).
Defined.

(** On the sample, [f] lies in the block of [A] and is left out; [g] is
    kept. *)
Lemma method_sample_functions :
  keptMatches methodSample methodSampleClasses methodSampleMatches
  = [mkMatch methodSample 28 38 [(1, (37, 38))]]
  /\ extractFunctions methodSample jsPatterns methodSampleClasses
     = Ret [mkFunction (JStr (lit "g")) 28].
Proof. split; vm_compute; reflexivity. Qed.

(** ** Runs on sample inputs *)

(** C7: for the empty text and the label [python], the text that is
    returned is the one written out here.  Its diagram is the header and
    the fallback box [Implementation]; its summary is the generic
    sentence; nothing follows [Main Classes:] and [Main Functions:], and
    no class and no function is found.  An engine with room for one
    alternative returns the same text. *)
Theorem explain_empty_python :
  let text :=
    nl ++ lit "  # Code Analysis for python Code" ++ nl
    ++ lit "  " ++ nl
    ++ lit "  ## Architecture Diagram" ++ nl
    ++ lit "  ```" ++ nl
    ++ lit "  +----------------------+" ++ nl
    ++ lit "|    Code Structure    |" ++ nl
    ++ lit "+----------------------+" ++ nl
    ++ nl
    ++ lit "    +------------------+" ++ nl
    ++ lit "    |  Implementation  |" ++ nl
    ++ lit "    +------------------+" ++ nl
    ++ nl
    ++ lit "  ```" ++ nl
    ++ lit "  " ++ nl
    ++ lit "  ## Core Functionality" ++ nl
    ++ lit "  This code appears to provide general utility functions or core logic for the application." ++ nl
    ++ lit "  " ++ nl
    ++ lit "  ## Main Classes:" ++ nl
    ++ lit "  " ++ nl
    ++ lit "  " ++ nl
    ++ lit "  ## Main Functions:" ++ nl
    ++ lit "  " ++ nl
    ++ lit "  " ++ nl
    ++ lit "  Would you like me to explain all the functions and classes in detail? Or are you more interested in a specific part?" ++ nl
    ++ lit "  " in
  explainCode [] (lit "python") = Ret text
  /\ fst (Runtime.explainCode 1 [] (lit "python") []) = Ret text
  /\ generateArchitectureDiagram [] (lit "python")
     = Ret (lit "+----------------------+" ++ nl
            ++ lit "|    Code Structure    |" ++ nl
            ++ lit "+----------------------+" ++ nl
            ++ nl
            ++ lit "    +------------------+" ++ nl
            ++ lit "    |  Implementation  |" ++ nl
            ++ lit "    +------------------+" ++ nl)
  /\ extractCoreFunctionality [] (lit "python")
     = lit "This code appears to provide general utility functions or core logic for the application."
  /\ extractComponents [] (lit "python") = Ret ([], []).
Proof. cbv zeta. repeat split; vm_compute; reflexivity. Qed.

(** C2 on the code: the block of a function starts at the word
    [function], so a comment that stands before the declaration is not
    part of it, and the description is the heuristic one. *)
Theorem preceding_comment_not_recovered :
  extractBlock documentedAdd (Z.of_nat (length (sumComment ++ nl)))
  = lit "function add(a, b) { return a + b; }"
  /\ extractComponents documentedAdd (lit "javascript")
     = Ret ([], [mkComponent (JStr (lit "add"))
                   (lit "Add - Processes input parameters and returns a result")]).
Proof. split; vm_compute; reflexivity. Qed.

(** The comment is recovered when it stands inside the block. *)
Lemma inner_comment_recovered :
  extractComponents innerDocumentedAdd (lit "javascript")
  = Ret ([], [mkComponent (JStr (lit "add")) (lit "Computes the sum")]).
Proof. vm_compute. reflexivity. Qed.

(** The scenarios of the specification for inheritance, call edges and
    classification. *)
Lemma inheritance_scenario :
  inheritsOf [mkClass (JStr (lit "Base")) Null 0;
              mkClass (JStr (lit "Child")) (JStr (lit "Base")) 14]
  = [mkRel (JStr (lit "Child")) (JStr (lit "Base")) (lit "inherits")]
  /\ extractClasses inheritanceSample jsPatterns
     = Ret [mkClass (JStr (lit "Base")) Null 0;
            mkClass (JStr (lit "Child")) (JStr (lit "Base")) 14]
  /\ generateArchitectureDiagram inheritanceSample (lit "javascript")
     = Ret (header ++ nl ++ lit "    Classes:" ++ nl
            ++ lit "    +------------------+" ++ nl
            ++ lit "    |  Base            |" ++ nl
            ++ lit "    +------------------+" ++ nl
            ++ extendsLine true
            ++ lit "                 +------------------+" ++ nl
            ++ lit "                 |  Child           |" ++ nl
            ++ lit "                 +------------------+" ++ nl
            ++ nl).
Proof. repeat split; vm_compute; reflexivity. Qed.

Lemma call_edge_scenario :
  callsOf callSample [mkFunction (JStr (lit "a")) 0; mkFunction (JStr (lit "b")) 21]
  = [mkRel (JStr (lit "a")) (JStr (lit "b")) (lit "calls")]
  /\ generateArchitectureDiagram callSample (lit "js")
     = Ret (header ++ nl ++ lit "    Functions:" ++ nl
            ++ lit "    [a] " ++ [9472%N; 9472%N] ++ lit "calls"
            ++ [9472%N; 9472%N] ++ lit "> [b]" ++ nl).
Proof. split; vm_compute; reflexivity. Qed.

Lemma classification_scenario :
  sortedCategories (countMatches networkSample (purposePatterns (lit "go")))
  = ["network"%string]
  /\ extractCoreFunctionality networkSample (lit "go")
     = lit "This code appears to handle network communication, "
       ++ lit "facilitating data exchange with external systems. ".
Proof. split; vm_compute; reflexivity. Qed.

(** ** Pattern objects after a loop, and independence of the label *)

(** The loops leave a pattern object as a fresh literal is: [lastIndex]
    is 0 again when [exec] has returned [null]. *)
Lemma execLoop_restores (s : str) :
  forall fuel re ms re',
    global re = true -> execLoop fuel re s = Ret (ms, re') ->
    re' = setLastIndex re 0.
Proof.
  induction fuel as [|fuel IH]; intros re ms re' Hg H; [discriminate|].
  cbn [execLoop] in H. destruct (exec re s) as [[m|] re1] eqn:E.
  - apply exec_some in E. destruct E as (_ & _ & ->). rewrite Hg in H.
    destruct (execLoop fuel (setLastIndex re (matchEnd m)) s)
      as [[ms1 re2]| |] eqn:E2; try discriminate.
    cbn [bind fst snd] in H. inversion H; subst.
    apply IH in E2; [|exact Hg]. rewrite E2. reflexivity.
  - inversion H; subst. unfold exec in E. rewrite Hg in E.
    destruct (Nat.ltb (length s) (lastIndex re)); [inversion E; reflexivity|].
    destruct (search _ _ _ _ _) as [[idx [e cs]]|]; inversion E; reflexivity.
Qed.

(** C9: the components do not depend on the language label, which
    [extractComponents] never reads; a Python [def] is found under no
    label. *)
Theorem extractComponents_ignores_language (code l1 l2 : str) :
  extractComponents code l1 = extractComponents code l2
  /\ extractComponents pythonDef l1 = Ret ([], []).
Proof. split; [reflexivity | vm_compute; reflexivity]. Qed.

(** ** The secondary clause of the summary *)

Lemma purposePatterns_keys (programming_language : str) :
  map fst (purposePatterns programming_language) = purposeNames.
Proof.
  unfold purposePatterns, languageProbes.
  repeat (destruct (isOneOf _ _); [reflexivity|]). reflexivity.
Qed.

Lemma countMatches_keys (code : str) (table : list (string * list RegExp)) :
  map fst (countMatches code table) = map fst table.
Proof.
  unfold countMatches. rewrite map_map. reflexivity.
Qed.

Lemma insertDesc_In (e x : string * nat) (l : list (string * nat)) :
  In x (insertDesc e l) <-> x = e \/ In x l.
Proof.
  induction l as [|y l IH]; cbn [insertDesc].
  - simpl. intuition congruence.
  - destruct (Nat.leb (snd y) (snd e)); simpl in *; intuition congruence.
Qed.

Lemma sortDesc_In (x : string * nat) (l : list (string * nat)) :
  In x (sortDesc l) <-> In x l.
Proof.
  induction l as [|y l IH]; [reflexivity|].
  cbn [sortDesc fold_right]. rewrite insertDesc_In.
  fold (sortDesc l). rewrite IH. simpl. intuition congruence.
Qed.

Lemma sortedCategories_keys (matchCounts : list (string * nat)) (s : string) :
  In s (sortedCategories matchCounts) -> In s (map fst matchCounts).
Proof.
  unfold sortedCategories. intros H. apply in_map_iff in H.
  destruct H as (e & <- & He). apply filter_In in He. destruct He as [He _].
  rewrite sortDesc_In in He. apply in_map. exact He.
Qed.

Lemma ranked_purpose (code programming_language : str) (s : string) :
  In s (sortedCategories
          (countMatches code (purposePatterns programming_language))) ->
  In s purposeNames.
Proof.
  intros H. apply sortedCategories_keys in H.
  rewrite countMatches_keys, purposePatterns_keys in H. exact H.
Qed.

Lemma purposeNames_named (s : string) :
  In s purposeNames -> String.eqb s "" = false /\ secondaryName s <> [].
Proof.
  intros H. simpl in H.
  repeat (destruct H as [<-|H]; [split; [reflexivity | discriminate]|]).
  contradiction.
Qed.



(** The clause on two texts: with a second score of 2 it is there, with a
    second score of 1 it is not. *)
Lemma secondary_clause_samples :
  countMatches uiNetworkSample (purposePatterns (lit "go"))
  = [("network", 2); ("ui", 3); ("dataProcessing", 0); ("authentication", 0);
     ("database", 0); ("testing", 0); ("algorithm", 0); ("fileSystem", 0)]%string
  /\ extractCoreFunctionality uiNetworkSample (lit "go")
     = lit "This code appears to implement a user interface "
       ++ lit "that communicates with external services. "
       ++ lit "It also includes functionality for network communication."
  /\ countMatches uiFetchSample (purposePatterns (lit "go"))
     = [("network", 1); ("ui", 2); ("dataProcessing", 0); ("authentication", 0);
        ("database", 0); ("testing", 0); ("algorithm", 0); ("fileSystem", 0)]%string
  /\ extractCoreFunctionality uiFetchSample (lit "go")
     = lit "This code appears to implement a user interface "
       ++ lit "that communicates with external services. ".
Proof. repeat split; vm_compute; reflexivity. Qed.

(** ** The two passes over the classes *)

Lemma mapM_In (A B : Type) (f : A -> outcome B) (l : list A) (bs : list B) (a : A) :
  mapM f l = Ret bs -> In a l -> exists b, f a = Ret b /\ In b bs.
Proof.
  revert bs. induction l as [|x l IH]; intros bs H Ha; [contradiction|].
  cbn [mapM] in H. destruct (f x) as [b| |] eqn:Hx; try discriminate.
  cbn [bind] in H. destruct (mapM f l) as [bs'| |] eqn:Hl; try discriminate.
  cbn [bind] in H. inversion H; subst. destruct Ha as [->|Ha].
  - exists b. split; [assumption | left; reflexivity].
  - destruct (IH bs' eq_refl Ha) as (b' & Hb' & Hin).
    exists b'. split; [assumption | right; assumption].
Qed.

Lemma occurs_concat (b : str) (parts : list str) :
  In b parts -> occurs b (concat parts).
Proof.
  induction parts as [|x parts IH]; intros H; [contradiction|].
  cbn [concat]. destruct H as [->|H].
  - exists [], (concat parts). reflexivity.
  - destruct (IH H) as (pre & post & ->).
    exists (x ++ pre), post. rewrite <- app_assoc. reflexivity.
Qed.

Lemma occurs_trans (a b c : str) : occurs a b -> occurs b c -> occurs a c.
Proof.
  intros (p1 & q1 & ->) (p2 & q2 & ->).
  exists (p2 ++ p1), (q1 ++ q2). rewrite <- !app_assoc. reflexivity.
Qed.

Lemma renderPasses_total (classes : list ClassInfo) :
  Forall named classes ->
  exists parts1 parts2,
    mapM (renderParent classes) (parentClasses classes) = Ret parts1
    /\ mapM (fun cls => box indent4 (cname cls)) (standaloneClasses classes)
       = Ret parts2.
Proof.
  intros Hall.
  destruct (mapM_total _ _ (renderParent classes) (parentClasses classes))
    as (p1 & H1).
  { intros c Hc. apply renderParent_total; [assumption|].
    apply filter_In in Hc. rewrite Forall_forall in Hall. apply Hall. tauto. }
  destruct (mapM_total _ _ (fun cls => box indent4 (cname cls))
              (standaloneClasses classes)) as (p2 & H2).
  { intros c Hc. apply box_named.
    apply filter_In in Hc. rewrite Forall_forall in Hall. apply Hall. tauto. }
  exists p1, p2. split; assumption.
Qed.

Lemma standalone_in_both (classes : list ClassInfo) (c : ClassInfo) :
  standalone classes c ->
  In c (parentClasses classes) /\ In c (standaloneClasses classes).
Proof.
  intros (Hin & Hp & Hno). unfold parentClasses, standaloneClasses.
  rewrite !filter_In, Hp. repeat split; try assumption.
  cbn [negb andb]. apply negb_true_iff.
  destruct (existsb _ classes) eqn:E; [|reflexivity].
  apply existsb_exists in E. destruct E as (other & Ho & Heq).
  rewrite (Hno other Ho) in Heq. discriminate.
Qed.

(** Every class without a parent that no other class names as its
    parent is drawn by the pass over the parent classes and again by the
    pass over the standalone classes, and the diagram holds the output
    of the first pass followed by the output of the second. *)
Lemma standalone_class_in_both_passes (code programming_language : str) :
  exists classes p1 p2 diagram,
    extractClasses code (selectPatterns programming_language) = Ret classes
    /\ renderParentPass classes = Ret p1
    /\ renderStandalonePass classes = Ret p2
    /\ generateArchitectureDiagram code programming_language = Ret diagram
    /\ forall c, standalone classes c ->
         exists b pre post,
           box indent4 (cname c) = Ret b
           /\ b <> []
           /\ occurs b p1 /\ occurs b p2
           /\ diagram = pre ++ p1 ++ p2 ++ post.
Proof.
  pose proof (selectPatterns_loop programming_language) as L.
  destruct (extractClasses_total code _ L) as (classes & Hcls & Hnamed).
  destruct (renderPasses_total classes Hnamed) as (parts1 & parts2 & H1 & H2).
  destruct (extractFunctions_total code _ classes L) as (fs & Hfs).
  destruct (extractImports_total code _ L) as (imports & Him).
  exists classes, (concat parts1), (concat parts2).
  exists (header ++ renderImports imports
          ++ (if Nat.ltb 0 (length classes)
              then nl ++ lit "    Classes:" ++ nl
                   ++ concat parts1 ++ concat parts2
              else [])
          ++ renderFunctions fs (inheritsOf classes ++ callsOf code fs)
          ++ renderFallback classes fs).
  split; [exact Hcls|].
  split; [unfold renderParentPass; rewrite H1; reflexivity|].
  split; [unfold renderStandalonePass; rewrite H2; reflexivity|].
  split.
  { unfold generateArchitectureDiagram. rewrite Hcls. cbn [bind].
    rewrite Hfs. cbn [bind]. rewrite Him. cbn [bind].
    unfold renderDiagram, renderClasses, renderParentPass, renderStandalonePass.
    rewrite H1, H2. cbn [bind].
    destruct (Nat.ltb 0 (length classes)); cbn [bind]; reflexivity. }
  intros c Hc. pose proof Hc as (Hin & _).
  destruct (standalone_in_both classes c Hc) as [Hp Hs].
  destruct (mapM_In _ _ _ _ _ c H1 Hp) as (out & Hout & Hin1).
  destruct (mapM_In _ _ _ _ _ c H2 Hs) as (b & Hb & Hin2).
  unfold renderParent in Hout. rewrite Hb in Hout. cbn [bind] in Hout.
  destruct (renderChildren (childClasses classes c)) as [kids| |];
    try discriminate.
  cbn [bind] in Hout. inversion Hout; subst out.
  exists b.
  exists (header ++ renderImports imports ++ nl ++ lit "    Classes:" ++ nl).
  exists (renderFunctions fs (inheritsOf classes ++ callsOf code fs)
          ++ renderFallback classes fs).
  split; [exact Hb|]. split.
  { unfold box in Hb. destruct (padEndV (cname c) 14); try discriminate.
    cbn [bind] in Hb. inversion Hb. discriminate. }
  split.
  { apply (occurs_trans b (b ++ kids ++ nl)).
    - exists [], (kids ++ nl). reflexivity.
    - apply occurs_concat. exact Hin1. }
  split; [apply occurs_concat; exact Hin2|].
  destruct classes as [|c0 classes']; [contradiction|].
  cbn [length Nat.ltb Nat.leb]. rewrite <- !app_assoc. reflexivity.
Qed.

(** The diagram of [class Solo {}]: the box of [Solo] once from each
    pass, with the blank line that ends the first pass between them. *)
Lemma solo_class_diagram :
  generateArchitectureDiagram soloClass (lit "javascript")
  = Ret (header ++ nl ++ lit "    Classes:" ++ nl
         ++ (soloBox ++ nl) ++ soloBox).
Proof. vm_compute. reflexivity. Qed.

(** * Further properties of the analysis *)

(** ** Blocks as pieces of the text *)

Lemma clamp_le (len : nat) (z : Z) : clamp len z <= len.
Proof. unfold clamp. lia. Qed.

Lemma clamp_of_nat (len n : nat) : n <= len -> clamp len (Z.of_nat n) = n.
Proof. unfold clamp. intros H. rewrite Nat2Z.id. lia. Qed.

Lemma substring_slice (s : str) (a : Z) (e : nat) :
  clamp (length s) a <= e -> e <= length s ->
  substring s a (Z.of_nat e) = slice s (clamp (length s) a) e.
Proof.
  intros H1 H2. unfold substring, slice.
  rewrite (clamp_of_nat (length s) e H2).
  rewrite Nat.min_l, Nat.max_r by lia. reflexivity.
Qed.

Lemma slice_length (s : str) (a b : nat) :
  a <= b -> b <= length s -> length (slice s a b) = b - a.
Proof.
  intros H1 H2. unfold slice. rewrite length_firstn, length_skipn. lia.
Qed.

Lemma firstn_plus (A : Type) (n m : nat) (l : list A) :
  firstn (n + m) l = firstn n l ++ firstn m (skipn n l).
Proof.
  revert l. induction n as [|n IH]; intros l; [reflexivity|].
  destruct l as [|x l]; [cbn [skipn]; rewrite !firstn_nil; reflexivity|].
  cbn [Nat.add firstn skipn app]. f_equal. apply IH.
Qed.

Lemma slice_split (s : str) (a m b : nat) :
  a <= m -> m <= b -> slice s a b = slice s a m ++ slice s m b.
Proof.
  intros H1 H2. unfold slice.
  replace (b - a) with ((m - a) + (b - m)) by lia.
  rewrite firstn_plus. f_equal. rewrite skipn_skipn.
  replace (m - a + a) with m by lia. reflexivity.
Qed.

Lemma slice_to_end (s : str) (a : nat) : slice s a (length s) = skipn a s.
Proof.
  unfold slice. apply firstn_all2. rewrite length_skipn. lia.
Qed.

(** Where the block ends: after the closing brace, or at the end of the
    text. *)
Lemma extractBlock_cases (code : str) (startIndex : Z) :
  (firstBrace code startIndex = None /\ extractBlock code startIndex = [])
  \/ exists o e,
       firstBrace code startIndex = Some o
       /\ clamp (length code) startIndex <= o /\ o < e /\ e <= length code
       /\ nth_error code o = Some LBRACE
       /\ extractBlock code startIndex
          = slice code (clamp (length code) startIndex) e
       /\ (closingBrace code o = Some (e - 1)
           \/ closingBrace code o = None /\ e = length code).
Proof.
  rewrite extractBlock_blockSpec. unfold blockSpec.
  destruct (firstBrace code startIndex) as [o|] eqn:Ho; [right | left; auto].
  pose proof (firstBrace_spec code startIndex o Ho) as [Hb Hn].
  destruct (closingBrace code o) as [j|] eqn:Hj.
  - pose proof (least_bounds _ _ _ _ Hj) as [Hjb _].
    exists o, (S j). repeat split; try lia; try assumption.
    + apply substring_slice; lia.
    + left. rewrite Hj. f_equal. lia.
  - exists o, (length code). repeat split; try lia; try assumption.
    + apply substring_slice; lia.
    + right. auto.
Qed.

(** The block is a piece of the text that starts at the start index: it
    never holds text from before it, and what follows it is the rest of
    the text. *)
Theorem extractBlock_prefix_of_rest (code : str) (startIndex : Z) :
  exists rest,
    substring_from code startIndex = extractBlock code startIndex ++ rest.
Proof.
  unfold substring_from.
  destruct (extractBlock_cases code startIndex)
    as [[_ ->]|(o & e & _ & Hs & Ho & He & _ & -> & _)].
  - eexists. reflexivity.
  - exists (skipn e code).
    rewrite <- (slice_to_end code (clamp (length code) startIndex)).
    rewrite <- (slice_to_end code e).
    apply slice_split; lia.
Qed.

(** The block is empty exactly when no opening brace stands at or after
    the start index. *)
Theorem extractBlock_empty_iff_no_brace (code : str) (startIndex : Z) :
  extractBlock code startIndex = [] <->
  forall i : nat, (startIndex <= Z.of_nat i)%Z -> nth_error code i <> Some LBRACE.
Proof.
  split.
  - intros Hempty i Hi Hbrace.
    destruct (extractBlock_cases code startIndex)
      as [[Hnone _]|(o & e & _ & Hs & Ho & He & _ & Hb & _)].
    + unfold firstBrace in Hnone.
      assert (Hlen : i < length code) by (apply nth_error_Some; congruence).
      assert (Hst : clamp (length code) startIndex <= i)
        by (unfold clamp; lia).
      pose proof (least_none_all _ _ _ Hnone i ltac:(lia)) as Hf.
      unfold isBraceAt in Hf. rewrite Hbrace, N.eqb_refl in Hf. discriminate.
    + rewrite Hb in Hempty. apply (f_equal (@length char)) in Hempty.
      rewrite slice_length in Hempty by lia. simpl in Hempty. lia.
  - intros H. rewrite extractBlock_blockSpec. unfold blockSpec.
    rewrite (firstBrace_none code startIndex H). reflexivity.
Qed.

Lemma nth_error_slice (s : str) (a b n : nat) :
  nth_error (slice s a b) n =
  if Nat.ltb n (b - a) then nth_error s (a + n) else None.
Proof.
  unfold slice. rewrite nth_error_firstn, nth_error_skipn. reflexivity.
Qed.

Lemma slice_slice (s : str) (st e a b : nat) :
  st + b <= e -> slice (slice s st e) a b = slice s (st + a) (st + b).
Proof.
  intros H. apply nth_error_ext. intros n. rewrite !nth_error_slice.
  replace (st + b - (st + a)) with (b - a) by lia.
  destruct (Nat.ltb_spec n (b - a)); [|reflexivity].
  destruct (Nat.ltb_spec (a + n) (e - st)); [|lia].
  f_equal. lia.
Qed.

Lemma slice_all (s : str) : slice s 0 (length s) = s.
Proof. rewrite slice_to_end. reflexivity. Qed.

Lemma least_shift (p q : nat -> bool) (a : nat) :
  forall n from,
    (forall k, from <= k < from + n -> p k = q (a + k)) ->
    least p from n = option_map (fun j => j - a) (least q (a + from) n).
Proof.
  induction n as [|n IH]; intros from H; [reflexivity|].
  cbn [least]. rewrite (H from) by lia.
  destruct (q (a + from)).
  - simpl. f_equal. lia.
  - replace (S (a + from)) with (a + S from) by lia.
    apply IH. intros k Hk. apply H. lia.
Qed.

Lemma least_restrict (p : nat -> bool) :
  forall n m from j,
    least p from n = Some j -> j < from + m -> least p from m = Some j.
Proof.
  induction n as [|n IH]; intros m from j H Hj; [discriminate|].
  pose proof (least_bounds _ _ _ _ H) as [Hb _].
  cbn [least] in H. destruct m as [|m]; [lia|].
  cbn [least]. destruct (p from) eqn:E; [exact H|].
  pose proof (least_bounds _ _ _ _ H) as [Hb' _].
  apply (IH m (S from) j H). lia.
Qed.

Lemma least_none_restrict (p : nat -> bool) :
  forall n m from, least p from n = None -> m <= n -> least p from m = None.
Proof.
  intros n m from H Hm.
  destruct (least p from m) as [j|] eqn:E; [|reflexivity].
  pose proof (least_bounds _ _ _ _ E) as [Hb Hp].
  rewrite (least_none_all _ _ _ H j) in Hp by lia. discriminate.
Qed.

(** ** Extracting the block of a block *)

Lemma isBraceAt_slice (s : str) (st e n : nat) :
  n < e - st -> isBraceAt (slice s st e) n = isBraceAt s (st + n).
Proof.
  intros H. unfold isBraceAt. rewrite nth_error_slice.
  destruct (Nat.ltb_spec n (e - st)); [reflexivity | lia].
Qed.

Lemma depthAt_slice (s : str) (st e o j : nat) :
  st + S j <= e ->
  depthAt (slice s st e) o j = depthAt s (st + o) (st + j).
Proof.
  intros H. unfold depthAt. rewrite slice_slice by lia.
  replace (st + S j) with (S (st + j)) by lia. reflexivity.
Qed.

(** Extracting again from a block gives the block: it stands on its
    own, with the same opening and closing brace. *)
Theorem extractBlock_of_block (code : str) (startIndex : Z) :
  extractBlock (extractBlock code startIndex) 0 = extractBlock code startIndex.
Proof.
  destruct (extractBlock_cases code startIndex)
    as [[_ ->]|(o & e & Hfirst & Hs & Ho & He & Hbrace & -> & Hclose)];
    [reflexivity|].
  set (st := clamp (length code) startIndex) in *.
  set (B := slice code st e).
  assert (HlenB : length B = e - st) by (apply slice_length; lia).
  rewrite extractBlock_blockSpec. unfold blockSpec.
  assert (HfB : firstBrace B 0 = Some (o - st)).
  { unfold firstBrace. replace (clamp (length B) 0) with 0 by (unfold clamp; simpl; lia).
    rewrite Nat.sub_0_r, HlenB.
    rewrite (least_shift (isBraceAt B) (isBraceAt code) st (e - st) 0).
    - rewrite Nat.add_0_r. unfold firstBrace in Hfirst. fold st in Hfirst.
      rewrite (least_restrict _ _ (e - st) _ _ Hfirst) by lia. reflexivity.
    - intros k Hk. apply isBraceAt_slice. lia. }
  rewrite HfB.
  assert (Hshift : least (fun j => (depthAt B (o - st) j =? 0)%Z)
                     (S (o - st)) (length B - S (o - st))
                   = option_map (fun j => j - st)
                       (least (fun j => (depthAt code o j =? 0)%Z)
                          (S o) (e - S o))).
  { rewrite (least_shift _ (fun j => (depthAt code o j =? 0)%Z) st).
    - replace (st + S (o - st)) with (S o) by lia.
      replace (length B - S (o - st)) with (e - S o) by lia. reflexivity.
    - intros k Hk. unfold B. rewrite depthAt_slice by lia.
      replace (st + (o - st)) with o by lia. reflexivity. }
  unfold closingBrace at 1. rewrite Hshift.
  destruct Hclose as [Hj|[Hnone ->]].
  - unfold closingBrace in Hj.
    rewrite (least_restrict _ _ (e - S o) _ _ Hj) by lia. cbn [option_map].
    rewrite substring_slice; [|unfold clamp; simpl; lia|lia].
    replace (clamp (length B) 0) with 0 by (unfold clamp; simpl; lia).
    replace (S (e - 1 - st)) with (length B) by lia. apply slice_all.
  - unfold closingBrace in Hnone.
    rewrite (least_none_restrict _ _ (length code - S o) _ Hnone) by lia.
    cbn [option_map].
    rewrite substring_slice; [|unfold clamp; simpl; lia|lia].
    replace (clamp (length B) 0) with 0 by (unfold clamp; simpl; lia).
    apply slice_all.
Qed.

(** ** Blocks that close *)

(** A block that stops before the end of the text is made of a lead-in
    without an opening brace (closing braces may stand in it) followed by
    a balanced stretch: it opens with a brace, ends with the closing
    brace, its depth is zero, and the depth of every shorter stretch from
    the opening brace is positive. *)
Theorem closed_block_balanced (code : str) (startIndex : Z) :
  extractBlock code startIndex <> [] ->
  length (extractBlock code startIndex)
  < length (substring_from code startIndex) ->
  exists pre body,
    extractBlock code startIndex = pre ++ body
    /\ Forall (fun c => c <> LBRACE) pre
    /\ hd_error body = Some LBRACE
    /\ last body LBRACE = RBRACE
    /\ depth body = 0%Z
    /\ forall n, 0 < n < length body -> (0 < depth (firstn n body))%Z.
Proof.
  intros Hne Hshort.
  destruct (extractBlock_cases code startIndex)
    as [[_ Hemp]|(o & e & Hfirst & Hs & Ho & He & Hbrace & Hb & Hclose)];
    [contradiction|].
  set (st := clamp (length code) startIndex) in *.
  rewrite Hb in *. unfold substring_from in Hshort. fold st in Hshort.
  rewrite slice_length, length_skipn in Hshort by lia.
  destruct Hclose as [Hj|[_ ->]]; [|lia].
  destruct e as [|j]; [lia|]. replace (S j - 1) with j in Hj by lia.
  pose proof (closingBrace_is_brace code o j Hbrace Hj) as Hlast.
  unfold closingBrace in Hj.
  pose proof (least_is_least _ _ _ _ Hj) as Hmin.
  pose proof (least_bounds _ _ _ _ Hj) as [Hjb Hzero].
  apply Z.eqb_eq in Hzero.
  exists (slice code st o), (slice code o (S j)).
  split; [apply slice_split; lia|]. split.
  { apply Forall_forall. intros c Hc Heq. subst c.
    apply In_nth_error in Hc. destruct Hc as (n & Hn).
    rewrite nth_error_slice in Hn.
    destruct (Nat.ltb_spec n (o - st)) as [Hlt|]; [|discriminate].
    unfold firstBrace in Hfirst. fold st in Hfirst.
    pose proof (least_is_least _ _ _ _ Hfirst (st + n) ltac:(lia)) as Hf.
    unfold isBraceAt in Hf. rewrite Hn, N.eqb_refl in Hf. discriminate. }
  split.
  { rewrite <- nth_error_0, nth_error_slice.
    destruct (Nat.ltb_spec 0 (S j - o)); [|lia].
    rewrite Nat.add_0_r. exact Hbrace. }
  split.
  { rewrite (slice_snoc code o j RBRACE ltac:(lia) Hlast). apply last_last. }
  split; [exact Hzero|].
  intros n Hn. rewrite slice_length in Hn by lia.
  assert (Hpre : firstn n (slice code o (S j)) = slice code o (S (o + n - 1))).
  { unfold slice. rewrite firstn_firstn. f_equal. lia. }
  rewrite Hpre.
  apply (depth_positive_before code o j Hbrace ltac:(lia)); [|lia].
  intros k Hk. apply Z.eqb_neq. apply Hmin. lia.
Qed.

Lemma closed_block_balanced_witness :
  extractBlock (lit "f() { if (x) { y } } z") 0 <> []
  /\ length (extractBlock (lit "f() { if (x) { y } } z") 0)
     < length (substring_from (lit "f() { if (x) { y } } z") 0)
  /\ exists pre body,
       extractBlock (lit "f() { if (x) { y } } z") 0 = pre ++ body
       /\ Forall (fun c => c <> LBRACE) pre
       /\ hd_error body = Some LBRACE
       /\ last body LBRACE = RBRACE
       /\ depth body = 0%Z
       /\ forall n, 0 < n < length body -> (0 < depth (firstn n body))%Z.
Proof.
  assert (H1 : extractBlock (lit "f() { if (x) { y } } z") 0 <> [])
    by (vm_compute; discriminate).
  assert (H2 : length (extractBlock (lit "f() { if (x) { y } } z") 0)
               < length (substring_from (lit "f() { if (x) { y } } z") 0))
    by (vm_compute; lia).
  split; [exact H1|]. split; [exact H2|].
  exact (closed_block_balanced _ 0%Z H1 H2).
Defined.

(** ** Names are never undefined or empty *)

Lemma okSpan_cons_other (s : str) (caps : captures) (m n : nat) (span : nat * nat) :
  m <> n -> okSpan s caps n -> okSpan s ((m, span) :: caps) n.
Proof.
  intros Hne H a b. cbn [cap_lookup].
  destruct (Nat.eqb_spec m n); [contradiction|]. apply H.
Qed.

Lemma delivers_here (s : str) (r : regex) (i : nat) (caps : captures) :
  i <= length s -> consumes r = false -> (forall ns, bindsSome ns r = false) ->
  delivers s r i caps i caps.
Proof.
  intros Hi Hc Hb. constructor; try lia.
  - rewrite Hc. discriminate.
  - apply extends_refl.
  - auto.
  - intros ns Hn. rewrite Hb in Hn. discriminate.
Qed.

Lemma delivers_step (s : str) (r : regex) (i : nat) (caps : captures) (d : char) :
  nth_error s i = Some d -> (forall ns, bindsSome ns r = false) ->
  delivers s r i caps (S i) caps.
Proof.
  intros Hd Hb.
  assert (i < length s) by (apply nth_error_Some; congruence).
  constructor; try lia.
  - apply extends_refl.
  - auto.
  - intros ns Hn. rewrite Hb in Hn. discriminate.
Qed.

Lemma rounds_delivering (s : str) (r : regex) (greedy : bool)
    (once : nat -> captures -> cont -> option mstate) (k : cont) :
  delivering s r once ->
  forall fuel i caps res,
    i <= length s ->
    rounds once greedy k fuel i caps = Some res ->
    exists j caps',
      k j caps' = Some res /\ delivers s (Star greedy r) i caps j caps'.
Proof.
  intros Hd. induction fuel as [|fuel IH]; intros i caps res Hi H.
  - simpl in H. exists i, caps. split; [assumption|].
    apply delivers_here; auto.
  - rewrite rounds_S in H. cbv zeta in H.
    assert (Hcases :
      once i caps
        (fun j caps' =>
           if Nat.ltb i j then rounds once greedy k fuel j caps' else None)
      = Some res \/ k i caps = Some res).
    { destruct greedy; apply orelse_inv in H; tauto. }
    destruct Hcases as [Hmore|Hk].
    + apply Hd in Hmore; [|assumption].
      destruct Hmore as (j & caps1 & Hj & D1).
      destruct (Nat.ltb_spec i j) as [Hlt|]; [|discriminate].
      destruct D1 as [L1 T1 E1 S1 B1].
      apply IH in Hj; [|lia]. destruct Hj as (j2 & caps2 & Hk2 & D2).
      destruct D2 as [L2 T2 E2 S2 B2].
      exists j2, caps2. split; [assumption|].
      constructor; try lia; try (simpl; discriminate).
      * eapply extends_trans; eassumption.
      * cbn [fills]. intros n Hn Hok. apply S2; [exact Hn|]. apply S1; assumption.
    + exists i, caps. split; [assumption|]. apply delivers_here; auto.
Qed.

(** The matcher stays in the text, and a group that wraps a consuming
    pattern is set to a non-empty stretch of the text. *)
Lemma rmatch_delivering (ic : bool) (s : str) (r : regex) :
  delivering s r (fun i caps k => rmatch ic s r i caps k).
Proof.
  induction r as [ |c|neg items| | |r1 IH1 r2 IH2|r1 IH1 r2 IH2
                 |greedy r1 IH1|r1 IH1|n r1 IH1];
    intros i caps k res Hi H; cbn [rmatch] in H.
  - exists i, caps. split; [assumption|]. apply delivers_here; auto.
  - apply step_inv in H. destruct H as (d & Hd & _ & Hk).
    exists (S i), caps. split; [assumption|].
    apply (delivers_step s _ i caps d Hd). reflexivity.
  - apply step_inv in H. destruct H as (d & Hd & _ & Hk).
    exists (S i), caps. split; [assumption|].
    apply (delivers_step s _ i caps d Hd). reflexivity.
  - apply step_inv in H. destruct H as (d & Hd & _ & Hk).
    exists (S i), caps. split; [assumption|].
    apply (delivers_step s _ i caps d Hd). reflexivity.
  - destruct (Nat.eqb i 0); [|discriminate].
    exists i, caps. split; [assumption|]. apply delivers_here; auto.
  - apply IH1 in H; [|assumption]. destruct H as (j1 & caps1 & H & D1).
    destruct D1 as [L1 T1 E1 S1 B1].
    apply IH2 in H; [|lia]. destruct H as (j2 & caps2 & H & D2).
    destruct D2 as [L2 T2 E2 S2 B2].
    exists j2, caps2. split; [assumption|]. constructor; try lia.
    + cbn [consumes]. intros Hc. apply orb_true_iff in Hc.
      destruct Hc as [Hc|Hc]; [apply T1 in Hc | apply T2 in Hc]; lia.
    + eapply extends_trans; eassumption.
    + cbn [fills]. intros n Hn Hok. apply andb_true_iff in Hn.
      apply S2; [tauto|]. apply S1; tauto.
    + cbn [bindsSome]. intros ns Hn. apply orb_true_iff in Hn.
      destruct Hn as [Hn|Hn].
      * destruct (B1 ns Hn) as (n & Hin & Hset). exists n. split; [assumption|].
        apply E2. exact Hset.
      * apply B2. exact Hn.
  - apply orelse_inv in H. destruct H as [H|H].
    + apply IH1 in H; [|assumption]. destruct H as (j & caps' & H & D).
      exists j, caps'. split; [assumption|].
      destruct D as [L T E S B]. constructor; try assumption.
      * cbn [consumes]. intros Hc. apply andb_true_iff in Hc. tauto.
      * cbn [fills]. intros n Hn. apply andb_true_iff in Hn. apply S. tauto.
      * cbn [bindsSome]. intros ns Hn. apply andb_true_iff in Hn. apply B. tauto.
    + apply IH2 in H; [|assumption]. destruct H as (j & caps' & H & D).
      exists j, caps'. split; [assumption|].
      destruct D as [L T E S B]. constructor; try assumption.
      * cbn [consumes]. intros Hc. apply andb_true_iff in Hc. tauto.
      * cbn [fills]. intros n Hn. apply andb_true_iff in Hn. apply S. tauto.
      * cbn [bindsSome]. intros ns Hn. apply andb_true_iff in Hn. apply B. tauto.
  - apply (rounds_delivering s r1 greedy _ k IH1) in H; assumption.
  - apply orelse_inv in H. destruct H as [H|H].
    + apply IH1 in H; [|assumption]. destruct H as (j & caps' & H & D).
      destruct (Nat.ltb i j); [|discriminate].
      exists j, caps'. split; [assumption|].
      destruct D as [L T E S B]. constructor; try assumption;
        simpl; discriminate.
    + exists i, caps. split; [assumption|]. apply delivers_here; auto.
  - apply IH1 in H; [|assumption]. destruct H as (j & caps' & H & D).
    exists j, ((n, (i, j)) :: caps'). split; [assumption|].
    destruct D as [L T E S B]. constructor; try assumption.
    + eapply extends_trans; [exact E | apply extends_cons].
    + cbn [fills]. intros m Hm Hok. apply andb_true_iff in Hm.
      destruct Hm as [Hc Hf]. destruct (Nat.eqb_spec n m) as [->|Hne].
      * intros a b Hl. cbn [cap_lookup] in Hl. rewrite Nat.eqb_refl in Hl.
        inversion Hl; subst. split; [apply T; exact Hc | lia].
      * apply okSpan_cons_other; [assumption|]. apply S; assumption.
    + cbn [bindsSome]. intros ns Hn. apply orb_true_iff in Hn.
      destruct Hn as [Hn|Hn].
      * apply existsb_exists in Hn. destruct Hn as (m & Hin & Hm).
        apply Nat.eqb_eq in Hm. subst m. exists n. split; [assumption|].
        simpl. rewrite Nat.eqb_refl. discriminate.
      * destruct (B ns Hn) as (m & Hin & Hset). exists m. split; [assumption|].
        apply extends_cons. exact Hset.
Qed.

Lemma search_delivers (ic : bool) (s : str) (r : regex) :
  forall fuel i idx e cs,
    i + fuel <= length s ->
    search ic s r fuel i = Some (idx, (e, cs)) ->
    delivers s r idx [] e cs.
Proof.
  assert (Hat : forall i e cs, i <= length s ->
            rmatch ic s r i [] accept = Some (e, cs) -> delivers s r i [] e cs).
  { intros i e cs Hi E. apply rmatch_delivering in E; [|assumption].
    destruct E as (j & caps' & Ha & D). inversion Ha; subst. assumption. }
  induction fuel as [|fuel IH]; intros i idx e cs Hi H; cbn [search] in H.
  - destruct (rmatch ic s r i [] accept) as [st|] eqn:E; [|discriminate].
    inversion H; subst. apply Hat; [lia | assumption].
  - destruct (rmatch ic s r i [] accept) as [st|] eqn:E.
    + inversion H; subst. apply Hat; [lia | assumption].
    + apply IH in H; [assumption | lia].
Qed.

Lemma exec_delivers (re re' : RegExp) (s : str) (m : MatchResult) :
  exec re s = (Some m, re') ->
  input m = s /\ delivers s (source re) (index m) [] (matchEnd m) (caps m).
Proof.
  unfold exec. intros H.
  destruct (Nat.ltb_spec (length s) (if global re then lastIndex re else 0))
    as [|Hle]; [discriminate|].
  destruct (search (ignoreCase re) s (source re)
              (length s - (if global re then lastIndex re else 0))
              (if global re then lastIndex re else 0))
    as [[idx [e cs]]|] eqn:E; [|discriminate].
  inversion H; subst; clear H. apply search_delivers in E; [|lia].
  split; [reflexivity | exact E].
Qed.

Lemma execLoop_delivers (s : str) :
  forall fuel re ms re',
    execLoop fuel re s = Ret (ms, re') ->
    Forall (fun m => input m = s
                     /\ delivers s (source re) (index m) [] (matchEnd m) (caps m))
           ms.
Proof.
  induction fuel as [|fuel IH]; intros re ms re' H; [discriminate|].
  cbn [execLoop] in H. destruct (exec re s) as [[m|] re1] eqn:E.
  - pose proof (exec_delivers re re1 s m E) as Hm.
    apply exec_some in E. destruct E as (_ & _ & ->).
    destruct (execLoop fuel _ s) as [[ms1 re2]| |] eqn:E2; try discriminate.
    cbn [bind fst snd] in H. inversion H; subst.
    apply IH in E2. constructor; [assumption|].
    destruct (global re); exact E2.
  - inversion H; subst. constructor.
Qed.

Lemma execAll_delivers (re : RegExp) (s : str) (ms : list MatchResult) :
  execAll re s = Ret ms ->
  Forall (fun m => input m = s
                   /\ delivers s (source re) (index m) [] (matchEnd m) (caps m))
         ms.
Proof.
  unfold execAll. intros H.
  destruct (execLoop (length s + 2) re s) as [[ms' re']| |] eqn:E;
    try discriminate.
  cbn [bind fst] in H. inversion H; subst. eapply execLoop_delivers. exact E.
Qed.

Lemma slice_nonempty (s : str) (a b : nat) :
  a < b -> b <= length s -> slice s a b <> [].
Proof.
  intros H1 H2 E. apply (f_equal (@length char)) in E.
  rewrite slice_length in E by lia. simpl in E. lia.
Qed.

(** A group that wraps a consuming pattern is undefined or a non-empty
    string. *)
Lemma grp_filled (s : str) (r : regex) (m : MatchResult) (n : nat) :
  input m = s -> delivers s r (index m) [] (matchEnd m) (caps m) ->
  fills n r = true ->
  grp m n = Undefined \/ truthy (grp m n) = true.
Proof.
  intros Hin D Hf. unfold grp, group.
  destruct (cap_lookup (caps m) n) as [[a b]|] eqn:E; [right | left; reflexivity].
  assert (Hok : okSpan s (caps m) n).
  { apply (del_span D Hf). intros a' b' H'. discriminate. }
  destruct (Hok a b E) as [Hab Hb]. rewrite Hin.
  pose proof (slice_nonempty s a b Hab Hb) as Hne.
  destruct (slice s a b); [contradiction | reflexivity].
Qed.

Lemma grp_set (s : str) (r : regex) (m : MatchResult) (ns : list nat) :
  delivers s r (index m) [] (matchEnd m) (caps m) ->
  bindsSome ns r = true ->
  exists n, In n ns /\ grp m n <> Undefined.
Proof.
  intros D Hb. destruct (del_some D ns Hb) as (n & Hin & Hset).
  exists n. split; [assumption|]. unfold grp, group.
  destruct (cap_lookup (caps m) n) as [[a b]|]; [discriminate | contradiction].
Qed.

(** The first truthy of [m[1]], [m[2]], [m[3]] is a non-empty string when
    each is undefined or non-empty and one of them is set. *)
Lemma first_group_truthy (m : MatchResult) :
  (forall n, In n [1; 2; 3] -> grp m n = Undefined \/ truthy (grp m n) = true) ->
  (exists n, In n [1; 2; 3] /\ grp m n <> Undefined) ->
  truthy (jsor (jsor (grp m 1) (grp m 2)) (grp m 3)) = true.
Proof.
  intros Hall (n & Hin & Hset).
  pose proof (Hall 1 ltac:(simpl; tauto)) as H1.
  pose proof (Hall 2 ltac:(simpl; tauto)) as H2.
  pose proof (Hall 3 ltac:(simpl; tauto)) as H3.
  assert (Hone : grp m 1 <> Undefined \/ grp m 2 <> Undefined
                 \/ grp m 3 <> Undefined).
  { simpl in Hin. destruct Hin as [<-|[<-|[<-|[]]]]; tauto. }
  clear Hall Hin Hset. unfold jsor.
  destruct (grp m 1) as [| |[|c1 x1]], (grp m 2) as [| |[|c2 x2]],
           (grp m 3) as [| |[|c3 x3]];
    cbn [truthy] in *; try reflexivity;
    repeat match goal with
           | H : _ \/ _ |- _ => destruct H
           end; try discriminate; try congruence.
Qed.

Lemma selectPatterns_naming (programming_language : str) :
  namingPatterns (selectPatterns programming_language).
Proof.
  destruct (selectPatterns_cases programming_language) as [E|[E|[E|E]]];
    rewrite E; constructor; try reflexivity;
    intros n Hn; simpl in Hn; destruct Hn as [<-|[<-|[<-|[]]]]; reflexivity.
Qed.

Lemma group1_truthy (s : str) (r : regex) (m : MatchResult) :
  input m = s -> delivers s r (index m) [] (matchEnd m) (caps m) ->
  fills 1 r = true -> bindsSome [1] r = true ->
  truthy (grp m 1) = true.
Proof.
  intros Hin D Hf Hb.
  destruct (grp_set s r m [1] D Hb) as (n & Hn & Hset).
  simpl in Hn. destruct Hn as [<-|[]].
  destruct (grp_filled s r m 1 Hin D Hf) as [Hu|Ht];
    [contradiction | exact Ht].
Qed.

(** Every class and every function the diagram is drawn from has a
    non-empty string as its name (never [undefined], never the empty
    string), and the parent of a class is [null] or a non-empty string. *)
Theorem diagram_names_nonempty (code programming_language : str) :
  exists classes functions,
    extractClasses code (selectPatterns programming_language) = Ret classes
    /\ extractFunctions code (selectPatterns programming_language) classes
       = Ret functions
    /\ Forall (fun c => truthy (cname c) = true
                        /\ (parent c = Null \/ truthy (parent c) = true))
              classes
    /\ Forall (fun f => truthy (fname f) = true) functions.
Proof.
  pose proof (selectPatterns_loop programming_language) as L.
  pose proof (selectPatterns_naming programming_language) as N.
  set (ps := selectPatterns programming_language) in *.
  destruct (execAll_total (setLastIndex (classRegex ps) 0) code
              (loop_class_g L) (loop_class_c L)) as (cms & Ec & _).
  destruct (execAll_total (setLastIndex (functionRegex ps) 0) code
              (loop_function_g L) (loop_function_c L)) as (fms & Ef & _).
  exists (map classOfMatch cms), (topLevelFunctions code (map classOfMatch cms) fms).
  split; [unfold extractClasses; rewrite Ec; reflexivity|].
  split; [unfold extractFunctions; rewrite Ef; reflexivity|].
  apply execAll_delivers in Ec. apply execAll_delivers in Ef.
  cbn [setLastIndex source] in Ec, Ef. split.
  - apply Forall_map. eapply Forall_impl; [|exact Ec].
    intros m [Hin D]. cbn [classOfMatch cname parent]. split.
    + apply (group1_truthy code _ m Hin D);
        [apply (naming_class_fill N) | apply (naming_class_set N)].
    + unfold jsor. destruct (truthy (grp m 2)) eqn:E; [right | left]; auto.
  - unfold topLevelFunctions, keptMatches. apply Forall_map.
    apply Forall_filter. eapply Forall_impl; [|exact Ef].
    intros m [Hin D]. cbn [functionOfMatch fname].
    apply first_group_truthy.
    + intros n Hn. apply (grp_filled code _ m n Hin D).
      apply (naming_function_fill N). exact Hn.
    + apply (grp_set code _ m [1; 2; 3] D). apply (naming_function_set N).
Qed.

Lemma mapM_Forall (A B : Type) (f : A -> outcome B) (P : B -> Prop) (l : list A) :
  (forall a b, In a l -> f a = Ret b -> P b) ->
  forall bs, mapM f l = Ret bs -> Forall P bs.
Proof.
  induction l as [|x l IH]; intros H bs Hm; cbn [mapM] in Hm.
  - inversion Hm. constructor.
  - destruct (f x) as [b| |] eqn:Hx; try discriminate. cbn [bind] in Hm.
    destruct (mapM f l) as [bs'| |] eqn:Hl; try discriminate.
    cbn [bind] in Hm. inversion Hm; subst. constructor.
    + apply (H x b); [left; reflexivity | assumption].
    + apply IH; [|reflexivity]. intros a b' Ha. apply H. right. exact Ha.
Qed.

Lemma components_named (code type : str) (re : RegExp) (ms : list MatchResult)
    (cs : list Component) :
  fills 1 (source re) = true -> bindsSome [1] (source re) = true ->
  execAll re code = Ret ms ->
  mapM (componentOfMatch code type) ms = Ret cs ->
  Forall (fun c => truthy (name c) = true) cs.
Proof.
  intros Hf Hb He Hm. apply execAll_delivers in He.
  rewrite Forall_forall in He.
  apply (mapM_Forall _ _ (componentOfMatch code type) _ ms); [|exact Hm].
  intros m c Hin Hc. unfold componentOfMatch in Hc.
  destruct (generateComponentDescription _ type) as [d| |]; try discriminate.
  cbn [bind] in Hc. inversion Hc; subst. cbn [name].
  destruct (He m Hin) as [Hi D].
  apply (group1_truthy code (source re) m Hi D Hf Hb).
Qed.

(** Every entry of Main Classes and Main Functions has a non-empty
    string as its name. *)
Theorem component_names_nonempty (code programming_language : str) :
  exists mainClasses mainFunctions,
    extractComponents code programming_language
    = Ret (mainClasses, mainFunctions)
    /\ Forall (fun c => truthy (name c) = true) mainClasses
    /\ Forall (fun c => truthy (name c) = true) mainFunctions.
Proof.
  unfold extractComponents.
  destruct (execAll_total simpleClassRegex code eq_refl eq_refl) as (m1 & E1 & _).
  destruct (components_total code (lit "class") m1) as (c1 & C1).
  destruct (execAll_total simpleFunctionRegex code eq_refl eq_refl) as (m2 & E2 & _).
  destruct (components_total code (lit "function") m2) as (c2 & C2).
  destruct (execAll_total arrowFunctionRegex code eq_refl eq_refl) as (m3 & E3 & _).
  destruct (components_total code (lit "function") m3) as (c3 & C3).
  exists c1, (c2 ++ c3).
  rewrite E1. cbn [bind]. rewrite C1. cbn [bind]. rewrite E2. cbn [bind].
  rewrite C2. cbn [bind]. rewrite E3. cbn [bind]. rewrite C3. cbn [bind].
  split; [reflexivity|]. split.
  - apply (components_named code (lit "class") simpleClassRegex m1 c1);
      try reflexivity; assumption.
  - apply Forall_app. split.
    + apply (components_named code (lit "function") simpleFunctionRegex m2 c2);
        try reflexivity; assumption.
    + apply (components_named code (lit "function") arrowFunctionRegex m3 c3);
        try reflexivity; assumption.
Qed.

(** ** Text without braces *)

Lemma no_brace_block (code : str) :
  (forall i, nth_error code i <> Some LBRACE) ->
  forall z, extractBlock code z = [].
Proof.
  intros H z. rewrite extractBlock_blockSpec. unfold blockSpec.
  rewrite (firstBrace_none code z); [reflexivity|]. intros i _. apply H.
Qed.

Lemma filter_all (A : Type) (f : A -> bool) (l : list A) :
  (forall x, In x l -> f x = true) -> filter f l = l.
Proof.
  induction l as [|x l IH]; intros H; [reflexivity|].
  cbn [filter]. rewrite (H x (or_introl eq_refl)). f_equal.
  apply IH. intros y Hy. apply H. right. exact Hy.
Qed.

Lemma filter_none (A : Type) (f : A -> bool) (l : list A) :
  (forall x, In x l -> f x = false) -> filter f l = [].
Proof.
  induction l as [|x l IH]; intros H; [reflexivity|].
  cbn [filter]. rewrite (H x (or_introl eq_refl)).
  apply IH. intros y Hy. apply H. right. exact Hy.
Qed.

Lemma flat_map_nil (A B : Type) (f : A -> list B) (l : list A) :
  (forall x, In x l -> f x = []) -> flat_map f l = [].
Proof.
  induction l as [|x l IH]; intros H; [reflexivity|].
  cbn [flat_map]. rewrite (H x (or_introl eq_refl)).
  apply IH. intros y Hy. apply H. right. exact Hy.
Qed.

Lemma includes_nil (p : str) : p <> [] -> includes [] p = false.
Proof.
  destruct p as [|c p]; [contradiction|]. intros _. reflexivity.
Qed.

(** In a text without an opening brace (Python, for one) no function is
    taken to lie inside a class, so every function match is kept, the
    methods of a class among them, and no call is found. *)
Theorem brace_free_text_flat (code : str) :
  (forall i, nth_error code i <> Some LBRACE) ->
  forall (classes : list ClassInfo) (ms : list MatchResult)
         (functions : list FunctionInfo),
    topLevelFunctions code classes ms = map functionOfMatch ms
    /\ callsOf code functions = [].
Proof.
  intros H classes ms functions. split.
  - unfold topLevelFunctions, keptMatches. f_equal. apply filter_all.
    intros m _. apply negb_true_iff. unfold isInsideClass.
    destruct (existsb _ classes) eqn:E; [|reflexivity].
    apply existsb_exists in E. destruct E as (cls & _ & Hc).
    rewrite (no_brace_block code H) in Hc. cbn [length] in Hc.
    apply andb_true_iff in Hc. destruct Hc as [H1 H2].
    apply Nat.ltb_lt in H1. apply Nat.ltb_lt in H2. lia.
  - unfold callsOf. apply flat_map_nil. intros f _.
    apply flat_map_nil. intros g _.
    rewrite (no_brace_block code H). rewrite includes_nil.
    + rewrite andb_false_r. reflexivity.
    + destruct (toStr (fname g)); discriminate.
Qed.

Lemma brace_free_text_flat_witness :
  (forall i, nth_error pythonClass i <> Some LBRACE)
  /\ forall (classes : list ClassInfo) (ms : list MatchResult)
            (functions : list FunctionInfo),
       topLevelFunctions pythonClass classes ms = map functionOfMatch ms
       /\ callsOf pythonClass functions = [].
Proof.
  assert (H : forall i, nth_error pythonClass i <> Some LBRACE)
    by (apply no_brace_anywhere; reflexivity).
  split; [exact H | exact (brace_free_text_flat pythonClass H)].
Defined.

(** The Python sample: the method [m] of class [A] is listed as a
    function of the diagram. *)
Lemma python_method_listed :
  generateArchitectureDiagram pythonClass (lit "python")
  = Ret (header ++ nl ++ lit "    Classes:" ++ nl
         ++ lit "    +------------------+" ++ nl
         ++ lit "    |  A               |" ++ nl
         ++ lit "    +------------------+" ++ nl ++ nl
         ++ lit "    +------------------+" ++ nl
         ++ lit "    |  A               |" ++ nl
         ++ lit "    +------------------+" ++ nl
         ++ nl ++ lit "    Functions:" ++ nl ++ lit "    [m]" ++ nl).
Proof. vm_compute. reflexivity. Qed.

(** ** Classes that are never drawn *)

(** When every class has a parent, the Classes section is its heading
    alone: a class is only drawn under a class without a parent. *)
Theorem classes_with_parents_not_drawn (classes : list ClassInfo) :
  classes <> [] ->
  (forall c, In c classes -> truthy (parent c) = true) ->
  renderClasses classes = Ret (nl ++ lit "    Classes:" ++ nl).
Proof.
  intros Hne Hall. unfold renderClasses.
  destruct classes as [|c0 rest] eqn:E; [contradiction|]. rewrite <- E in *.
  replace (Nat.ltb 0 (length classes)) with true by (rewrite E; reflexivity).
  unfold renderParentPass, renderStandalonePass, parentClasses, standaloneClasses.
  rewrite (filter_none _ (fun c => negb (truthy (parent c))) classes).
  2:{ intros c Hc. rewrite (Hall c Hc). reflexivity. }
  rewrite (filter_none _ _ classes).
  2:{ intros c Hc. rewrite (Hall c Hc). reflexivity. }
  reflexivity.
Qed.

Lemma classes_with_parents_not_drawn_witness :
  orphanChild <> []
  /\ (forall c, In c orphanChild -> truthy (parent c) = true)
  /\ renderClasses orphanChild = Ret (nl ++ lit "    Classes:" ++ nl).
Proof.
  assert (H1 : orphanChild <> []) by discriminate.
  assert (H2 : forall c, In c orphanChild -> truthy (parent c) = true).
  { intros c [<-|[]]. reflexivity. }
  split; [exact H1|]. split; [exact H2|].
  exact (classes_with_parents_not_drawn orphanChild H1 H2).
Defined.

(** On a text: [Child] extends a class that is not there, and the
    diagram shows no box. *)
Lemma orphan_child_diagram :
  generateArchitectureDiagram (lit "class Child extends Base {}") (lit "js")
  = Ret (header ++ nl ++ lit "    Classes:" ++ nl).
Proof. vm_compute. reflexivity. Qed.

(** ** Every function is drawn *)

Lemma strict_eq_eq (a b : jsval) : strict_eq a b = true -> a = b.
Proof.
  destruct a, b; simpl; try discriminate; try reflexivity.
  intros H. apply str_eqb_eq in H. congruence.
Qed.

Lemma has_add (set : list jsval) (v w : jsval) :
  has (add set v) w = true -> has set w = true \/ w = v.
Proof.
  unfold add. destruct (has set v) eqn:E; [auto|].
  unfold has. rewrite existsb_app. cbn [existsb]. rewrite orb_false_r.
  intros H. apply orb_true_iff in H. destruct H as [H|H]; [auto|].
  right. apply strict_eq_eq. exact H.
Qed.

Lemma occurs_here (h t post : str) : occurs h t -> occurs h (t ++ post).
Proof.
  intros (a & b & ->). exists a, (b ++ post).
  rewrite <- !app_assoc. reflexivity.
Qed.

Lemma occurs_skip (h pre t : str) : occurs h t -> occurs h (pre ++ t).
Proof.
  intros (a & b & ->). exists (pre ++ a), b.
  rewrite <- !app_assoc. reflexivity.
Qed.

(** A name the loop over the calls has marked is one that was marked
    before or one the loop has written. *)
Lemma renderCalls_marks (rels : list Relationship) :
  forall (processed : list jsval) (v : jsval),
    has (snd (renderCalls rels processed)) v = true ->
    has processed v = true
    \/ occurs (bracketed v) (fst (renderCalls rels processed)).
Proof.
  induction rels as [|rel rest IH]; intros processed v H;
    cbn [renderCalls] in *.
  - left. exact H.
  - destruct (negb (has processed (rfrom rel))); [|apply IH; exact H].
    cbn [fst snd] in *. apply IH in H. destruct H as [H|H].
    + apply has_add in H. destruct H as [H| ->].
      * apply has_add in H. destruct H as [H| ->]; [left; exact H|].
        right. unfold bracketed.
        exists (lit "    "),
          (lit " " ++ [9472%N; 9472%N] ++ lit "calls" ++ [9472%N; 9472%N]
           ++ lit "> [" ++ toStr (rto rel) ++ lit "]" ++ nl
           ++ fst (renderCalls rest (add (add processed (rfrom rel)) (rto rel)))).
        rewrite <- ?app_assoc. vm_compute. reflexivity.
      * right. unfold bracketed.
        exists (lit "    [" ++ toStr (rfrom rel) ++ lit "] "
                ++ [9472%N; 9472%N] ++ lit "calls" ++ [9472%N; 9472%N]
                ++ lit "> "),
          (nl ++ fst (renderCalls rest (add (add processed (rfrom rel)) (rto rel)))).
        rewrite <- ?app_assoc. vm_compute. reflexivity.
    + right. apply occurs_skip. exact H.
Qed.

(** The loop over the functions writes every name that is not marked. *)
Lemma renderRemaining_covers (functions : list FunctionInfo) :
  forall (processed : list jsval) (f : FunctionInfo),
    In f functions ->
    has processed (fname f) = true
    \/ occurs (bracketed (fname f)) (renderRemaining functions processed).
Proof.
  induction functions as [|func rest IH]; intros processed f Hin;
    [contradiction|].
  cbn [renderRemaining].
  destruct (has processed (fname func)) eqn:E; cbn [negb].
  - destruct Hin as [<-|Hin]; [left; exact E | apply IH; exact Hin].
  - assert (Hline : occurs (bracketed (fname func))
                      (lit "    [" ++ toStr (fname func) ++ lit "]" ++ nl
                       ++ renderRemaining rest (add processed (fname func)))).
    { exists (lit "    "),
        (nl ++ renderRemaining rest (add processed (fname func))).
      unfold bracketed. rewrite <- ?app_assoc. vm_compute. reflexivity. }
    destruct Hin as [<-|Hin]; [right; exact Hline|].
    destruct (IH (add processed (fname func)) f Hin) as [H|H].
    + apply has_add in H. destruct H as [H|H]; [left; exact H|].
      right. rewrite H. exact Hline.
    + right.
      replace (lit "    [" ++ toStr (fname func) ++ lit "]" ++ nl
               ++ renderRemaining rest (add processed (fname func)))
        with ((lit "    [" ++ toStr (fname func) ++ lit "]" ++ nl)
              ++ renderRemaining rest (add processed (fname func)))
        by (rewrite <- !app_assoc; reflexivity).
      apply occurs_skip. exact H.
Qed.

Lemma renderFunctions_covers (functions : list FunctionInfo)
    (relationships : list Relationship) (f : FunctionInfo) :
  In f functions ->
  occurs (bracketed (fname f)) (renderFunctions functions relationships).
Proof.
  intros Hin. unfold renderFunctions.
  destruct functions as [|f0 rest] eqn:E; [contradiction|]. rewrite <- E in *.
  replace (Nat.ltb 0 (length functions)) with true by (rewrite E; reflexivity).
  cbv zeta.
  set (calls := filter _ relationships).
  apply occurs_skip. apply occurs_skip. apply occurs_skip.
  destruct (renderRemaining_covers functions (snd (renderCalls calls [])) f Hin)
    as [H|H].
  - apply renderCalls_marks in H. destruct H as [H|H]; [discriminate|].
    apply occurs_here. exact H.
  - apply occurs_skip. exact H.
Qed.

(** Every function the diagram extracts is shown in it, its name between
    brackets: as the caller or the callee of a calls line, or on a line
    of its own. *)
Theorem every_function_drawn (code programming_language : str) :
  exists classes functions diagram,
    extractClasses code (selectPatterns programming_language) = Ret classes
    /\ extractFunctions code (selectPatterns programming_language) classes
       = Ret functions
    /\ generateArchitectureDiagram code programming_language = Ret diagram
    /\ Forall (fun f => occurs (bracketed (fname f)) diagram) functions.
Proof.
  pose proof (selectPatterns_loop programming_language) as L.
  unfold generateArchitectureDiagram.
  destruct (extractClasses_total code _ L) as (classes & Ec & Hnamed).
  destruct (extractFunctions_total code _ classes L) as (fs & Ef).
  destruct (extractImports_total code _ L) as (imports & Ei).
  destruct (renderClasses_total classes Hnamed) as (part & Er).
  exists classes, fs. rewrite Ec. cbn [bind]. rewrite Ef. cbn [bind].
  rewrite Ei. cbn [bind]. unfold renderDiagram. rewrite Er. cbn [bind].
  eexists. split; [reflexivity|]. split; [reflexivity|].
  split; [reflexivity|].
  apply Forall_forall. intros f Hin.
  apply occurs_skip. apply occurs_skip. apply occurs_skip.
  apply occurs_here. apply renderFunctions_covers. exact Hin.
Qed.

(** ** The ranking of the categories *)

(** The head of the sorted entries is the first entry of the table with
    the largest count. *)
Lemma sortDesc_head (l : list (string * nat)) :
  forall y rest,
    sortDesc l = y :: rest ->
    exists pre post,
      l = pre ++ y :: post
      /\ (forall x, In x pre -> snd x < snd y)
      /\ (forall x, In x post -> snd x <= snd y).
Proof.
  induction l as [|x l IH]; intros y rest H; [discriminate|].
  cbn [sortDesc fold_right] in H. fold (sortDesc l) in H.
  destruct (sortDesc l) as [|z rest'] eqn:E.
  - cbn [insertDesc] in H. inversion H; subst.
    destruct l as [|w l'].
    + exists [], []. repeat split; intros ? [].
    + exfalso. apply (in_nil (a := w)). rewrite <- E. apply (proj2 (sortDesc_In _ _)).
      left. reflexivity.
  - destruct (IH z rest' eq_refl) as (pre' & post' & -> & Hpre & Hpost).
    cbn [insertDesc] in H.
    destruct (Nat.leb (snd z) (snd x)) eqn:Hle; inversion H; subst.
    + apply Nat.leb_le in Hle. exists [], (pre' ++ z :: post').
      split; [reflexivity|]. split; [intros ? []|].
      intros w Hw. apply in_app_or in Hw. destruct Hw as [Hw|[<-|Hw]].
      * apply Hpre in Hw. lia.
      * exact Hle.
      * apply Hpost in Hw. lia.
    + apply Nat.leb_gt in Hle. exists (x :: pre'), post'.
      split; [reflexivity|]. split; [|exact Hpost].
      intros w [<-|Hw]; [exact Hle | apply Hpre; exact Hw].
Qed.

Lemma filter_nil_inv (A : Type) (f : A -> bool) (l : list A) :
  filter f l = [] -> forall x, In x l -> f x = false.
Proof.
  induction l as [|y l IH]; intros H x Hin; [contradiction|].
  cbn [filter] in H. destruct (f y) eqn:E; [discriminate|].
  destruct Hin as [<-|Hin]; [exact E | apply IH; assumption].
Qed.

(** The primary purpose is the category with the largest count, which is
    positive; among categories with that count it is the one that comes
    first in the table. *)
Theorem primary_is_first_maximum (matchCounts : list (string * nat))
    (primaryPurpose : string) :
  nth_error (sortedCategories matchCounts) 0 = Some primaryPurpose ->
  exists pre n post,
    matchCounts = pre ++ (primaryPurpose, n) :: post
    /\ 0 < n
    /\ (forall x, In x pre -> snd x < n)
    /\ (forall x, In x post -> snd x <= n).
Proof.
  unfold sortedCategories. intros H.
  destruct (sortDesc matchCounts) as [|y rest] eqn:E; [discriminate|].
  destruct (sortDesc_head matchCounts y rest E)
    as (pre & post & -> & Hpre & Hpost).
  destruct (Nat.ltb 0 (snd y)) eqn:Hy.
  - cbn [filter] in H. rewrite Hy in H. cbn [map nth_error] in H.
    inversion H; subst. apply Nat.ltb_lt in Hy.
    exists pre, (snd y), post. destruct y as [k n]. cbn [fst snd] in *.
    repeat split; assumption.
  - exfalso. apply Nat.ltb_ge in Hy.
    rewrite (filter_none _ (fun e => Nat.ltb 0 (snd e)) (y :: rest)) in H;
      [discriminate|].
    intros w Hw. rewrite <- E in Hw. apply (proj1 (sortDesc_In _ _)) in Hw.
    apply Nat.ltb_ge. apply in_app_or in Hw. destruct Hw as [Hw|[<-|Hw]].
    + apply Hpre in Hw. lia.
    + exact Hy.
    + apply Hpost in Hw. lia.
Qed.

Lemma primary_is_first_maximum_witness :
  nth_error (sortedCategories
               [("network", 2); ("ui", 3); ("database", 3)]%string) 0
  = Some "ui"%string
  /\ exists pre n post,
       [("network", 2); ("ui", 3); ("database", 3)]%string
       = pre ++ ("ui"%string, n) :: post
       /\ 0 < n
       /\ (forall x, In x pre -> snd x < n)
       /\ (forall x, In x post -> snd x <= n).
Proof.
  split; [reflexivity|].
  exact (primary_is_first_maximum
           [("network", 2); ("ui", 3); ("database", 3)]%string "ui"%string
           eq_refl).
Defined.

(** ** The generic sentence *)

Lemma primary_not_generic (p : string) (matches : list (string * bool))
    (clause : str) :
  In p purposeNames ->
  lit "This code appears to " ++ primarySentence p matches ++ clause
  <> genericSentence.
Proof.
  intros Hin H. apply (f_equal (firstn 25)) in H. simpl in Hin.
  repeat (destruct Hin as [<-|Hin]; [vm_compute in H; discriminate|]).
  contradiction.
Qed.

Lemma probeCount_zero (code : str) (probes : list RegExp) :
  probeCount code probes = 0 <->
  forall p, In p probes -> test p code = false.
Proof.
  unfold probeCount. split.
  - intros H. apply filter_nil_inv. apply length_zero_iff_nil. exact H.
  - intros H. rewrite filter_none; [reflexivity | exact H].
Qed.

(** The summary is the generic sentence exactly when no probe of any
    category matches the text. *)
Theorem generic_iff_no_probe_matches (code programming_language : str) :
  extractCoreFunctionality code programming_language = genericSentence
  <-> forall category probes p,
        In (category, probes) (purposePatterns programming_language) ->
        In p probes -> test p code = false.
Proof.
  unfold extractCoreFunctionality, summarize.
  set (table := purposePatterns programming_language).
  split.
  - intros H category probes p Hin Hp.
    destruct (nth_error (sortedCategories (countMatches code table)) 0)
      as [q|] eqn:E.
    + exfalso.
      assert (Hq : In q purposeNames).
      { apply (ranked_purpose code programming_language).
        eapply nth_error_In. exact E. }
      destruct (purposeNames_named q Hq) as [Hne _]. rewrite Hne in H.
      exact (primary_not_generic q _ _ Hq H).
    + unfold sortedCategories in E.
      destruct (filter _ (sortDesc (countMatches code table))) as [|e l] eqn:F;
        [|discriminate].
      assert (Hc : In (category, probeCount code probes)
                      (sortDesc (countMatches code table))).
      { apply (proj2 (sortDesc_In _ _)). unfold countMatches.
        apply in_map_iff. exists (category, probes). split; [reflexivity|exact Hin]. }
      pose proof (filter_nil_inv _ _ _ F _ Hc) as Hz. cbn [snd] in Hz.
      apply Nat.ltb_ge in Hz.
      apply (proj1 (probeCount_zero code probes)); [lia | exact Hp].
  - intros H. unfold sortedCategories.
    rewrite (filter_none _ (fun e => Nat.ltb 0 (snd e))); [reflexivity|].
    intros e He. apply (proj1 (sortDesc_In _ _)) in He. unfold countMatches in He.
    apply in_map_iff in He. destruct He as ([category probes] & <- & Hin).
    cbn [fst snd]. apply Nat.ltb_ge.
    rewrite (proj2 (probeCount_zero code probes)); [lia|].
    intros p Hp. exact (H category probes p Hin Hp).
Qed.

(** ** A branch of the summary that no text reaches *)

Lemma lookup_absent (A : Type) (key : string) (table : list (string * A)) :
  ~ In key (map fst table) -> lookup key table = None.
Proof.
  induction table as [|[k v] rest IH]; intros H; [reflexivity|].
  cbn [lookup]. destruct (String.eqb k key) eqn:E.
  - apply String.eqb_eq in E. exfalso. apply H. left. exact E.
  - apply IH. intros Hin. apply H. right. exact Hin.
Qed.

Lemma api_flag_never_set (code programming_language : str) :
  flag (flagMatches code (purposePatterns programming_language)) "api" = false.
Proof.
  unfold flag. rewrite lookup_absent; [reflexivity|].
  unfold flagMatches. rewrite map_map. cbn [fst].
  change (map (fun x : string * list RegExp => fst x)
              (purposePatterns programming_language))
    with (map fst (purposePatterns programming_language)).
  rewrite purposePatterns_keys. simpl.
  intros H. repeat (destruct H as [H|H]; [discriminate|]). contradiction.
Qed.

(** The words about an API or service layer are never in a summary: the
    flag [api] the network sentence reads belongs to no category. *)
Theorem api_sentence_unreachable (code programming_language : str) :
  includes (extractCoreFunctionality code programming_language)
    (lit "likely serving as an API or service layer") = false.
Proof.
  unfold extractCoreFunctionality, summarize.
  pose proof (api_flag_never_set code programming_language) as Hapi.
  set (matches := flagMatches code (purposePatterns programming_language)) in *.
  set (counts := countMatches code (purposePatterns programming_language)).
  destruct (nth_error (sortedCategories counts) 0) as [p|];
    [|vm_compute; reflexivity].
  destruct (String.eqb p ""); [vm_compute; reflexivity|].
  unfold primarySentence, secondaryClause, secondaryName, alsoIncludes.
  rewrite Hapi.
  destruct (nth_error (sortedCategories counts) 1) as [s|];
    repeat match goal with
           | |- context [if ?b then _ else _] => destruct b
           end;
    vm_compute; reflexivity.
Qed.

(** ** Components of a text without braces *)

Lemma description_of_nothing :
  generateComponentDescription [] (lit "class")
  = Ret (lit "Encapsulates related functionality and data")
  /\ generateComponentDescription [] (lit "function")
     = Ret (lit "Performs a specific operation or task").
Proof. split; vm_compute; reflexivity. Qed.

Lemma brace_free_component (code type : str) (d : str) :
  (forall i, nth_error code i <> Some LBRACE) ->
  generateComponentDescription [] type = Ret d ->
  forall ms cs,
    mapM (componentOfMatch code type) ms = Ret cs ->
    Forall (fun c => description c = d) cs.
Proof.
  intros H Hd ms. apply mapM_Forall. intros m c _.
  unfold componentOfMatch. rewrite (no_brace_block code H), Hd. cbn [bind].
  intros E. inversion E. reflexivity.
Qed.

(** In a text without an opening brace every component gets the default
    description of its kind: the block of the component is empty, so
    neither a docstring nor any word of the code is seen. *)
Theorem brace_free_components_default (code programming_language : str) :
  (forall i, nth_error code i <> Some LBRACE) ->
  exists mainClasses mainFunctions,
    extractComponents code programming_language
    = Ret (mainClasses, mainFunctions)
    /\ Forall (fun c => description c
                        = lit "Encapsulates related functionality and data")
              mainClasses
    /\ Forall (fun c => description c
                        = lit "Performs a specific operation or task")
              mainFunctions.
Proof.
  intros H. destruct description_of_nothing as [Dc Df].
  unfold extractComponents.
  destruct (execAll_total simpleClassRegex code eq_refl eq_refl) as (m1 & -> & _).
  cbn [bind]. destruct (components_total code (lit "class") m1) as (c1 & E1).
  rewrite E1. cbn [bind].
  destruct (execAll_total simpleFunctionRegex code eq_refl eq_refl) as (m2 & -> & _).
  cbn [bind]. destruct (components_total code (lit "function") m2) as (c2 & E2).
  rewrite E2. cbn [bind].
  destruct (execAll_total arrowFunctionRegex code eq_refl eq_refl) as (m3 & -> & _).
  cbn [bind]. destruct (components_total code (lit "function") m3) as (c3 & E3).
  rewrite E3. cbn [bind].
  exists c1, (c2 ++ c3). split; [reflexivity|]. split.
  - exact (brace_free_component code _ _ H Dc m1 c1 E1).
  - apply Forall_app. split.
    + exact (brace_free_component code _ _ H Df m2 c2 E2).
    + exact (brace_free_component code _ _ H Df m3 c3 E3).
Qed.

Lemma brace_free_components_default_witness :
  (forall i, nth_error pythonDocClass i <> Some LBRACE)
  /\ exists mainClasses mainFunctions,
       extractComponents pythonDocClass (lit "python")
       = Ret (mainClasses, mainFunctions)
       /\ Forall (fun c => description c
                           = lit "Encapsulates related functionality and data")
                 mainClasses
       /\ Forall (fun c => description c
                           = lit "Performs a specific operation or task")
                 mainFunctions.
Proof.
  assert (H : forall i, nth_error pythonDocClass i <> Some LBRACE)
    by (apply no_brace_anywhere; reflexivity).
  split; [exact H|].
  exact (brace_free_components_default pythonDocClass (lit "python") H).
Defined.

(** The Python sample: one class, its docstring not used. *)
Lemma python_docstring_not_used :
  extractComponents pythonDocClass (lit "python")
  = Ret ([mkComponent (JStr (lit "Adder"))
            (lit "Encapsulates related functionality and data")], []).
Proof. vm_compute. reflexivity. Qed.

(** ** Empty descriptions *)

Lemma lit_sentence_nonempty (a b : str) : b <> [] -> a ++ b <> [].
Proof.
  intros Hb H. apply app_eq_nil in H. destruct H as [_ H]. contradiction.
Qed.

Lemma classSentence_nonempty (primaryPurpose : option string)
    (componentCode : str) :
  classSentence primaryPurpose componentCode <> [].
Proof.
  unfold classSentence.
  repeat match goal with
         | |- context [if ?b then _ else _] => destruct b
         end;
    intros H; apply (f_equal (@length char)) in H; vm_compute in H;
    discriminate.
Qed.

Lemma functionSentence_nonempty (primaryPurpose : option string)
    (hasParameters hasReturn : bool) :
  functionSentence primaryPurpose hasParameters hasReturn <> [].
Proof.
  unfold functionSentence. destruct hasParameters, hasReturn;
    repeat match goal with
           | |- context [if ?b then _ else _] => destruct b
           end;
    intros H; apply (f_equal (@length char)) in H; vm_compute in H;
    discriminate.
Qed.

Lemma heuristicDescription_nonempty (componentCode type d : str) :
  heuristicDescription componentCode type = Ret d -> d <> [].
Proof.
  unfold heuristicDescription.
  match goal with
  | |- context [bind ?c _] => destruct c as [componentName| |]
  end; cbn [bind]; try discriminate.
  destruct (str_eqb type (lit "class")); intros H; inversion H;
    apply lit_sentence_nonempty;
    [apply classSentence_nonempty | apply functionSentence_nonempty].
Qed.

Lemma commentOf_nonempty (componentCode : str) (commentRegex : RegExp)
    (comment : str) :
  commentOf componentCode commentRegex = Ret (Some comment) -> comment <> [].
Proof.
  unfold commentOf. destruct (smatch componentCode commentRegex) as [m|];
    [|discriminate].
  destruct (grp m 1) as [| |raw]; try discriminate.
  destruct (cleanComment raw) as [c| |]; cbn [bind]; try discriminate.
  destruct (Nat.ltb 0 (length c)) eqn:E; [|discriminate].
  intros H. inversion H; subst. apply Nat.ltb_lt in E.
  intros ->. cbn [length] in E. lia.
Qed.

(** A description is returned for every component, and it is empty only
    when it was taken from line comments: a docstring, a documentation
    block and the description derived from the code are never empty. *)
Theorem description_empty_only_from_line_comments (componentCode type : str) :
  exists d,
    generateComponentDescription componentCode type = Ret d
    /\ (d = [] -> lineCommentPath componentCode).
Proof.
  destruct (generateComponentDescription_total componentCode type) as (d & E).
  exists d. split; [exact E|]. intros ->. revert E.
  unfold generateComponentDescription, lineCommentPath.
  destruct (includes componentCode tripleDQuote || includes componentCode tripleQuote).
  - destruct (commentOf componentCode docstringRegex) as [[c|]| |] eqn:C;
      cbn [bind]; try discriminate; intros E; exfalso.
    + inversion E; subst. exact (commentOf_nonempty _ _ _ C eq_refl).
    + exact (heuristicDescription_nonempty _ _ _ E eq_refl).
  - destruct (includes componentCode (lit "/**")).
    + destruct (commentOf componentCode jsdocRegex) as [[c|]| |] eqn:C;
        cbn [bind]; try discriminate; intros E; exfalso.
      * inversion E; subst. exact (commentOf_nonempty _ _ _ C eq_refl).
      * exact (heuristicDescription_nonempty _ _ _ E eq_refl).
    + destruct (includes componentCode (lit "//")).
      * intros _. repeat split.
      * intros E. exfalso. exact (heuristicDescription_nonempty _ _ _ E eq_refl).
Qed.

(** A bare comment line gives an empty description. *)
Lemma bare_comment_empty_description :
  generateComponentDescription bareCommentBlock (lit "function") = Ret [].
Proof. vm_compute. reflexivity. Qed.

(** ** The handler *)

Lemma expectedAuth_nonempty (env : Env) : expectedAuth env <> [].
Proof.
  unfold expectedAuth. intros H. apply app_eq_nil in H. destruct H as [H _].
  vm_compute in H. discriminate.
Qed.

Lemma refused_iff (authHeader : option str) (env : Env) :
  refused authHeader (expectedAuth env) = false
  <-> authHeader = Some (expectedAuth env).
Proof.
  unfold refused. destruct authHeader as [h|].
  - split.
    + intros H. apply orb_false_iff in H. destruct H as [_ H].
      apply negb_false_iff in H. apply str_eqb_eq in H. congruence.
    + intros H. inversion H; subst. rewrite str_eqb_refl.
      destruct (expectedAuth env) eqn:E; [|reflexivity].
      exfalso. exact (expectedAuth_nonempty env E).
  - split; discriminate.
Qed.

(** The answer is 401 Unauthorized exactly for a POST request whose
    Authorization header is not the word Bearer, a space and the shared
    secret; the body of such a request is not looked at. *)
Theorem fetch_unauthorized_iff (request : Request) (env : Env) :
  fetch request env = Ret unauthorized
  <-> method request = lit "POST"
      /\ authorization request <> Some (expectedAuth env).
Proof.
  unfold fetch.
  destruct (str_eqb (method request) (lit "POST")) eqn:M.
  - apply str_eqb_eq in M.
    destruct (refused (authorization request) (expectedAuth env)) eqn:R.
    + split; [|reflexivity]. intros _. split; [exact M|].
      intros H. apply refused_iff in H. congruence.
    + split.
      * intros H. exfalso. destruct (json request) as [parsed|message].
        -- destruct (_ && _).
           ++ destruct (explainCode _ _); try discriminate;
                unfold resultResponse, errorResponse, unauthorized in H;
                inversion H.
           ++ unfold invalidCall, unauthorized in H. inversion H.
        -- unfold errorResponse, unauthorized in H. inversion H.
      * intros [_ H]. exfalso. apply H. apply refused_iff. exact R.
  - split.
    + intros H. unfold usageResponse, unauthorized in H. inversion H.
    + intros [H _]. rewrite H, str_eqb_refl in M. discriminate.
Qed.

(** A body that cannot be read gives status 500 and the message of the
    error. *)
Lemma unreadable_body_reported :
  fetch unreadableCall sampleEnv
  = Ret (mkResponse
           (lit "Error processing request: Unexpected end of JSON input")
           500 []).
Proof. vm_compute. reflexivity. Qed.

(** * The analyser on the bounded engine *)

(** ** Outcomes of the two models *)

Lemma agrees_refl (A : Type) (o : outcome A) : agrees o o.
Proof. destruct o; simpl; auto. Qed.

Lemma agrees_overflow (A : Type) (o : outcome A) :
  agrees (Throw Runtime.rangeError) o.
Proof. destruct o; simpl; auto. Qed.

Lemma agrees_value (A : Type) (real : outcome A) (x : A) :
  agrees real (Ret x) -> real = Ret x \/ real = Throw Runtime.rangeError.
Proof.
  destruct real as [y|e|]; simpl; intros H.
  - left. congruence.
  - right. congruence.
  - contradiction.
Qed.

Lemma agrees_bind (A B : Type) (real ideal : outcome A)
    (kr ki : A -> outcome B) :
  agrees real ideal ->
  (forall x, agrees (kr x) (ki x)) ->
  agrees (bind real kr) (bind ideal ki).
Proof.
  intros H K. destruct real as [x|e|], ideal as [y|e'|]; simpl in *;
    try contradiction; try exact I.
  - subst y. apply K.
  - subst e. apply agrees_overflow.
Qed.

Lemma agrees_mapM (A B : Type) (fr fi : A -> outcome B) (l : list A) :
  (forall a, agrees (fr a) (fi a)) -> agrees (mapM fr l) (mapM fi l).
Proof.
  intros H. induction l as [|a l IH]; [reflexivity|].
  cbn [mapM]. apply agrees_bind; [apply H|]. intros b.
  apply agrees_bind; [exact IH|]. intros bs. reflexivity.
Qed.

(** ** The matcher *)

Lemma choose_tracks (capacity pending : nat)
    (first : nat -> Runtime.verdict) (second : Runtime.verdict)
    (o1 o2 : option mstate) :
  (forall d, tracks (first d) o1) -> tracks second o2 ->
  tracks (Runtime.choose capacity pending first second) (orelse o1 o2).
Proof.
  intros H1 H2. unfold Runtime.choose.
  destruct (Nat.ltb pending capacity); [|left; reflexivity].
  destruct (H1 (S pending)) as [->| ->]; [left; reflexivity|].
  destruct o1 as [st|]; simpl; [right; reflexivity | exact H2].
Qed.

Lemma step_tracks (s : str) (p : char -> bool) (i : nat) (caps : captures)
    (pending : nat) (k : Runtime.bcont) (kI : cont) :
  (forall j c d, tracks (k j c d) (kI j c)) ->
  tracks (Runtime.step s p i caps pending k) (step s p i caps kI).
Proof.
  intros H. unfold Runtime.step, step.
  destruct (nth_error s i) as [d|]; [|right; reflexivity].
  destruct (p d); [apply H | right; reflexivity].
Qed.

Lemma rounds_tracks (capacity : nat)
    (once : nat -> captures -> nat -> Runtime.bcont -> Runtime.verdict)
    (onceI : nat -> captures -> cont -> option mstate)
    (greedy : bool) (k : Runtime.bcont) (kI : cont) :
  (forall i caps d k' kI',
     (forall j c d', tracks (k' j c d') (kI' j c)) ->
     tracks (once i caps d k') (onceI i caps kI')) ->
  (forall j c d, tracks (k j c d) (kI j c)) ->
  forall fuel i caps d,
    tracks (Runtime.rounds capacity once greedy k fuel i caps d)
           (rounds onceI greedy kI fuel i caps).
Proof.
  intros Honce Hk. induction fuel as [|fuel IH]; intros i caps d.
  - apply Hk.
  - cbn [Runtime.rounds rounds].
    assert (Hmore : forall d',
              tracks
                (once i caps d'
                   (fun j caps' d'' =>
                      if Nat.ltb i j
                      then Runtime.rounds capacity once greedy k fuel j caps' d''
                      else Runtime.NoMatch))
                (onceI i caps
                   (fun j caps' =>
                      if Nat.ltb i j then rounds onceI greedy kI fuel j caps'
                      else None))).
    { intros d'. apply Honce. intros j c d''.
      destruct (Nat.ltb i j); [apply IH | right; reflexivity]. }
    destruct greedy.
    + apply choose_tracks; [exact Hmore | apply Hk].
    + apply choose_tracks; [intros d'; apply Hk | apply Hmore].
Qed.

Lemma rmatch_tracks (capacity : nat) (ic : bool) (s : str) (r : regex) :
  forall i caps d (k : Runtime.bcont) (kI : cont),
    (forall j c d', tracks (k j c d') (kI j c)) ->
    tracks (Runtime.rmatch capacity ic s r i caps d k)
           (rmatch ic s r i caps kI).
Proof.
  induction r as [|c|neg items| | |r1 IH1 r2 IH2|r1 IH1 r2 IH2|greedy r1 IH1
                  |r1 IH1|n r1 IH1];
    intros i caps d k kI Hk; cbn [Runtime.rmatch rmatch].
  - apply Hk.
  - apply step_tracks. exact Hk.
  - apply step_tracks. exact Hk.
  - apply step_tracks. exact Hk.
  - destruct (Nat.eqb i 0); [apply Hk | right; reflexivity].
  - apply IH1. intros j c d'. apply IH2. exact Hk.
  - apply choose_tracks; [intros d'; apply IH1; exact Hk | apply IH2; exact Hk].
  - apply rounds_tracks; [|exact Hk].
    intros i' caps' d' k' kI' Hk'. apply IH1. exact Hk'.
  - apply choose_tracks; [|apply Hk].
    intros d'. apply IH1. intros j c d''.
    destruct (Nat.ltb i j); [apply Hk | right; reflexivity].
  - apply IH1. intros j c d'. apply Hk.
Qed.

Lemma search_agrees (capacity : nat) (ic : bool) (s : str) (r : regex) :
  forall fuel i,
    agrees (Runtime.search capacity ic s r fuel i) (Ret (search ic s r fuel i)).
Proof.
  induction fuel as [|fuel IH]; intros i; cbn [Runtime.search search];
    (destruct (rmatch_tracks capacity ic s r i [] 0 Runtime.accept accept)
       as [E|E]; [intros j c d; right; reflexivity | | ]);
    rewrite E; try reflexivity;
    destruct (rmatch ic s r i [] accept) as [st|]; simpl; try reflexivity.
  apply IH.
Qed.

(** [exec] on the bounded engine gives what the semantics says, or
    throws the [RangeError]. *)
Lemma exec_agrees (capacity : nat) (re : RegExp) (s : str) :
  agrees (Runtime.exec capacity re s) (Ret (exec re s)).
Proof.
  unfold Runtime.exec, exec.
  destruct (Nat.ltb (length s) (if global re then lastIndex re else 0));
    [reflexivity|].
  pose proof (search_agrees capacity (ignoreCase re) s (source re)
                (length s - (if global re then lastIndex re else 0))
                (if global re then lastIndex re else 0)) as H.
  apply agrees_value in H. destruct H as [-> | ->]; [|reflexivity].
  cbn [bind]. destruct (search _ _ _ _ _) as [[i [e cs]]|]; reflexivity.
Qed.

Lemma exec_cases (capacity : nat) (re : RegExp) (s : str) :
  Runtime.exec capacity re s = Ret (exec re s)
  \/ Runtime.exec capacity re s = Throw Runtime.rangeError.
Proof. apply agrees_value. apply exec_agrees. Qed.

Lemma test_agrees (capacity : nat) (re : RegExp) (s : str) :
  agrees (Runtime.test capacity re s) (Ret (test re s)).
Proof.
  unfold Runtime.test, test.
  destruct (exec_cases capacity re s) as [-> | ->]; reflexivity.
Qed.

Lemma smatch_agrees (capacity : nat) (s : str) (re : RegExp) :
  agrees (Runtime.smatch capacity s re) (Ret (smatch s re)).
Proof.
  unfold Runtime.smatch, smatch.
  destruct (exec_cases capacity re s) as [-> | ->]; reflexivity.
Qed.

Lemma replaceLoop_agrees (capacity : nat) (s : str) :
  forall fuel re,
    agrees (Runtime.replaceLoop capacity fuel re s) (replaceLoop fuel re s).
Proof.
  induction fuel as [|fuel IH]; intros re; [apply agrees_refl|].
  cbn [Runtime.replaceLoop replaceLoop].
  destruct (exec_cases capacity re s) as [-> | ->];
    [|apply agrees_overflow].
  cbn [bind]. destruct (exec re s) as [[m|] re']; [|reflexivity].
  apply agrees_bind; [apply IH|]. intros ms. reflexivity.
Qed.

Lemma replace_agrees (capacity : nat) (s : str) (re : RegExp)
    (f : MatchResult -> str) :
  agrees (Runtime.replace capacity s re f) (replace s re f).
Proof.
  unfold Runtime.replace, replace. destruct (global re).
  - apply agrees_bind; [apply replaceLoop_agrees|]. intros ms. reflexivity.
  - destruct (exec_cases capacity re s) as [-> | ->];
      [|apply agrees_overflow].
    cbn [bind]. destruct (fst (exec re s)); reflexivity.
Qed.

(** ** Computations on the store *)

Lemma closed_ret (A : Type) (x : A) : closed (Runtime.ret x) (Ret x).
Proof.
  exists (Ret x). split; [reflexivity|]. intros h. exists [].
  rewrite app_nil_r. reflexivity.
Qed.

Lemma closed_eval (A : Type) (real ideal : outcome A) :
  agrees real ideal -> closed (Runtime.eval real) ideal.
Proof.
  intros H. exists real. split; [exact H|]. intros h. exists [].
  rewrite app_nil_r. reflexivity.
Qed.

Lemma closed_bind (A B : Type) (m : Runtime.run A) (ideal : outcome A)
    (k : A -> Runtime.run B) (ki : A -> outcome B) :
  closed m ideal ->
  (forall x, closed (k x) (ki x)) ->
  closed (Runtime.rbind m k) (bind ideal ki).
Proof.
  intros (r1 & A1 & R1) K. destruct r1 as [x|e|].
  - destruct ideal as [y|e'|]; simpl in A1; try contradiction. subst y.
    destruct (K x) as (r2 & A2 & R2). exists r2. split; [exact A2|].
    intros h. destruct (R1 h) as (o1 & E1).
    destruct (R2 (h ++ o1)) as (o2 & E2). exists (o1 ++ o2).
    unfold Runtime.rbind. rewrite E1, E2, app_assoc. reflexivity.
  - exists (Throw e). split.
    + destruct ideal as [y|e'|]; simpl in *; try exact I.
      subst e. apply agrees_overflow.
    + intros h. destruct (R1 h) as (o1 & E1). exists o1.
      unfold Runtime.rbind. rewrite E1. reflexivity.
  - exists Diverge. split.
    + destruct ideal as [y|e'|]; simpl in *; try exact I. contradiction.
    + intros h. destruct (R1 h) as (o1 & E1). exists o1.
      unfold Runtime.rbind. rewrite E1. reflexivity.
Qed.

Lemma closed_replaceNew (capacity : nat) (s : str) (re : RegExp)
    (f : MatchResult -> str) :
  closed (Runtime.replaceNew capacity s re f) (replace s re f).
Proof.
  exists (Runtime.replace capacity s re f). split; [apply replace_agrees|].
  intros h. exists [re]. reflexivity.
Qed.

Lemma nth_error_mid (A : Type) (pre post : list A) (x : A) :
  nth_error (pre ++ x :: post) (length pre) = Some x.
Proof.
  rewrite nth_error_app2 by lia. rewrite Nat.sub_diag. reflexivity.
Qed.

Lemma update_mid (pre post : Runtime.store) (x re : RegExp) :
  Runtime.update (length pre) re (pre ++ x :: post) = pre ++ re :: post.
Proof.
  induction pre as [|y pre IH]; [reflexivity|].
  cbn [length app Runtime.update]. rewrite IH. reflexivity.
Qed.

Lemma setLastIndexAt_mid (pre post : Runtime.store) (re : RegExp) (n : nat) :
  Runtime.setLastIndexAt (length pre) n (pre ++ re :: post)
  = (Ret tt, pre ++ setLastIndex re n :: post).
Proof.
  unfold Runtime.setLastIndexAt. rewrite nth_error_mid, update_mid.
  reflexivity.
Qed.

(** The loop over the matches of an object of the store: what it gives
    does not depend on the rest of the store, and it changes no object
    but its own. *)
Lemma whileExec_spec (B : Type) (capacity : nat) (s : str)
    (body : MatchResult -> Runtime.run B) (pbody : MatchResult -> outcome B) :
  (forall m, closed (body m) (pbody m)) ->
  forall fuel re,
    exists real,
      agrees real (r <- execLoop fuel re s ;; mapM pbody (fst r))
      /\ forall pre post,
           exists re' objs,
             Runtime.whileExec capacity fuel (length pre) s body
               (pre ++ re :: post)
             = (real, pre ++ re' :: post ++ objs).
Proof.
  intros Hbody. induction fuel as [|fuel IH]; intros re.
  - exists Diverge. split; [exact I|]. intros pre post. exists re, [].
    rewrite app_nil_r. reflexivity.
  - cbn [Runtime.whileExec execLoop].
    destruct (exec_cases capacity re s) as [E|E].
    + destruct (exec re s) as [[m|] re1] eqn:Ex.
      * destruct (Hbody m) as (rb & Ab & Rb).
        destruct (IH re1) as (real2 & A2 & R2).
        exists (b <- rb ;; bs <- real2 ;; Ret (b :: bs)). split.
        -- destruct (execLoop fuel re1 s) as [[ms re2]| |]; cbn [bind fst] in *.
           ++ cbn [mapM]. apply agrees_bind; [exact Ab|]. intros b.
              apply agrees_bind; [exact A2|]. intros bs. reflexivity.
           ++ destruct rb as [b| |]; cbn [bind]; try exact I.
              destruct real2; simpl in *; try contradiction; exact I.
           ++ destruct rb as [b| |]; cbn [bind]; try exact I.
              destruct real2; simpl in *; try contradiction; exact I.
        -- intros pre post.
           destruct (Rb (pre ++ re1 :: post)) as (o1 & E1).
           destruct (R2 pre (post ++ o1)) as (re' & o2 & E2).
           unfold Runtime.rbind at 1. unfold Runtime.execAt.
           rewrite nth_error_mid, E, update_mid.
           unfold Runtime.rbind at 1. rewrite E1.
           destruct rb as [b| |].
           ++ exists re', (o1 ++ o2). unfold Runtime.rbind.
              replace ((pre ++ re1 :: post) ++ o1)
                with (pre ++ re1 :: post ++ o1)
                by (rewrite <- app_assoc; reflexivity).
              rewrite E2. cbn [bind]. destruct real2; cbn [bind];
                rewrite <- ?app_assoc; reflexivity.
           ++ exists re1, o1. cbn [bind].
              rewrite <- app_assoc. reflexivity.
           ++ exists re1, o1. cbn [bind].
              rewrite <- app_assoc. reflexivity.
      * exists (Ret []). split; [reflexivity|]. intros pre post.
        exists re1, []. unfold Runtime.rbind, Runtime.execAt.
        rewrite nth_error_mid, E, update_mid, app_nil_r. reflexivity.
    + exists (Throw Runtime.rangeError). split; [apply agrees_overflow|].
      intros pre post. exists re, [].
      unfold Runtime.rbind, Runtime.execAt.
      rewrite nth_error_mid, E, app_nil_r. reflexivity.
Qed.

(** A literal with the [g] flag and the loop over its matches. *)
Lemma closed_forEach (B : Type) (capacity : nat) (s : str) (re : RegExp)
    (fuel : nat)
    (body : MatchResult -> Runtime.run B) (pbody : MatchResult -> outcome B) :
  (forall m, closed (body m) (pbody m)) ->
  closed (Runtime.rbind (Runtime.new re)
            (fun a => Runtime.whileExec capacity fuel a s body))
         (r <- execLoop fuel re s ;; mapM pbody (fst r)).
Proof.
  intros Hbody.
  destruct (whileExec_spec B capacity s body pbody Hbody fuel re)
    as (real & A & R).
  exists real. split; [exact A|]. intros h.
  destruct (R h []) as (re' & objs & E). exists (re' :: objs).
  unfold Runtime.rbind, Runtime.new. rewrite E. reflexivity.
Qed.

Lemma closed_ext (A : Type) (m m' : Runtime.run A) (ideal : outcome A) :
  (forall h, m h = m' h) -> closed m ideal -> closed m' ideal.
Proof.
  intros E (real & Hr & R). exists real. split; [exact Hr|].
  intros h. rewrite <- E. apply R.
Qed.

Lemma closed_bind_value (A B : Type) (m : Runtime.run A) (x : A)
    (k : A -> Runtime.run B) (ideal : outcome B) :
  closed m (Ret x) -> closed (k x) ideal -> closed (Runtime.rbind m k) ideal.
Proof.
  intros Hm Hk.
  destruct Hm as (real & Ha & R).
  destruct real as [z|e|]; simpl in Ha; try contradiction.
  - subst z. destruct Hk as (r2 & A2 & R2). exists r2. split; [exact A2|].
    intros h. destruct (R h) as (o1 & E1).
    destruct (R2 (h ++ o1)) as (o2 & E2). exists (o1 ++ o2).
    unfold Runtime.rbind. rewrite E1, E2, app_assoc. reflexivity.
  - subst e. exists (Throw Runtime.rangeError).
    split; [apply agrees_overflow|].
    intros h. destruct (R h) as (o1 & E1). exists o1.
    unfold Runtime.rbind. rewrite E1. reflexivity.
Qed.

(** ** The functionality summary on the bounded engine *)

Lemma mapM_pure (A B : Type) (f : A -> B) (l : list A) :
  mapM (fun a => Ret (f a)) l = Ret (map f l).
Proof.
  induction l as [|a l IH]; [reflexivity|].
  cbn [mapM bind map]. rewrite IH. reflexivity.
Qed.

Lemma filter_map_hits (A : Type) (f : A -> bool) (l : list A) :
  length (filter (fun hit : bool => hit) (map f l)) = length (filter f l).
Proof.
  induction l as [|a l IH]; [reflexivity|].
  cbn [map filter]. destruct (f a); cbn [length]; rewrite IH; reflexivity.
Qed.

Lemma probeCount_agrees (capacity : nat) (code : str) (probes : list RegExp) :
  agrees (Runtime.probeCount capacity code probes)
         (Ret (probeCount code probes)).
Proof.
  unfold Runtime.probeCount, probeCount.
  pose proof (agrees_mapM _ _ (fun p => Runtime.test capacity p code)
                (fun p => Ret (test p code)) probes
                (fun p => test_agrees capacity p code)) as H.
  rewrite mapM_pure in H. apply agrees_value in H.
  destruct H as [-> | ->]; [|reflexivity].
  cbn [bind]. simpl. apply filter_map_hits.
Qed.

Lemma countMatches_agrees (capacity : nat) (code : str)
    (table : list (string * list RegExp)) :
  agrees (Runtime.countMatches capacity code table)
         (Ret (countMatches code table)).
Proof.
  unfold Runtime.countMatches, countMatches.
  rewrite <- (mapM_pure _ _ (fun e => (fst e, probeCount code (snd e)))).
  apply agrees_mapM. intros e.
  pose proof (probeCount_agrees capacity code (snd e)) as H.
  apply agrees_value in H. destruct H as [-> | ->]; reflexivity.
Qed.

Lemma flagsOf_countMatches (code : str) (table : list (string * list RegExp)) :
  Runtime.flagsOf (countMatches code table) = flagMatches code table.
Proof.
  unfold Runtime.flagsOf, countMatches, flagMatches. rewrite map_map.
  reflexivity.
Qed.

Lemma extractCoreFunctionality_agrees (capacity : nat)
    (code programming_language : str) :
  agrees (Runtime.extractCoreFunctionality capacity code programming_language)
         (Ret (extractCoreFunctionality code programming_language)).
Proof.
  unfold Runtime.extractCoreFunctionality, extractCoreFunctionality.
  pose proof (countMatches_agrees capacity code
                (purposePatterns programming_language)) as H.
  apply agrees_value in H. destruct H as [-> | ->]; [|reflexivity].
  cbn [bind]. rewrite flagsOf_countMatches. reflexivity.
Qed.

(** ** Descriptions and components on the bounded engine *)

Lemma closed_cleanComment (capacity : nat) (raw : str) :
  closed (Runtime.cleanComment capacity raw) (cleanComment raw).
Proof.
  unfold Runtime.cleanComment, cleanComment.
  apply closed_bind; [apply closed_replaceNew|]. intros a.
  apply closed_bind; [apply closed_replaceNew|]. intros b.
  apply closed_bind; [apply closed_replaceNew|]. intros c.
  apply closed_ret.
Qed.

Lemma closed_humanize (capacity : nat) (componentName : str) :
  closed (Runtime.humanize capacity componentName) (humanize componentName).
Proof.
  unfold Runtime.humanize, humanize.
  apply closed_bind; [apply closed_replaceNew|]. intros a.
  apply closed_bind; [apply closed_eval, replace_agrees|]. intros b.
  apply closed_ret.
Qed.

Lemma closed_smatch_then (capacity : nat) (s : str) (re : RegExp)
    (f : option MatchResult -> jsval) :
  closed (Runtime.eval (m <- Runtime.smatch capacity s re ;; Ret (f m)))
         (Ret (f (smatch s re))).
Proof.
  apply closed_eval.
  pose proof (smatch_agrees capacity s re) as H. apply agrees_value in H.
  destruct H as [-> | ->]; reflexivity.
Qed.

Lemma closed_test (capacity : nat) (re : RegExp) (s : str) :
  closed (Runtime.eval (Runtime.test capacity re s)) (Ret (test re s)).
Proof. apply closed_eval, test_agrees. Qed.

Lemma closed_heuristicDescription (capacity : nat) (componentCode type : str) :
  closed (Runtime.heuristicDescription capacity componentCode type)
         (heuristicDescription componentCode type).
Proof.
  unfold Runtime.heuristicDescription, heuristicDescription.
  destruct (str_eqb type (lit "class")).
  - eapply closed_bind_value;
      [exact (closed_smatch_then capacity componentCode _
                (fun m => match m with
                          | Some m => grp m 1
                          | None => JStr []
                          end))|].
    apply closed_bind.
    { destruct (truthy _); [|apply closed_ret].
      apply closed_bind; [apply closed_humanize|]. intros s. apply closed_ret. }
    intros componentName.
    eapply closed_bind_value;
      [apply closed_eval, countMatches_agrees|].
    apply closed_ret.
  - eapply closed_bind_value;
      [exact (closed_smatch_then capacity componentCode _
                (fun m => match m with
                          | Some m => jsor (grp m 1) (grp m 2)
                          | None => JStr []
                          end))|].
    apply closed_bind.
    { destruct (truthy _); [|apply closed_ret].
      apply closed_bind; [apply closed_humanize|]. intros s. apply closed_ret. }
    intros componentName.
    eapply closed_bind_value;
      [apply closed_eval, countMatches_agrees|].
    eapply closed_bind_value; [apply closed_test|].
    eapply closed_bind_value; [apply closed_test|].
    apply closed_ret.
Qed.

Lemma closed_commentOf (capacity : nat) (componentCode : str)
    (commentRegex : RegExp) :
  closed (Runtime.commentOf capacity componentCode commentRegex)
         (commentOf componentCode commentRegex).
Proof.
  unfold Runtime.commentOf, commentOf.
  eapply closed_bind_value; [apply closed_eval, smatch_agrees|].
  destruct (smatch componentCode commentRegex) as [m|]; [|apply closed_ret].
  destruct (grp m 1) as [| |raw];
    try (apply closed_eval, agrees_refl).
  apply closed_bind; [apply closed_cleanComment|]. intros comment.
  apply closed_ret.
Qed.

Lemma closed_generateComponentDescription (capacity : nat)
    (componentCode type : str) :
  closed (Runtime.generateComponentDescription capacity componentCode type)
         (generateComponentDescription componentCode type).
Proof.
  unfold Runtime.generateComponentDescription, generateComponentDescription.
  destruct (includes componentCode tripleDQuote || includes componentCode tripleQuote).
  - apply closed_bind; [apply closed_commentOf|].
    intros [comment|]; [apply closed_ret | apply closed_heuristicDescription].
  - destruct (includes componentCode (lit "/**")).
    + apply closed_bind; [apply closed_commentOf|].
      intros [comment|]; [apply closed_ret | apply closed_heuristicDescription].
    + destruct (includes componentCode (lit "//")).
      * destruct (Nat.ltb 0 _);
          [apply closed_ret | apply closed_heuristicDescription].
      * apply closed_heuristicDescription.
Qed.

Lemma closed_componentOfMatch (capacity : nat) (code type : str)
    (m : MatchResult) :
  closed (Runtime.componentOfMatch capacity code type m)
         (componentOfMatch code type m).
Proof.
  unfold Runtime.componentOfMatch, componentOfMatch.
  apply closed_bind; [apply closed_generateComponentDescription|].
  intros description. apply closed_ret.
Qed.

(** A literal with the [g] flag, the loop over its matches, and what
    follows the loop. *)
Lemma closed_forEach_then (B C : Type) (capacity : nat) (s : str)
    (re : RegExp)
    (body : MatchResult -> Runtime.run B) (pbody : MatchResult -> outcome B)
    (rest : list B -> Runtime.run C) (prest : list B -> outcome C) :
  (forall m, closed (body m) (pbody m)) ->
  (forall bs, closed (rest bs) (prest bs)) ->
  closed
    (Runtime.rbind (Runtime.new re)
       (fun a =>
          Runtime.rbind (Runtime.whileExec capacity (length s + 2) a s body)
            rest))
    (ms <- execAll re s ;; bs <- mapM pbody ms ;; prest bs).
Proof.
  intros Hbody Hrest.
  assert (E : (ms <- execAll re s ;; bs <- mapM pbody ms ;; prest bs)
              = bind (r <- execLoop (length s + 2) re s ;; mapM pbody (fst r))
                  prest).
  { unfold execAll. destruct (execLoop (length s + 2) re s) as [[ms re']| |];
      reflexivity. }
  rewrite E.
  apply (closed_ext _
           (Runtime.rbind
              (Runtime.rbind (Runtime.new re)
                 (fun a => Runtime.whileExec capacity (length s + 2) a s body))
              rest)).
  { intros h. unfold Runtime.rbind, Runtime.new.
    destruct (Runtime.whileExec capacity (length s + 2) (length h) s body
                (h ++ [re])) as [[bs|e|] h']; reflexivity. }
  apply closed_bind; [apply closed_forEach; exact Hbody | exact Hrest].
Qed.

Lemma closed_extractComponents (capacity : nat)
    (code programming_language : str) :
  closed (Runtime.extractComponents capacity code programming_language)
         (extractComponents code programming_language).
Proof.
  unfold Runtime.extractComponents, extractComponents.
  apply closed_forEach_then; [intros m; apply closed_componentOfMatch|].
  intros mainClasses.
  apply closed_forEach_then; [intros m; apply closed_componentOfMatch|].
  intros named.
  apply closed_forEach_then; [intros m; apply closed_componentOfMatch|].
  intros arrows. apply closed_ret.
Qed.

(** ** The diagram on the bounded engine *)

Lemma matchesAt_spec (capacity : nat) (s : str) (re : RegExp) :
  exists real,
    agrees real (execAll re s)
    /\ forall pre post,
         exists re' objs,
           Runtime.matchesAt capacity (length pre) s (pre ++ re :: post)
           = (real, pre ++ re' :: post ++ objs).
Proof.
  destruct (whileExec_spec MatchResult capacity s
              (fun m => Runtime.ret m) (fun m => Ret m)
              (fun m => closed_ret _ m) (length s + 2) re)
    as (real & A & R).
  exists real. split; [|exact R].
  unfold execAll. destruct (execLoop (length s + 2) re s) as [[ms re']| |];
    cbn [bind fst] in *; try exact A.
  rewrite (mapM_pure _ _ (fun m => m)), map_id in A. exact A.
Qed.

Lemma agrees_bind_map (A A' B : Type) (real ideal : outcome A) (g : A -> A')
    (kr : A -> outcome B) (ki : A' -> outcome B) :
  agrees real ideal ->
  (forall x, agrees (kr x) (ki (g x))) ->
  agrees (bind real kr) (bind (y <- ideal ;; Ret (g y)) ki).
Proof.
  intros H K. destruct real as [x|e|], ideal as [y|e'|]; simpl in *;
    try contradiction; try exact I.
  - subst y. apply K.
  - subst e. apply agrees_overflow.
Qed.

(** The run of the diagram on a store, from what its three loops give. *)
Lemma generateArchitectureDiagram_run (capacity : nat)
    (code programming_language : str)
    (rc rf ri : outcome (list MatchResult)) :
  let ps := selectPatterns programming_language in
  (forall pre post, exists re' objs,
     Runtime.matchesAt capacity (length pre) code
       (pre ++ setLastIndex (classRegex ps) 0 :: post)
     = (rc, pre ++ re' :: post ++ objs)) ->
  (forall pre post, exists re' objs,
     Runtime.matchesAt capacity (length pre) code
       (pre ++ setLastIndex (functionRegex ps) 0 :: post)
     = (rf, pre ++ re' :: post ++ objs)) ->
  (forall pre post, exists re' objs,
     Runtime.matchesAt capacity (length pre) code
       (pre ++ setLastIndex (importRegex ps) 0 :: post)
     = (ri, pre ++ re' :: post ++ objs)) ->
  forall h, exists objs,
    Runtime.generateArchitectureDiagram capacity code programming_language h
    = (cms <- rc ;; fms <- rf ;; ims <- ri ;;
       renderDiagram code (map classOfMatch cms)
         (topLevelFunctions code (map classOfMatch cms) fms)
         (map importOfMatch ims),
       h ++ objs).
Proof.
  cbv zeta. unfold Runtime.generateArchitectureDiagram.
  set (ps := selectPatterns programming_language).
  intros Rc Rf Ri h. cbv zeta.
  set (c := classRegex ps) in *. set (f := functionRegex ps) in *.
  set (m := methodRegex ps). set (i := importRegex ps) in *.
  unfold Runtime.rbind at 1 2 3 4. unfold Runtime.new.
  cbv beta iota.
  replace ((((h ++ [c]) ++ [f]) ++ [m]) ++ [i])
    with (h ++ c :: [f; m; i])
    by (rewrite <- !app_assoc; reflexivity).
  unfold Runtime.rbind at 1. rewrite setLastIndexAt_mid.
  replace (length (h ++ [c])) with (length (h ++ [setLastIndex c 0]))
    by (rewrite !length_app; reflexivity).
  replace (h ++ setLastIndex c 0 :: [f; m; i])
    with ((h ++ [setLastIndex c 0]) ++ f :: [m; i])
    by (rewrite <- app_assoc; reflexivity).
  unfold Runtime.rbind at 1. rewrite setLastIndexAt_mid.
  replace (length (((h ++ [c]) ++ [f]) ++ [m]))
    with (length (h ++ [setLastIndex c 0; setLastIndex f 0; m]))
    by (rewrite !length_app; cbn [length]; lia).
  replace ((h ++ [setLastIndex c 0]) ++ setLastIndex f 0 :: [m; i])
    with ((h ++ [setLastIndex c 0; setLastIndex f 0; m]) ++ i :: [])
    by (rewrite <- !app_assoc; reflexivity).
  unfold Runtime.rbind at 1. rewrite setLastIndexAt_mid.
  replace ((h ++ [setLastIndex c 0; setLastIndex f 0; m])
           ++ [setLastIndex i 0])
    with (h ++ setLastIndex c 0 :: [setLastIndex f 0; m; setLastIndex i 0])
    by (rewrite <- !app_assoc; reflexivity).
  destruct (Rc h [setLastIndex f 0; m; setLastIndex i 0]) as (c' & o1 & Ec).
  unfold Runtime.rbind at 1. rewrite Ec.
  destruct rc as [cms|e|]; cbn [bind];
    [|eexists; reflexivity|eexists; reflexivity].
  replace (length (h ++ [setLastIndex c 0])) with (length (h ++ [c']))
    by (rewrite !length_app; reflexivity).
  replace (h ++ c' :: [setLastIndex f 0; m; setLastIndex i 0] ++ o1)
    with ((h ++ [c']) ++ setLastIndex f 0 :: ([m; setLastIndex i 0] ++ o1))
    by (rewrite <- !app_assoc; reflexivity).
  destruct (Rf (h ++ [c']) ([m; setLastIndex i 0] ++ o1)) as (f' & o2 & Ef).
  unfold Runtime.rbind at 1. rewrite Ef.
  destruct rf as [fms|e|]; cbn [bind].
  2:{ exists (c' :: f' :: ([m; setLastIndex i 0] ++ o1) ++ o2).
      rewrite <- !app_assoc. reflexivity. }
  2:{ exists (c' :: f' :: ([m; setLastIndex i 0] ++ o1) ++ o2).
      rewrite <- !app_assoc. reflexivity. }
  replace (length (h ++ [setLastIndex c 0; setLastIndex f 0; m]))
    with (length (h ++ [c'; f'; m]))
    by (rewrite !length_app; reflexivity).
  replace ((h ++ [c']) ++ f' :: ([m; setLastIndex i 0] ++ o1) ++ o2)
    with ((h ++ [c'; f'; m]) ++ setLastIndex i 0 :: (o1 ++ o2))
    by (rewrite <- !app_assoc; reflexivity).
  destruct (Ri (h ++ [c'; f'; m]) (o1 ++ o2)) as (i' & o3 & Ei).
  unfold Runtime.rbind at 1. rewrite Ei.
  exists (c' :: f' :: m :: i' :: (o1 ++ o2) ++ o3).
  destruct ri as [ims|e|]; cbn [bind]; unfold Runtime.eval;
    rewrite <- !app_assoc; reflexivity.
Qed.

Lemma closed_generateArchitectureDiagram (capacity : nat)
    (code programming_language : str) :
  closed (Runtime.generateArchitectureDiagram capacity code programming_language)
         (generateArchitectureDiagram code programming_language).
Proof.
  pose (ps := selectPatterns programming_language).
  destruct (matchesAt_spec capacity code (setLastIndex (classRegex ps) 0))
    as (rc & Ac & Rc).
  destruct (matchesAt_spec capacity code (setLastIndex (functionRegex ps) 0))
    as (rf & Af & Rf).
  destruct (matchesAt_spec capacity code (setLastIndex (importRegex ps) 0))
    as (ri & Ai & Ri).
  exists (cms <- rc ;; fms <- rf ;; ims <- ri ;;
          renderDiagram code (map classOfMatch cms)
            (topLevelFunctions code (map classOfMatch cms) fms)
            (map importOfMatch ims)).
  split.
  - unfold generateArchitectureDiagram, extractClasses, extractFunctions,
      extractImports. fold ps.
    apply agrees_bind_map; [exact Ac|]. intros cms.
    apply agrees_bind_map; [exact Af|]. intros fms.
    apply agrees_bind_map; [exact Ai|]. intros ims.
    apply agrees_refl.
  - exact (generateArchitectureDiagram_run capacity code programming_language
             rc rf ri Rc Rf Ri).
Qed.

Lemma closed_explainCode (capacity : nat) (code programming_language : str) :
  closed (Runtime.explainCode capacity code programming_language)
         (explainCode code programming_language).
Proof.
  unfold Runtime.explainCode, explainCode.
  apply closed_bind; [apply closed_generateArchitectureDiagram|].
  intros architectureDiagram.
  eapply closed_bind_value;
    [apply closed_eval, extractCoreFunctionality_agrees|].
  apply closed_bind; [apply closed_extractComponents|].
  intros components. apply closed_ret.
Qed.

(** What a call of [explainCode] gives on the bounded engine, whatever
    the store: the [RangeError], or the report of the semantics. *)
Lemma explainCode_on_engine (capacity : nat) (code programming_language : str) :
  exists real,
    (real = Throw Runtime.rangeError
     \/ real = explainCode code programming_language)
    /\ (exists r, explainCode code programming_language = Ret r)
    /\ forall h, exists objs,
         Runtime.explainCode capacity code programming_language h
         = (real, h ++ objs).
Proof.
  destruct (closed_explainCode capacity code programming_language)
    as (real & A & R).
  destruct (explainCode_returns code programming_language) as (d & cs & E).
  exists real. split; [|split; [eexists; exact E | exact R]].
  rewrite E in *. apply agrees_value in A. tauto.
Qed.

(** ** A text on which the engine runs out of stack *)














(** ** What a call gives *)

(** What a call gives on an engine of any capacity and on any store:
    the [RangeError] of a full backtrack stack, or a text that is not
    empty and contains the four fixed section headers. *)
Lemma explainCode_report_or_rangeError (capacity : nat)
    (code programming_language : str) (h : Runtime.store) :
  exists result objs,
    Runtime.explainCode capacity code programming_language h
    = (result, h ++ objs)
    /\ (result = Throw Runtime.rangeError
        \/ exists r,
             result = Ret r
             /\ r <> []
             /\ includes r (lit "Architecture Diagram") = true
             /\ includes r (lit "Core Functionality") = true
             /\ includes r (lit "Main Classes:") = true
             /\ includes r (lit "Main Functions:") = true).
Proof.
  destruct (explainCode_on_engine capacity code programming_language)
    as (real & Hreal & _ & R).
  destruct (R h) as (objs & E). exists real, objs. split; [exact E|].
  destruct Hreal as [-> | ->]; [left; reflexivity|]. right.
  destruct (explainCode_returns code programming_language) as (d & cs & ->).
  eexists. split; [reflexivity|]. apply report_headers.
Qed.


(** On an engine with room for 64 alternatives the sample texts are
    analysed as the semantics says. *)
Lemma samples_within_capacity :
  fst (Runtime.explainCode 64 methodSample (lit "js") [])
  = explainCode methodSample (lit "js")
  /\ fst (Runtime.explainCode 64 uiNetworkSample (lit "go") [])
     = explainCode uiNetworkSample (lit "go")
  /\ fst (Runtime.explainCode 64 (importLine 60) (lit "python") [])
     = explainCode (importLine 60) (lit "python").
Proof. repeat split; vm_compute; reflexivity. Qed.

(** C6: a second call with the same arguments, started on the store the
    first call left, has the outcome of the first call: the same text, or
    the same [RangeError].  Every [RegExp] object a call uses is created
    by that call. *)
Theorem explainCode_second_call_same (capacity : nat)
    (code programming_language : str) (h : Runtime.store) :
  exists result,
    explainAgain capacity code programming_language h = (result, result)
    /\ (result = Throw Runtime.rangeError \/ exists r, result = Ret r).
Proof.
  destruct (explainCode_on_engine capacity code programming_language)
    as (real & Hreal & (r & Hr) & R).
  exists real. split.
  - unfold explainAgain. cbv zeta.
    destruct (R h) as (o1 & E1). rewrite E1. cbn [fst snd].
    destruct (R (h ++ o1)) as (o2 & E2). rewrite E2. reflexivity.
  - destruct Hreal as [-> | ->]; [left; reflexivity|].
    right. exists r. exact Hr.
Qed.

(** The store after a call on [class A {}]: the four objects of the
    diagram and the three of the components, each with the [lastIndex]
    its loop left, and the objects of the calls of [replace]. *)
Lemma first_call_leaves_objects :
  map lastIndex
    (snd (Runtime.explainCode 64 (lit "class A {}") (lit "js") []))
  = [0; 0; 0; 0; 0; 0; 0; 0]
  /\ map global
       (snd (Runtime.explainCode 64 (lit "class A {}") (lit "js") []))
     = [true; true; true; true; true; true; true; true].
Proof. split; vm_compute; reflexivity. Qed.

(** ** The handler on the bounded engine *)

(** The handler answers every request and throws nothing: an error of
    the analysis is caught.  The status is 500 only when the body of the
    request could not be read as JSON or the engine ran out of stack. *)
Theorem fetch_always_answers (capacity : nat) (request : Request) (env : Env)
    (h : Runtime.store) :
  exists response objs,
    Runtime.fetch capacity request env h = (Ret response, h ++ objs)
    /\ (status response = 500 ->
        (exists message, json request = Rejected message)
        \/ response
           = mkResponse
               (lit "Error processing request: Maximum call stack size exceeded")
               500 []).
Proof.
  unfold Runtime.fetch.
  destruct (str_eqb (method request) (lit "POST")).
  2:{ exists usageResponse, []. rewrite app_nil_r.
      split; [reflexivity | discriminate]. }
  cbv zeta. destruct (refused _ _).
  { exists unauthorized, []. rewrite app_nil_r.
    split; [reflexivity | discriminate]. }
  destruct (json request) as [parsed|message].
  - unfold Runtime.catch. destruct (_ && _).
    2:{ exists invalidCall, []. rewrite app_nil_r.
        split; [reflexivity | discriminate]. }
    destruct (explainCode_on_engine capacity (nth 0 (params parsed) [])
                (nth 1 (params parsed) []))
      as (real & Hreal & (r & Hr) & R).
    destruct (R h) as (objs & E). unfold Runtime.rbind. rewrite E.
    destruct Hreal as [-> | ->].
    + eexists _, objs. split; [reflexivity|]. intros _. right. reflexivity.
    + rewrite Hr. eexists _, objs. split; [reflexivity | discriminate].
  - exists (errorResponse message), []. rewrite app_nil_r.
    split; [reflexivity|]. intros _. left. exists message. reflexivity.
Qed.


(** ** The second-ranked category *)









(** On a text with scores ui 3 and network 2: [ui] leads, [network] is
    ranked second although it comes first in the table, and the clause
    names it. *)
Lemma second_ranked_sample :
  secondRanked (countMatches uiNetworkSample (purposePatterns (lit "go")))
    "network" 2
  /\ exists body,
       extractCoreFunctionality uiNetworkSample (lit "go")
       = body ++ lit "It also includes functionality for network communication.".
Proof.
  split.
  - exists ("ui"%string, 3),
      [("network", 2); ("dataProcessing", 0); ("authentication", 0);
       ("database", 0); ("testing", 0); ("algorithm", 0);
       ("fileSystem", 0)]%string,
      [("dataProcessing", 0); ("authentication", 0);
       ("database", 0); ("testing", 0); ("algorithm", 0);
       ("fileSystem", 0)]%string.
    split; [|split; [|lia]].
    + exists [("network"%string, 2)],
        [("dataProcessing", 0); ("authentication", 0);
         ("database", 0); ("testing", 0); ("algorithm", 0);
         ("fileSystem", 0)]%string.
      split; [vm_compute; reflexivity|]. split; [reflexivity|].
      split; intros x Hx; simpl in Hx;
        repeat (destruct Hx as [<-|Hx]; [simpl; lia|]); contradiction.
    + exists [],
        [("dataProcessing", 0); ("authentication", 0);
         ("database", 0); ("testing", 0); ("algorithm", 0);
         ("fileSystem", 0)]%string.
      split; [reflexivity|]. split; [reflexivity|].
      split; intros x Hx; simpl in Hx;
        repeat (destruct Hx as [<-|Hx]; [simpl; lia|]); contradiction.
  - exists (lit "This code appears to implement a user interface that communicates with external services. ").
    vm_compute. reflexivity.
Qed.

(** ** The box of a standalone class *)

(** C10: every extracted class without a parent that no other extracted
    class names as its parent has its box in the diagram twice.  The box
    is three lines, a frame around the name padded to 14 characters; it
    is in the text of the pass over the parent classes and in the text
    of the pass over the standalone classes, and the diagram holds the
    first text followed by the second. *)
Theorem standalone_class_drawn_twice (code programming_language : str)
    (classes : list ClassInfo) (diagram : str) (c : ClassInfo) :
  extractClasses code (selectPatterns programming_language) = Ret classes ->
  generateArchitectureDiagram code programming_language = Ret diagram ->
  standalone classes c ->
  exists x p1 p2 pre post,
    cname c = JStr x
    /\ renderParentPass classes = Ret p1
    /\ renderStandalonePass classes = Ret p2
    /\ diagram = pre ++ p1 ++ p2 ++ post
    /\ let b := lit "    +------------------+" ++ nl
                ++ lit "    |  " ++ padEnd x 14 ++ lit "  |" ++ nl
                ++ lit "    +------------------+" ++ nl in
       occurs b p1 /\ occurs b p2.
Proof.
  intros Hc Hd Hs.
  destruct (standalone_class_in_both_passes code programming_language)
    as (classes' & p1 & p2 & diagram' & Hc' & H1 & H2 & Hd' & Hall).
  rewrite Hc in Hc'. inversion Hc'; subst classes'.
  rewrite Hd in Hd'. inversion Hd'; subst diagram'.
  destruct (Hall c Hs) as (b & pre & post & Hb & _ & Ho1 & Ho2 & E).
  unfold box in Hb. destruct (cname c) as [| |x] eqn:En; try discriminate.
  cbn [padEndV bind] in Hb. inversion Hb as [Eb].
  exists x, p1, p2, pre, post.
  split; [reflexivity|]. split; [exact H1|]. split; [exact H2|].
  split; [exact E|]. cbv zeta.
  assert (Ebox : lit "    +------------------+" ++ nl
                 ++ lit "    |  " ++ padEnd x 14 ++ lit "  |" ++ nl
                 ++ lit "    +------------------+" ++ nl = b).
  { rewrite <- Eb. reflexivity. }
  rewrite Ebox. split; assumption.
Qed.

Lemma standalone_class_drawn_twice_witness :
  extractClasses soloClass (selectPatterns (lit "javascript"))
  = Ret [mkClass (JStr (lit "Solo")) Null 0]
  /\ standalone [mkClass (JStr (lit "Solo")) Null 0]
       (mkClass (JStr (lit "Solo")) Null 0)
  /\ exists x p1 p2 pre post,
       cname (mkClass (JStr (lit "Solo")) Null 0) = JStr x
       /\ renderParentPass [mkClass (JStr (lit "Solo")) Null 0] = Ret p1
       /\ renderStandalonePass [mkClass (JStr (lit "Solo")) Null 0] = Ret p2
       /\ header ++ nl ++ lit "    Classes:" ++ nl ++ (soloBox ++ nl) ++ soloBox
          = pre ++ p1 ++ p2 ++ post
       /\ let b := lit "    +------------------+" ++ nl
                   ++ lit "    |  " ++ padEnd x 14 ++ lit "  |" ++ nl
                   ++ lit "    +------------------+" ++ nl in
          occurs b p1 /\ occurs b p2.
Proof.
  assert (H1 : extractClasses soloClass (selectPatterns (lit "javascript"))
               = Ret [mkClass (JStr (lit "Solo")) Null 0])
    by (vm_compute; reflexivity).
  assert (H2 : generateArchitectureDiagram soloClass (lit "javascript")
               = Ret (header ++ nl ++ lit "    Classes:" ++ nl
                      ++ (soloBox ++ nl) ++ soloBox))
    by (vm_compute; reflexivity).
  assert (H3 : standalone [mkClass (JStr (lit "Solo")) Null 0]
                 (mkClass (JStr (lit "Solo")) Null 0)).
  { split; [left; reflexivity|]. split; [reflexivity|].
    intros other [<-|[]]. reflexivity. }
  split; [exact H1|]. split; [exact H3|].
  exact (standalone_class_drawn_twice soloClass (lit "javascript")
           [mkClass (JStr (lit "Solo")) Null 0] _
           (mkClass (JStr (lit "Solo")) Null 0) H1 H2 H3).
Defined.

(** * Engines with a stack that is large enough *)

(** ** The matcher within its bound *)

Lemma choose_quiet (capacity pending : nat)
    (first : nat -> Runtime.verdict) (second : Runtime.verdict) :
  pending < capacity ->
  first (S pending) <> Runtime.Exhausted ->
  second <> Runtime.Exhausted ->
  Runtime.choose capacity pending first second <> Runtime.Exhausted.
Proof.
  intros Hp H1 H2. unfold Runtime.choose.
  apply Nat.ltb_lt in Hp. rewrite Hp.
  destruct (first (S pending)); [discriminate | exact H2 | contradiction].
Qed.

Lemma step_quiet (s : str) (p : char -> bool) (i : nat) (caps : captures)
    (pending : nat) (k : Runtime.bcont) :
  (forall j c, k j c pending <> Runtime.Exhausted) ->
  Runtime.step s p i caps pending k <> Runtime.Exhausted.
Proof.
  intros H. unfold Runtime.step.
  destruct (nth_error s i) as [d|]; [|discriminate].
  destruct (p d); [apply H | discriminate].
Qed.

Lemma rounds_quiet (capacity w : nat)
    (once : nat -> captures -> nat -> Runtime.bcont -> Runtime.verdict)
    (greedy : bool) (k : Runtime.bcont) :
  (forall i caps d k',
     d + w <= capacity ->
     (forall j c d', d' <= d + w -> k' j c d' <> Runtime.Exhausted) ->
     once i caps d k' <> Runtime.Exhausted) ->
  forall fuel i caps d,
    d + fuel * S w <= capacity ->
    (forall j c d', d' <= d + fuel * S w -> k j c d' <> Runtime.Exhausted) ->
    Runtime.rounds capacity once greedy k fuel i caps d <> Runtime.Exhausted.
Proof.
  intros Honce. induction fuel as [|fuel IH]; intros i caps d Hd Hk.
  - cbn [Runtime.rounds]. apply Hk. lia.
  - cbn [Runtime.rounds].
    assert (Hmore : forall d0,
              d0 <= S d ->
              once i caps d0
                (fun j caps' d' =>
                   if Nat.ltb i j
                   then Runtime.rounds capacity once greedy k fuel j caps' d'
                   else Runtime.NoMatch)
              <> Runtime.Exhausted).
    { intros d0 Hd0. apply Honce; [lia|]. intros j c d' Hd'.
      destruct (Nat.ltb i j); [|discriminate].
      apply IH; [lia|]. intros j' c' d'' Hd''. apply Hk. lia. }
    destruct greedy.
    + apply choose_quiet; [lia | apply Hmore; lia | apply Hk; lia].
    + apply choose_quiet; [lia | apply Hk; lia | apply Hmore; lia].
Qed.

Lemma rmatch_quiet (capacity : nat) (ic : bool) (s : str) (r : regex) :
  forall i caps d (k : Runtime.bcont),
    d + weight (length s) r <= capacity ->
    (forall j c d', d' <= d + weight (length s) r ->
                    k j c d' <> Runtime.Exhausted) ->
    Runtime.rmatch capacity ic s r i caps d k <> Runtime.Exhausted.
Proof.
  induction r as [|c|neg items| | |r1 IH1 r2 IH2|r1 IH1 r2 IH2|greedy r1 IH1
                  |r1 IH1|n r1 IH1];
    intros i caps d k Hd Hk; cbn [Runtime.rmatch weight] in *.
  - apply Hk. lia.
  - apply step_quiet. intros j c0. apply Hk. lia.
  - apply step_quiet. intros j c0. apply Hk. lia.
  - apply step_quiet. intros j c0. apply Hk. lia.
  - destruct (Nat.eqb i 0); [apply Hk; lia | discriminate].
  - apply IH1; [lia|]. intros j c d' Hd'.
    apply IH2; [lia|]. intros j' c' d'' Hd''. apply Hk. lia.
  - apply choose_quiet; [lia | |].
    + apply IH1; [lia|]. intros j c d' Hd'. apply Hk. lia.
    + apply IH2; [lia|]. intros j c d' Hd'. apply Hk. lia.
  - assert (Hf : S (length s - i) * S (weight (length s) r1)
                 <= S (length s) * S (weight (length s) r1))
      by (apply Nat.mul_le_mono_r; lia).
    apply (rounds_quiet capacity (weight (length s) r1)).
    + intros i' caps' d' k' Hd' Hk'. apply IH1; assumption.
    + lia.
    + intros j c d' Hd'. apply Hk. lia.
  - apply choose_quiet; [lia | |apply Hk; lia].
    apply IH1; [lia|]. intros j c d' Hd'.
    destruct (Nat.ltb i j); [apply Hk; lia | discriminate].
  - apply IH1; [lia|]. intros j c d' Hd'. apply Hk. lia.
Qed.

Lemma search_quiet (capacity : nat) (ic : bool) (s : str) (r : regex) :
  weight (length s) r <= capacity ->
  forall fuel i,
    Runtime.search capacity ic s r fuel i = Ret (search ic s r fuel i).
Proof.
  intros Hw.
  assert (Hq : forall i,
            Runtime.rmatch capacity ic s r i [] 0 Runtime.accept
            = verdictOf (rmatch ic s r i [] accept)).
  { intros i.
    destruct (rmatch_tracks capacity ic s r i [] 0 Runtime.accept accept)
      as [E|E]; [intros j c d; right; reflexivity | | exact E].
    exfalso. revert E. apply rmatch_quiet; [exact Hw|].
    intros j c d' _. discriminate. }
  induction fuel as [|fuel IH]; intros i; cbn [Runtime.search search];
    rewrite Hq; destruct (rmatch ic s r i [] accept) as [st|]; simpl;
    try reflexivity.
  apply IH.
Qed.

(** [exec] does not throw on an engine whose capacity is the weight of
    the pattern on the text, or more. *)
Lemma exec_quiet (capacity : nat) (re : RegExp) (s : str) :
  weight (length s) (source re) <= capacity ->
  Runtime.exec capacity re s = Ret (exec re s).
Proof.
  intros Hw. unfold Runtime.exec, exec.
  destruct (Nat.ltb (length s) (if global re then lastIndex re else 0));
    [reflexivity|].
  rewrite search_quiet by exact Hw. cbn [bind].
  destruct (search _ _ _ _ _) as [[i [e cs]]|]; reflexivity.
Qed.

(** ** Computations that settle *)

Lemma eventuallyO_value (A : Type) (o : nat -> outcome A) (x : A) :
  settlesO o x -> eventuallyO o (Ret x).
Proof. intros H y E. inversion E; subst. exact H. Qed.

Lemma eventuallyO_bind (A B : Type) (o : nat -> outcome A) (ideal : outcome A)
    (k : nat -> A -> outcome B) (ki : A -> outcome B) :
  eventuallyO o ideal ->
  (forall a, eventuallyO (fun c => k c a) (ki a)) ->
  eventuallyO (fun c => bind (o c) (k c)) (bind ideal ki).
Proof.
  intros Ho Hk y H. destruct ideal as [a| |]; try discriminate.
  cbn [bind] in H. destruct (Ho a eq_refl) as (c1 & H1).
  destruct (Hk a y H) as (c2 & H2). exists (Nat.max c1 c2).
  intros c Hc. rewrite H1 by lia. cbn [bind]. apply H2. lia.
Qed.

Lemma eventuallyO_exec (re : RegExp) (s : str) :
  eventuallyO (fun c => Runtime.exec c re s) (Ret (exec re s)).
Proof.
  apply eventuallyO_value. exists (weight (length s) (source re)).
  intros c Hc. apply exec_quiet. exact Hc.
Qed.

Lemma eventuallyO_test (re : RegExp) (s : str) :
  eventuallyO (fun c => Runtime.test c re s) (Ret (test re s)).
Proof.
  unfold Runtime.test.
  apply (eventuallyO_bind _ _ _ (Ret (exec re s))
           (fun _ r => Ret (match fst r with Some _ => true | None => false end))
           (fun r => Ret (match fst r with Some _ => true | None => false end))).
  - apply eventuallyO_exec.
  - intros r. apply eventuallyO_value. exists 0. reflexivity.
Qed.

Lemma eventuallyO_smatch (s : str) (re : RegExp) :
  eventuallyO (fun c => Runtime.smatch c s re) (Ret (smatch s re)).
Proof.
  unfold Runtime.smatch.
  apply (eventuallyO_bind _ _ _ (Ret (exec re s))
           (fun _ r => Ret (fst r)) (fun r => Ret (fst r))).
  - apply eventuallyO_exec.
  - intros r. apply eventuallyO_value. exists 0. reflexivity.
Qed.

Lemma eventuallyO_replaceLoop (s : str) :
  forall fuel re,
    eventuallyO (fun c => Runtime.replaceLoop c fuel re s)
                (replaceLoop fuel re s).
Proof.
  induction fuel as [|fuel IH]; intros re ms H; [discriminate|].
  cbn [replaceLoop] in H. cbn [Runtime.replaceLoop].
  destruct (exec re s) as [[m|] re'] eqn:E.
  - destruct (replaceLoop fuel _ s) as [ms'| |] eqn:L; try discriminate.
    cbn [bind] in H. inversion H; subst ms.
    destruct (IH _ ms' L) as (c2 & H2).
    exists (Nat.max (weight (length s) (source re)) c2). intros c Hc.
    rewrite exec_quiet by lia. rewrite E. cbn [bind].
    rewrite H2 by lia. reflexivity.
  - inversion H; subst ms. exists (weight (length s) (source re)).
    intros c Hc. rewrite exec_quiet by lia. rewrite E. reflexivity.
Qed.

Lemma eventuallyO_replace (s : str) (re : RegExp) (f : MatchResult -> str) :
  eventuallyO (fun c => Runtime.replace c s re f) (replace s re f).
Proof.
  unfold Runtime.replace, replace. destruct (global re).
  - apply (eventuallyO_bind _ _ _ _ (fun _ ms => Ret (assemble s 0 ms f))
             (fun ms => Ret (assemble s 0 ms f))).
    + apply eventuallyO_replaceLoop.
    + intros ms. apply eventuallyO_value. exists 0. reflexivity.
  - intros out H. exists (weight (length s) (source re)). intros c Hc.
    rewrite exec_quiet by lia. cbn [bind].
    destruct (fst (exec re s)); exact H.
Qed.

Lemma eventuallyO_mapM (A B : Type) (f : nat -> A -> outcome B)
    (g : A -> outcome B) (l : list A) :
  (forall a, eventuallyO (fun c => f c a) (g a)) ->
  eventuallyO (fun c => mapM (f c) l) (mapM g l).
Proof.
  intros H. induction l as [|a l IH].
  - apply eventuallyO_value. exists 0. reflexivity.
  - cbn [mapM].
    apply (eventuallyO_bind _ _ (fun c => f c a) (g a)
             (fun c b => bs <- mapM (f c) l ;; Ret (b :: bs))
             (fun b => bs <- mapM g l ;; Ret (b :: bs))); [apply H|].
    intros b.
    apply (eventuallyO_bind _ _ (fun c => mapM (f c) l) (mapM g l)
             (fun _ bs => Ret (b :: bs)) (fun bs => Ret (b :: bs)));
      [exact IH|].
    intros bs. apply eventuallyO_value. exists 0. reflexivity.
Qed.

Lemma eventuallyO_probeCount (code : str) (probes : list RegExp) :
  eventuallyO (fun c => Runtime.probeCount c code probes)
              (Ret (probeCount code probes)).
Proof.
  apply eventuallyO_value.
  destruct (eventuallyO_mapM _ _ (fun c p => Runtime.test c p code)
              (fun p => Ret (test p code)) probes
              (fun p => eventuallyO_test p code)
              (map (fun p => test p code) probes) (mapM_pure _ _ _ probes))
    as (c0 & H).
  exists c0. intros c Hc. unfold Runtime.probeCount, probeCount.
  rewrite H by exact Hc. cbn [bind]. rewrite filter_map_hits. reflexivity.
Qed.

Lemma eventuallyO_countMatches (code : str)
    (table : list (string * list RegExp)) :
  eventuallyO (fun c => Runtime.countMatches c code table)
              (Ret (countMatches code table)).
Proof.
  unfold Runtime.countMatches, countMatches.
  rewrite <- (mapM_pure _ _ (fun e => (fst e, probeCount code (snd e)))).
  apply eventuallyO_mapM. intros e.
  apply (eventuallyO_bind _ _ (fun c => Runtime.probeCount c code (snd e))
           (Ret (probeCount code (snd e)))
           (fun _ n => Ret (fst e, n)) (fun n => Ret (fst e, n)));
    [apply eventuallyO_probeCount|].
  intros n. apply eventuallyO_value. exists 0. reflexivity.
Qed.

Lemma eventuallyO_extractCoreFunctionality (code programming_language : str) :
  eventuallyO
    (fun c => Runtime.extractCoreFunctionality c code programming_language)
    (Ret (extractCoreFunctionality code programming_language)).
Proof.
  apply eventuallyO_value.
  destruct (eventuallyO_countMatches code
              (purposePatterns programming_language) _ eq_refl) as (c0 & H).
  exists c0. intros c Hc.
  unfold Runtime.extractCoreFunctionality, extractCoreFunctionality.
  rewrite H by exact Hc. cbn [bind]. rewrite flagsOf_countMatches.
  reflexivity.
Qed.

Lemma eventually_ret (A : Type) (x : A) :
  eventually (fun _ => Runtime.ret x) (Ret x).
Proof.
  intros y E. inversion E; subst. exists 0. intros c _ h. exists [].
  rewrite app_nil_r. reflexivity.
Qed.

Lemma eventually_eval (A : Type) (o : nat -> outcome A) (ideal : outcome A) :
  eventuallyO o ideal -> eventually (fun c => Runtime.eval (o c)) ideal.
Proof.
  intros H x E. destruct (H x E) as (c0 & H0). exists c0.
  intros c Hc h. exists []. unfold Runtime.eval.
  rewrite H0 by exact Hc. rewrite app_nil_r. reflexivity.
Qed.

Lemma eventually_bind (A B : Type) (m : nat -> Runtime.run A)
    (ideal : outcome A) (k : nat -> A -> Runtime.run B) (ki : A -> outcome B) :
  eventually m ideal ->
  (forall a, eventually (fun c => k c a) (ki a)) ->
  eventually (fun c => Runtime.rbind (m c) (k c)) (bind ideal ki).
Proof.
  intros Hm Hk y H. destruct ideal as [a| |]; try discriminate.
  cbn [bind] in H. destruct (Hm a eq_refl) as (c1 & H1).
  destruct (Hk a y H) as (c2 & H2). exists (Nat.max c1 c2).
  intros c Hc h. destruct (H1 c ltac:(lia) h) as (o1 & E1).
  destruct (H2 c ltac:(lia) (h ++ o1)) as (o2 & E2).
  exists (o1 ++ o2). unfold Runtime.rbind. rewrite E1, E2, app_assoc.
  reflexivity.
Qed.

Lemma eventually_bind_value (A B : Type) (m : nat -> Runtime.run A) (x : A)
    (k : nat -> A -> Runtime.run B) (ideal : outcome B) :
  eventually m (Ret x) ->
  eventually (fun c => k c x) ideal ->
  eventually (fun c => Runtime.rbind (m c) (k c)) ideal.
Proof.
  intros Hm Hk y H. destruct (Hm x eq_refl) as (c1 & H1).
  destruct (Hk y H) as (c2 & H2). exists (Nat.max c1 c2).
  intros c Hc h. destruct (H1 c ltac:(lia) h) as (o1 & E1).
  destruct (H2 c ltac:(lia) (h ++ o1)) as (o2 & E2).
  exists (o1 ++ o2). unfold Runtime.rbind. rewrite E1, E2, app_assoc.
  reflexivity.
Qed.

Lemma eventually_replaceNew (s : str) (re : RegExp) (f : MatchResult -> str) :
  eventually (fun c => Runtime.replaceNew c s re f) (replace s re f).
Proof.
  intros out H. destruct (eventuallyO_replace s re f out H) as (c0 & H0).
  exists c0. intros c Hc h. exists [re].
  unfold Runtime.replaceNew, Runtime.rbind, Runtime.new, Runtime.eval.
  rewrite H0 by exact Hc. reflexivity.
Qed.

(** ** The analyser settles *)

Lemma eventually_cleanComment (raw : str) :
  eventually (fun c => Runtime.cleanComment c raw) (cleanComment raw).
Proof.
  unfold Runtime.cleanComment, cleanComment.
  apply eventually_bind; [apply eventually_replaceNew|]. intros a.
  apply eventually_bind; [apply eventually_replaceNew|]. intros b.
  apply eventually_bind; [apply eventually_replaceNew|]. intros c.
  apply eventually_ret.
Qed.

Lemma eventually_humanize (componentName : str) :
  eventually (fun c => Runtime.humanize c componentName)
             (humanize componentName).
Proof.
  unfold Runtime.humanize, humanize.
  apply eventually_bind; [apply eventually_replaceNew|]. intros a.
  apply eventually_bind;
    [apply eventually_eval, eventuallyO_replace|]. intros b.
  apply eventually_ret.
Qed.

Lemma eventually_smatch_then (s : str) (re : RegExp)
    (f : option MatchResult -> jsval) :
  eventually
    (fun c => Runtime.eval (m <- Runtime.smatch c s re ;; Ret (f m)))
    (Ret (f (smatch s re))).
Proof.
  apply eventually_eval.
  apply (eventuallyO_bind _ _ (fun c => Runtime.smatch c s re)
           (Ret (smatch s re)) (fun _ m => Ret (f m)) (fun m => Ret (f m)));
    [apply eventuallyO_smatch|].
  intros m. apply eventuallyO_value. exists 0. reflexivity.
Qed.

Lemma eventually_test (re : RegExp) (s : str) :
  eventually (fun c => Runtime.eval (Runtime.test c re s)) (Ret (test re s)).
Proof. apply eventually_eval, eventuallyO_test. Qed.

Lemma eventually_named (found : jsval) :
  eventually
    (fun c =>
       if truthy found
       then Runtime.rbind (Runtime.humanize c (toStr found))
              (fun s => Runtime.ret (JStr s))
       else Runtime.ret found)
    (if truthy found then s <- humanize (toStr found) ;; Ret (JStr s)
     else Ret found).
Proof.
  destruct (truthy found); [|apply eventually_ret].
  apply eventually_bind; [apply eventually_humanize|]. intros s.
  apply eventually_ret.
Qed.

Lemma eventually_heuristicDescription (componentCode type : str) :
  eventually (fun c => Runtime.heuristicDescription c componentCode type)
             (heuristicDescription componentCode type).
Proof.
  unfold Runtime.heuristicDescription, heuristicDescription.
  destruct (str_eqb type (lit "class")).
  - eapply eventually_bind_value;
      [exact (eventually_smatch_then componentCode _
                (fun m => match m with
                          | Some m => grp m 1
                          | None => JStr []
                          end))|].
    apply eventually_bind; [apply eventually_named|].
    intros componentName.
    eapply eventually_bind_value;
      [apply eventually_eval, eventuallyO_countMatches|].
    apply eventually_ret.
  - eapply eventually_bind_value;
      [exact (eventually_smatch_then componentCode _
                (fun m => match m with
                          | Some m => jsor (grp m 1) (grp m 2)
                          | None => JStr []
                          end))|].
    apply eventually_bind; [apply eventually_named|].
    intros componentName.
    eapply eventually_bind_value;
      [apply eventually_eval, eventuallyO_countMatches|].
    eapply eventually_bind_value; [apply eventually_test|].
    eapply eventually_bind_value; [apply eventually_test|].
    apply eventually_ret.
Qed.

Lemma eventually_commentOf (componentCode : str) (commentRegex : RegExp) :
  eventually (fun c => Runtime.commentOf c componentCode commentRegex)
             (commentOf componentCode commentRegex).
Proof.
  unfold Runtime.commentOf, commentOf.
  eapply eventually_bind_value;
    [apply eventually_eval, eventuallyO_smatch|].
  destruct (smatch componentCode commentRegex) as [m|];
    [|apply eventually_ret].
  destruct (grp m 1) as [| |raw]; try (intros x E; discriminate).
  apply eventually_bind; [apply eventually_cleanComment|]. intros comment.
  apply eventually_ret.
Qed.

Lemma eventually_described (componentCode type : str) (found : option str) :
  eventually
    (fun c =>
       match found with
       | Some comment => Runtime.ret comment
       | None => Runtime.heuristicDescription c componentCode type
       end)
    (match found with
     | Some comment => Ret comment
     | None => heuristicDescription componentCode type
     end).
Proof.
  destruct found; [apply eventually_ret | apply eventually_heuristicDescription].
Qed.

Lemma eventually_generateComponentDescription (componentCode type : str) :
  eventually
    (fun c => Runtime.generateComponentDescription c componentCode type)
    (generateComponentDescription componentCode type).
Proof.
  unfold Runtime.generateComponentDescription, generateComponentDescription.
  destruct (includes componentCode tripleDQuote || includes componentCode tripleQuote).
  - apply eventually_bind; [apply eventually_commentOf|].
    intros found. apply eventually_described.
  - destruct (includes componentCode (lit "/**")).
    + apply eventually_bind; [apply eventually_commentOf|].
      intros found. apply eventually_described.
    + destruct (includes componentCode (lit "//")).
      * destruct (Nat.ltb 0 _);
          [apply eventually_ret | apply eventually_heuristicDescription].
      * apply eventually_heuristicDescription.
Qed.

Lemma eventually_componentOfMatch (code type : str) (m : MatchResult) :
  eventually (fun c => Runtime.componentOfMatch c code type m)
             (componentOfMatch code type m).
Proof.
  unfold Runtime.componentOfMatch, componentOfMatch.
  apply eventually_bind; [apply eventually_generateComponentDescription|].
  intros description. apply eventually_ret.
Qed.

Lemma whileExec_settles (B : Type) (s : str)
    (body : nat -> MatchResult -> Runtime.run B)
    (pbody : MatchResult -> outcome B) :
  (forall m, eventually (fun c => body c m) (pbody m)) ->
  forall fuel re bs,
    (r <- execLoop fuel re s ;; mapM pbody (fst r)) = Ret bs ->
    exists enough,
      forall c, enough <= c ->
        forall pre post, exists re' objs,
          Runtime.whileExec c fuel (length pre) s (body c) (pre ++ re :: post)
          = (Ret bs, pre ++ re' :: post ++ objs).
Proof.
  intros Hbody. induction fuel as [|fuel IH]; intros re bs H; [discriminate|].
  cbn [execLoop] in H. destruct (exec re s) as [[m|] re1] eqn:E.
  - destruct (execLoop fuel re1 s) as [[ms re2]| |] eqn:L; try discriminate.
    cbn [bind fst mapM] in H.
    destruct (pbody m) as [b| |] eqn:Pb; try discriminate. cbn [bind] in H.
    destruct (mapM pbody ms) as [bs'| |] eqn:Pm; try discriminate.
    cbn [bind] in H. inversion H; subst bs.
    destruct (Hbody m b Pb) as (c1 & H1).
    destruct (IH re1 bs') as (c2 & H2).
    { rewrite L. cbn [bind fst]. exact Pm. }
    exists (Nat.max (weight (length s) (source re)) (Nat.max c1 c2)).
    intros c Hc pre post. cbn [Runtime.whileExec].
    destruct (H1 c ltac:(lia) (pre ++ re1 :: post)) as (o1 & E1).
    destruct (H2 c ltac:(lia) pre (post ++ o1)) as (re' & o2 & E2).
    exists re', (o1 ++ o2).
    unfold Runtime.rbind at 1. unfold Runtime.execAt.
    rewrite nth_error_mid, exec_quiet by lia. rewrite E, update_mid.
    unfold Runtime.rbind at 1. rewrite E1.
    replace ((pre ++ re1 :: post) ++ o1) with (pre ++ re1 :: post ++ o1)
      by (rewrite <- app_assoc; reflexivity).
    unfold Runtime.rbind. rewrite E2. unfold Runtime.ret.
    rewrite <- app_assoc. reflexivity.
  - cbn [bind fst mapM] in H. inversion H; subst bs.
    exists (weight (length s) (source re)). intros c Hc pre post.
    exists re1, []. cbn [Runtime.whileExec].
    unfold Runtime.rbind, Runtime.execAt.
    rewrite nth_error_mid, exec_quiet by lia.
    rewrite E, update_mid, app_nil_r. reflexivity.
Qed.

Lemma eventually_forEach_then (B C : Type) (s : str) (re : RegExp)
    (body : nat -> MatchResult -> Runtime.run B)
    (pbody : MatchResult -> outcome B)
    (rest : nat -> list B -> Runtime.run C) (prest : list B -> outcome C) :
  (forall m, eventually (fun c => body c m) (pbody m)) ->
  (forall bs, eventually (fun c => rest c bs) (prest bs)) ->
  eventually
    (fun c =>
       Runtime.rbind (Runtime.new re)
         (fun a =>
            Runtime.rbind (Runtime.whileExec c (length s + 2) a s (body c))
              (rest c)))
    (ms <- execAll re s ;; bs <- mapM pbody ms ;; prest bs).
Proof.
  intros Hbody Hrest y H. unfold execAll in H.
  destruct (execLoop (length s + 2) re s) as [[ms re0]| |] eqn:L;
    try discriminate.
  cbn [bind fst] in H.
  destruct (mapM pbody ms) as [bs| |] eqn:Pm; try discriminate.
  cbn [bind] in H.
  destruct (whileExec_settles B s body pbody Hbody (length s + 2) re bs)
    as (c1 & H1).
  { rewrite L. cbn [bind fst]. exact Pm. }
  destruct (Hrest bs y H) as (c2 & H2).
  exists (Nat.max c1 c2). intros c Hc h.
  destruct (H1 c ltac:(lia) h []) as (re' & o1 & E1).
  destruct (H2 c ltac:(lia) (h ++ re' :: [] ++ o1)) as (o2 & E2).
  exists ((re' :: [] ++ o1) ++ o2).
  unfold Runtime.rbind, Runtime.new. rewrite E1, E2, <- app_assoc.
  reflexivity.
Qed.

Lemma eventually_extractComponents (code programming_language : str) :
  eventually (fun c => Runtime.extractComponents c code programming_language)
             (extractComponents code programming_language).
Proof.
  unfold Runtime.extractComponents, extractComponents.
  apply eventually_forEach_then;
    [intros m; apply eventually_componentOfMatch|].
  intros mainClasses.
  apply eventually_forEach_then;
    [intros m; apply eventually_componentOfMatch|].
  intros named.
  apply eventually_forEach_then;
    [intros m; apply eventually_componentOfMatch|].
  intros arrows. apply eventually_ret.
Qed.

Lemma matchesAt_settles (s : str) (re : RegExp) (ms : list MatchResult) :
  execAll re s = Ret ms ->
  exists enough,
    forall c, enough <= c ->
      forall pre post, exists re' objs,
        Runtime.matchesAt c (length pre) s (pre ++ re :: post)
        = (Ret ms, pre ++ re' :: post ++ objs).
Proof.
  intros H.
  apply (whileExec_settles MatchResult s (fun _ m => Runtime.ret m)
           (fun m => Ret m) (fun m => eventually_ret _ m) (length s + 2) re ms).
  unfold execAll in H.
  destruct (execLoop (length s + 2) re s) as [[ms' re']| |]; try discriminate.
  cbn [bind fst] in *. rewrite (mapM_pure _ _ (fun m => m)), map_id.
  exact H.
Qed.

Lemma eventually_generateArchitectureDiagram (code programming_language : str) :
  eventually
    (fun c => Runtime.generateArchitectureDiagram c code programming_language)
    (generateArchitectureDiagram code programming_language).
Proof.
  intros d H.
  unfold generateArchitectureDiagram, extractClasses, extractFunctions,
    extractImports in H.
  set (ps := selectPatterns programming_language) in H.
  destruct (execAll (setLastIndex (classRegex ps) 0) code) as [cms| |] eqn:Ec;
    try discriminate. cbn [bind] in H.
  destruct (execAll (setLastIndex (functionRegex ps) 0) code) as [fms| |] eqn:Ef;
    try discriminate. cbn [bind] in H.
  destruct (execAll (setLastIndex (importRegex ps) 0) code) as [ims| |] eqn:Ei;
    try discriminate. cbn [bind] in H.
  destruct (matchesAt_settles code _ cms Ec) as (c1 & H1).
  destruct (matchesAt_settles code _ fms Ef) as (c2 & H2).
  destruct (matchesAt_settles code _ ims Ei) as (c3 & H3).
  exists (Nat.max c1 (Nat.max c2 c3)). intros c Hc h.
  destruct (generateArchitectureDiagram_run c code programming_language
              (Ret cms) (Ret fms) (Ret ims)
              (H1 c ltac:(lia)) (H2 c ltac:(lia)) (H3 c ltac:(lia)) h)
    as (objs & E).
  exists objs. rewrite E. cbn [bind]. rewrite H. reflexivity.
Qed.

Lemma eventually_explainCode (code programming_language : str) :
  eventually (fun c => Runtime.explainCode c code programming_language)
             (explainCode code programming_language).
Proof.
  unfold Runtime.explainCode, explainCode.
  apply eventually_bind; [apply eventually_generateArchitectureDiagram|].
  intros architectureDiagram.
  eapply eventually_bind_value;
    [apply eventually_eval, eventuallyO_extractCoreFunctionality|].
  apply eventually_bind; [apply eventually_extractComponents|].
  intros components. apply eventually_ret.
Qed.

(** For every text and label there is a capacity from which every
    engine returns the report. *)
Lemma explainCode_settles (code programming_language : str) :
  exists r enough,
    explainCode code programming_language = Ret r
    /\ forall capacity, enough <= capacity ->
         forall h, exists objs,
           Runtime.explainCode capacity code programming_language h
           = (Ret r, h ++ objs).
Proof.
  destruct (explainCode_returns code programming_language) as (d & cs & E).
  destruct (eventually_explainCode code programming_language _ E)
    as (enough & H).
  eexists _, enough. split; [exact E | exact H].
Qed.

(** ** The report, on every engine that is large enough *)


(** ** The handler, on every engine that is large enough *)

(** A POST request with the right Authorization header whose body names
    the method explainCode and has two parameters or more is answered
    with the report of the first two, as JSON and with status 200, on
    every engine that is large enough; on a smaller engine the answer is
    that one or, when the engine ran out of stack, status 500 with the
    message of the [RangeError]. *)
Theorem fetch_answers_proper_call (request : Request) (env : Env)
    (parsed : Body) (code language : str) (more : list str) :
  method request = lit "POST" ->
  authorization request = Some (expectedAuth env) ->
  json request = Json parsed ->
  bodyMethod parsed = lit "explainCode" ->
  params parsed = code :: language :: more ->
  exists result enough,
    explainCode code language = Ret result
    /\ (forall capacity h,
          enough <= capacity ->
          exists objs,
            Runtime.fetch capacity request env h
            = (Ret (mkResponse (stringifyResult result) 200
                      [(lit "Content-Type", lit "application/json")]),
               h ++ objs))
    /\ (forall capacity h,
          exists response objs,
            Runtime.fetch capacity request env h = (Ret response, h ++ objs)
            /\ (response
                = mkResponse (stringifyResult result) 200
                    [(lit "Content-Type", lit "application/json")]
                \/ response
                   = mkResponse
                       (lit "Error processing request: Maximum call stack size exceeded")
                       500 [])).
Proof.
  intros Hm Ha Hj Hb Hp.
  destruct (explainCode_settles code language) as (r & enough & Hr & Hs).
  exists r, enough. split; [exact Hr|].
  assert (Hf : forall capacity h,
            Runtime.fetch capacity request env h
            = Runtime.catch
                (Runtime.rbind (Runtime.explainCode capacity code language)
                   (fun result => Runtime.ret (resultResponse result)))
                (fun message => Runtime.ret (errorResponse (JStr message))) h).
  { intros capacity h. unfold Runtime.fetch.
    rewrite Hm, str_eqb_refl. cbv zeta.
    rewrite (proj2 (refused_iff _ env) Ha), Hj, Hb, str_eqb_refl, Hp.
    reflexivity. }
  split.
  - intros capacity h Hc. destruct (Hs capacity Hc h) as (objs & E).
    exists objs. rewrite Hf. unfold Runtime.catch, Runtime.rbind.
    rewrite E. reflexivity.
  - intros capacity h.
    destruct (explainCode_on_engine capacity code language)
      as (real & Hreal & _ & R).
    destruct (R h) as (objs & E). rewrite Hf.
    unfold Runtime.catch, Runtime.rbind. rewrite E.
    destruct Hreal as [-> | ->].
    + eexists _, objs. split; [reflexivity|]. right. reflexivity.
    + rewrite Hr. eexists _, objs. split; [reflexivity|]. left. reflexivity.
Qed.

Lemma fetch_answers_proper_call_witness :
  method properCall = lit "POST"
  /\ authorization properCall = Some (expectedAuth sampleEnv)
  /\ exists result enough,
       explainCode (lit "class A {}") (lit "js") = Ret result
       /\ (forall capacity h,
             enough <= capacity ->
             exists objs,
               Runtime.fetch capacity properCall sampleEnv h
               = (Ret (mkResponse (stringifyResult result) 200
                         [(lit "Content-Type", lit "application/json")]),
                  h ++ objs))
       /\ (forall capacity h,
             exists response objs,
               Runtime.fetch capacity properCall sampleEnv h
               = (Ret response, h ++ objs)
               /\ (response
                   = mkResponse (stringifyResult result) 200
                       [(lit "Content-Type", lit "application/json")]
                   \/ response
                      = mkResponse
                          (lit "Error processing request: Maximum call stack size exceeded")
                          500 [])).
Proof.
  split; [reflexivity|]. split; [reflexivity|].
  exact (fetch_answers_proper_call properCall sampleEnv
           (mkBody (lit "explainCode") [lit "class A {}"; lit "js"])
           (lit "class A {}") (lit "js") []
           eq_refl eq_refl eq_refl eq_refl eq_refl).
Defined.
